(** * skipmap: the string-keyed concurrent skip list of collection/skipmap

    A shallow embedding of [collection/skipmap/skipmap_str.go] and the
    verification of its sequential behaviour.

    The Go heap of [stringNode]s is a list indexed by addresses, a node
    pointer is an address or nil, and every method takes the heap in and
    gives the heap back.  Loops that follow links or retry take fuel. *)

From Stdlib Require Import ZArith String Ascii Lia.
From stdpp Require Import base list sorting strings relations.


(** ** Outcomes: a result, or the way the call did not return *)

Inductive fault : Type :=
  | OutOfFuel   (* the loop budget of the model ran out *)
  | Panic       (* nil dereference, index out of range, unlock of an unlocked mutex *)
  | Deadlock.   (* Lock on a mutex that is held: the sequential caller blocks forever *)

Inductive outcome (A : Type) : Type :=
  | Ret (a : A)
  | Err (e : fault).
Arguments Ret {A} a.
Arguments Err {A} e.

Definition bind {A B : Type} (m : outcome A) (k : A → outcome B) : outcome B :=
  match m with
  | Ret a => k a
  | Err e => Err e
  end.

Notation "'let*' x ':=' m 'in' k" := (bind m (fun x => k))
  (at level 10, x name, m at level 100, k at level 200, only parsing).
Notation "'let*' ' pat ':=' m 'in' k" := (bind m (fun x => match x with pat => k end))
  (at level 10, pat pattern, m at level 100, k at level 200, only parsing).

(** ** Values, nodes, the map handle *)

(** A Go [interface{}]: nil, or a boxed value. *)
Inductive iface : Type :=
  | inil
  | istring (s : string)
  | iint (n : Z).

(** The address of a node on the heap. *)
Abbreviation ptr := nat (only parsing).

Record stringNode : Type := mkStringNode {
  key : string;
  score : Z;                    (* uint64 *)
  value : iface;                (* unsafe.Pointer to the boxed interface{} *)
  next : list (option ptr);     (* []*stringNode *)
  mu : bool;                    (* sync.Mutex: true when held *)
  flags : Z                     (* bitflag *)
}.

Record StringMap : Type := mkStringMap {
  header : ptr;
  length : Z                    (* int64 *)
}.

Record state : Type := mkState {
  heap : list stringNode;
  smap : StringMap
}.

Abbreviation Heap := (list stringNode).
Abbreviation Links := (list (option ptr)).

Definition with_value (v : iface) (n : stringNode) : stringNode :=
  mkStringNode (key n) (score n) v (next n) (mu n) (flags n).
Definition with_next (l : Links) (n : stringNode) : stringNode :=
  mkStringNode (key n) (score n) (value n) l (mu n) (flags n).
Definition with_mu (b : bool) (n : stringNode) : stringNode :=
  mkStringNode (key n) (score n) (value n) (next n) b (flags n).
Definition with_flags (f : Z) (n : stringNode) : stringNode :=
  mkStringNode (key n) (score n) (value n) (next n) (mu n) f.

Definition set_heap (st : state) (h : Heap) : state := mkState h (smap st).

(** [atomic.AddInt64]: two's complement addition on 64 bits. *)
Definition wrap64 (z : Z) : Z := ((z + 2 ^ 63) mod 2 ^ 64 - 2 ^ 63)%Z.
Definition AddInt64 (x delta : Z) : Z := wrap64 (x + delta).

(** ** What the file uses and does not define *)

(** Modelled from the spec: the flag word ([bitflag], with the constants
    [fullyLinked] and [marked]) is declared in another file of the package.
    The spec (4.1) gives it a single-bit test, an idempotent bit set and a
    masked read of several bits compared as one unit; the two predicates
    are two independent bits. *)
Definition fullyLinked : Z := 1.
Definition marked : Z := 2.
Definition bitflag_SetTrue (data f : Z) : Z := Z.lor data f.
Definition bitflag_Get (data f : Z) : bool := negb (Z.land data f =? 0)%Z.
Definition bitflag_MGet (data check expect : Z) : bool := (Z.land data check =? expect)%Z.

(** Modelled from the spec: [cmpstring] is declared in another file of the
    package.  The spec (4.2) makes it the exact lexicographic comparison of
    the original keys, with the sign convention of [cmp]. *)
Definition cmpstring (a b : string) : Z :=
  match String.compare a b with
  | Lt => (-1)%Z
  | Eq => 0%Z
  | Gt => 1%Z
  end.

(** The hash function of package wyhash and the constant [maxLevel] are taken
    as parameters.  [randomLevel()] is an argument [level] of [Store]. *)
Class Oracle : Type := {
  Sum64String : string → Z;
  maxLevel : nat;
  maxLevel_pos : 1 ≤ maxLevel
}.

(** FNV-1a on 64 bits and sixteen levels: an instance to run the code on. *)
Fixpoint fnv1a (acc : Z) (s : string) : Z :=
  match s with
  | EmptyString => acc
  | String c s' =>
      fnv1a ((Z.lxor acc (Z.of_N (N_of_ascii c)) * 1099511628211) mod 2 ^ 64)%Z s'
  end.

Definition fnv_oracle : Oracle :=
  {| Sum64String := fnv1a 14695981039346656037%Z;
     maxLevel := 16;
     maxLevel_pos := Nat.lt_0_succ 15 |}.

Section Code.
Context {O : Oracle}.

Definition hash (s : string) : Z := (Sum64String s mod 2 ^ 64)%Z.

(** ** Node methods *)

Definition get (h : Heap) (p : ptr) : outcome stringNode :=
  match h !! p with
  | Some n => Ret n
  | None => Err Panic
  end.

Definition nonnil (p : option ptr) : outcome ptr :=
  match p with
  | Some q => Ret q
  | None => Err Panic
  end.

Definition index {A : Type} (l : list A) (i : nat) : outcome A :=
  match l !! i with
  | Some x => Ret x
  | None => Err Panic
  end.

Definition alloc (h : Heap) (n : stringNode) : ptr * Heap :=
  (List.length h, h ++ [n]).

Definition newStringNode (k : string) (v : iface) (level : nat) : stringNode :=
  with_value v (mkStringNode k (hash k) inil (replicate level None) false 0).

Definition storeVal (h : Heap) (n : ptr) (v : iface) : outcome Heap :=
  let* nd := get h n in Ret (<[n := with_value v nd]> h).

Definition loadVal (h : Heap) (n : ptr) : outcome iface :=
  let* nd := get h n in Ret (value nd).

(** cmp return 1 if n is bigger, 0 if equal, else -1. *)
Definition cmp (n : stringNode) (sc : Z) (k : string) : Z :=
  if (score n >? sc)%Z then 1%Z
  else if (score n =? sc)%Z then cmpstring (key n) k
  else (-1)%Z.

Definition loadNext (h : Heap) (n : ptr) (i : nat) : outcome (option ptr) :=
  let* nd := get h n in index (next nd) i.

Definition storeNext (h : Heap) (n : ptr) (i : nat) (v : option ptr) : outcome Heap :=
  let* nd := get h n in
  if decide (i < List.length (next nd))
  then Ret (<[n := with_next (<[i := v]> (next nd)) nd]> h)
  else Err Panic.

Definition Lock (h : Heap) (n : ptr) : outcome Heap :=
  let* nd := get h n in
  if mu nd then Err Deadlock else Ret (<[n := with_mu true nd]> h).

Definition Unlock (h : Heap) (n : ptr) : outcome Heap :=
  let* nd := get h n in
  if mu nd then Ret (<[n := with_mu false nd]> h) else Err Panic.

Definition SetTrue (h : Heap) (n : ptr) (f : Z) : outcome Heap :=
  let* nd := get h n in Ret (<[n := with_flags (bitflag_SetTrue (flags nd) f) nd]> h).

Definition Get (h : Heap) (n : ptr) (f : Z) : outcome bool :=
  let* nd := get h n in Ret (bitflag_Get (flags nd) f).

Definition MGet (h : Heap) (n : ptr) (check expect : Z) : outcome bool :=
  let* nd := get h n in Ret (bitflag_MGet (flags nd) check expect).

(** ** NewString *)

Definition NewString : state :=
  let h := newStringNode EmptyString (istring EmptyString) maxLevel in
  mkState [with_flags (bitflag_SetTrue (flags h) fullyLinked) h] (mkStringMap 0 0).

(** ** Search *)

(** [for succ != nil && succ.cmp(score, key) < 0 { x = succ; succ = x.loadNext(i) }] *)
Fixpoint advance (fuel : nat) (h : Heap) (sc : Z) (k : string) (i : nat)
    (x : ptr) (succ : option ptr) : outcome (ptr * option ptr) :=
  match succ with
  | None => Ret (x, None)
  | Some s =>
      let* sn := get h s in
      if (cmp sn sc k <? 0)%Z then
        match fuel with
        | 0 => Err OutOfFuel
        | S fuel' => let* succ' := loadNext h s i in advance fuel' h sc k i s succ'
        end
      else Ret (x, Some s)
  end.

(** [succ != nil && succ.cmp(score, key) == 0] *)
Definition is_match (h : Heap) (succ : option ptr) (sc : Z) (k : string) : outcome bool :=
  match succ with
  | None => Ret false
  | Some s => let* sn := get h s in Ret (cmp sn sc k =? 0)%Z
  end.

(** The levels [n-1 .. 0] of [findNode], entered at node [x]. *)
Fixpoint findNode_from (fuel : nat) (h : Heap) (sc : Z) (k : string) (n : nat)
    (x : ptr) (preds succs : Links) : outcome (option ptr * Links * Links) :=
  match n with
  | 0 => Ret (None, preds, succs)
  | S i =>
      let* succ := loadNext h x i in
      let* '(x', succ') := advance fuel h sc k i x succ in
      let preds' := <[i := Some x']> preds in
      let succs' := <[i := succ']> succs in
      let* found := is_match h succ' sc k in
      if found then Ret (succ', preds', succs')
      else findNode_from fuel h sc k i x' preds' succs'
  end.

Definition findNode (fuel : nat) (st : state) (k : string) (preds succs : Links)
    : outcome (option ptr * Links * Links) :=
  findNode_from fuel (heap st) (hash k) k maxLevel (header (smap st)) preds succs.

(** The levels [n-1 .. 0] of [findNodeDelete]. *)
Fixpoint findNodeDelete_from (fuel : nat) (h : Heap) (sc : Z) (k : string) (n : nat)
    (lFound : Z) (x : ptr) (preds succs : Links) : outcome (Z * Links * Links) :=
  match n with
  | 0 => Ret (lFound, preds, succs)
  | S i =>
      let* succ := loadNext h x i in
      let* '(x', succ') := advance fuel h sc k i x succ in
      let preds' := <[i := Some x']> preds in
      let succs' := <[i := succ']> succs in
      let* lFound' := (if (lFound =? -1)%Z
                  then let* found := is_match h succ' sc k in
                       Ret (if found then Z.of_nat i else lFound)
                  else Ret lFound) in
      findNodeDelete_from fuel h sc k i lFound' x' preds' succs'
  end.

Definition findNodeDelete (fuel : nat) (st : state) (k : string) (preds succs : Links)
    : outcome (Z * Links * Links) :=
  findNodeDelete_from fuel (heap st) (hash k) k maxLevel (-1)%Z (header (smap st)) preds succs.

(** ** Locking the predecessors *)

(** [for i := highestLevel; i >= 0; i--], with [n = i + 1]. *)
Fixpoint unlock_from (n : nat) (h : Heap) (preds : Links) (prevPred : option ptr)
    : outcome Heap :=
  match n with
  | 0 => Ret h
  | S i =>
      let* pred := index preds i in
      if decide (pred = prevPred) then unlock_from i h preds prevPred
      else let* p := nonnil pred in let* h' := Unlock h p in unlock_from i h' preds pred
  end.

Definition unlockString (h : Heap) (preds : Links) (highestLevel : Z) : outcome Heap :=
  unlock_from (Z.to_nat (highestLevel + 1)) h preds None.

(** The validity test of [Store]:
    [!pred.flags.Get(marked) && (succ == nil || !succ.flags.Get(marked))
     && pred.loadNext(layer) == succ]. *)
Definition validStore (h : Heap) (pred succ : option ptr) (layer : nat) : outcome bool :=
  let* p := nonnil pred in
  let* pm := Get h p marked in
  if pm then Ret false else
  let* sm := match succ with
        | None => Ret false
        | Some s => Get h s marked
        end in
  if sm then Ret false else
  let* nx := loadNext h p layer in
  Ret (bool_decide (nx = succ)).

(** The validity test of [Delete] and [LoadAndDelete]:
    [!pred.flags.Get(marked) && pred.loadNext(layer) == succ]. *)
Definition validDelete (h : Heap) (pred succ : option ptr) (layer : nat) : outcome bool :=
  let* p := nonnil pred in
  let* pm := Get h p marked in
  if pm then Ret false else
  let* nx := loadNext h p layer in
  Ret (bool_decide (nx = succ)).

(** The locking loop that [Store], [LoadAndDelete] and [Delete] each write
    out: [for layer := ...; valid && layer < bound; layer++], with [n] the
    iterations left and [validAt] the loop's validity test. *)
Fixpoint lockPreds (validAt : Heap → option ptr → option ptr → nat → outcome bool)
    (n : nat) (h : Heap) (preds succs : Links) (layer : nat)
    (prevPred : option ptr) (highestLocked : Z) (valid : bool)
    : outcome (Heap * Z * bool) :=
  match n with
  | 0 => Ret (h, highestLocked, valid)
  | S n' =>
      if valid then
        let* pred := index preds layer in
        let* succ := index succs layer in
        let* '(h1, highestLocked1) :=
          (if decide (pred = prevPred) then Ret (h, highestLocked)
           else let* p := nonnil pred in let* h1 := Lock h p in Ret (h1, Z.of_nat layer)) in
        let* valid1 := validAt h1 pred succ layer in
        lockPreds validAt n' h1 preds succs (S layer) pred highestLocked1 valid1
      else Ret (h, highestLocked, valid)
  end.

(** ** Store *)

(** [for layer := 0; layer < level; layer++
      { nn.next[layer] = succs[layer]; preds[layer].storeNext(layer, nn) }] *)
Fixpoint linkLoop (n : nat) (h : Heap) (preds succs : Links) (nn : ptr) (layer : nat)
    : outcome Heap :=
  match n with
  | 0 => Ret h
  | S n' =>
      let* succ := index succs layer in
      let* h1 := storeNext h nn layer succ in
      let* pred := index preds layer in
      let* p := nonnil pred in
      let* h2 := storeNext h1 p layer (Some nn) in
      linkLoop n' h2 preds succs nn (S layer)
  end.

(** The [for { ... }] of [Store].  After the new node is linked and the
    counter incremented the source has no [return]: the loop runs again. *)
Fixpoint Store_loop (retries fuel : nat) (st : state) (k : string) (v : iface)
    (level : nat) (preds succs : Links) : outcome state :=
  match retries with
  | 0 => Err OutOfFuel
  | S retries' =>
      let* '(nodeFound, preds, succs) := findNode fuel st k preds succs in
      match nodeFound with
      | Some nf =>
          let* m := Get (heap st) nf marked in
          if negb m then
            let* h' := storeVal (heap st) nf v in Ret (set_heap st h')
          else Store_loop retries' fuel st k v level preds succs
      | None =>
          let* '(h1, highestLocked, valid) :=
            lockPreds validStore level (heap st) preds succs 0 None (-1)%Z true in
          if negb valid then
            let* h2 := unlockString h1 preds highestLocked in
            Store_loop retries' fuel (set_heap st h2) k v level preds succs
          else
            let '(nn, h2) := alloc h1 (newStringNode k v level) in
            let* h3 := linkLoop level h2 preds succs nn 0 in
            let* h4 := SetTrue h3 nn fullyLinked in
            let* h5 := unlockString h4 preds highestLocked in
            let st' := mkState h5 (mkStringMap (header (smap st))
                                               (AddInt64 (length (smap st)) 1)) in
            Store_loop retries' fuel st' k v level preds succs
      end
  end.

Definition Store (fuel : nat) (st : state) (k : string) (v : iface) (level : nat)
    : outcome state :=
  Store_loop fuel fuel st k v level (replicate maxLevel None) (replicate maxLevel None).

(** ** Load *)

Fixpoint Load_from (fuel : nat) (h : Heap) (sc : Z) (k : string) (n : nat) (x : ptr)
    : outcome (iface * bool) :=
  match n with
  | 0 => Ret (inil, false)
  | S i =>
      let* nex := loadNext h x i in
      let* '(x', nex') := advance fuel h sc k i x nex in
      let* found := is_match h nex' sc k in
      if found then
        let* s := nonnil nex' in
        let* visible := MGet h s (Z.lor fullyLinked marked) fullyLinked in
        if visible then let* v := loadVal h s in Ret (v, true)
        else Ret (inil, false)
      else Load_from fuel h sc k i x'
  end.

Definition Load (fuel : nat) (st : state) (k : string) : outcome (iface * bool) :=
  Load_from fuel (heap st) (hash k) k maxLevel (header (smap st)).

(** ** LoadAndDelete and Delete *)

(** [for i := topLayer; i >= 0; i--
      { preds[i].storeNext(i, nodeToDelete.next[i]) }], with [n = i + 1]. *)
Fixpoint unlinkLoop (n : nat) (h : Heap) (preds : Links) (nodeToDelete : ptr)
    : outcome Heap :=
  match n with
  | 0 => Ret h
  | S i =>
      let* nd := get h nodeToDelete in
      let* nx := index (next nd) i in
      let* pred := index preds i in
      let* p := nonnil pred in
      let* h' := storeNext h p i nx in
      unlinkLoop i h' preds nodeToDelete
  end.

(** [isMarked || lFound != -1 && succs[lFound].flags.MGet(fullyLinked|marked, fullyLinked)
     && (len(succs[lFound].next)-1) == lFound] *)
Definition deletable (h : Heap) (isMarked : bool) (lFound : Z) (succs : Links)
    : outcome bool :=
  if isMarked then Ret true
  else if (lFound =? -1)%Z then Ret false
  else
    let* sl := index succs (Z.to_nat lFound) in
    let* s := nonnil sl in
    let* visible := MGet h s (Z.lor fullyLinked marked) fullyLinked in
    if visible then
      let* nd := get h s in
      Ret (Z.of_nat (List.length (next nd)) - 1 =? lFound)%Z
    else Ret false.

(** The [if !isMarked { ... }] block: [inl h] when it returns not-found
    (the node was marked by another process), [inr] with the heap,
    [nodeToDelete] and [topLayer] otherwise. *)
Definition markNode (h : Heap) (isMarked : bool) (lFound : Z) (succs : Links)
    (nodeToDelete : option ptr) (topLayer : Z)
    : outcome (Heap + Heap * option ptr * Z) :=
  if negb isMarked then
    let* nodeToDelete' := index succs (Z.to_nat lFound) in
    let* p := nonnil nodeToDelete' in
    let* h1 := Lock h p in
    let* m := Get h1 p marked in
    if m then let* h2 := Unlock h1 p in Ret (inl h2)
    else let* h2 := SetTrue h1 p marked in Ret (inr (h2, nodeToDelete', lFound))
  else Ret (inr (h, nodeToDelete, topLayer)).

Fixpoint LoadAndDelete_loop (retries fuel : nat) (st : state) (k : string)
    (nodeToDelete : option ptr) (isMarked : bool) (topLayer : Z)
    (preds succs : Links) : outcome (iface * bool * state) :=
  match retries with
  | 0 => Err OutOfFuel
  | S retries' =>
      let* '(lFound, preds, succs) := findNodeDelete fuel st k preds succs in
      let* go := deletable (heap st) isMarked lFound succs in
      if go then
        let* r := markNode (heap st) isMarked lFound succs nodeToDelete topLayer in
        match r with
        | inl h2 => Ret (inil, false, set_heap st h2)
        | inr (h2, nodeToDelete, topLayer) =>
            let* '(h3, highestLocked, valid) :=
              lockPreds validDelete (Z.to_nat (topLayer + 1)) h2 preds succs
                        0 None (-1)%Z true in
            if negb valid then
              let* h4 := unlockString h3 preds highestLocked in
              LoadAndDelete_loop retries' fuel (set_heap st h4) k
                                 nodeToDelete true topLayer preds succs
            else
              let* p := nonnil nodeToDelete in
              let* h4 := unlinkLoop (Z.to_nat (topLayer + 1)) h3 preds p in
              let* h5 := Unlock h4 p in
              let* h6 := unlockString h5 preds highestLocked in
              let* v := loadVal h6 p in
              Ret (v, true,
                   mkState h6 (mkStringMap (header (smap st))
                                           (AddInt64 (length (smap st)) (-1))))
        end
      else Ret (inil, false, st)
  end.

Definition LoadAndDelete (fuel : nat) (st : state) (k : string)
    : outcome (iface * bool * state) :=
  LoadAndDelete_loop fuel fuel st k None false (-1)%Z
                     (replicate maxLevel None) (replicate maxLevel None).

Fixpoint Delete_loop (retries fuel : nat) (st : state) (k : string)
    (nodeToDelete : option ptr) (isMarked : bool) (topLayer : Z)
    (preds succs : Links) : outcome state :=
  match retries with
  | 0 => Err OutOfFuel
  | S retries' =>
      let* '(lFound, preds, succs) := findNodeDelete fuel st k preds succs in
      let* go := deletable (heap st) isMarked lFound succs in
      if go then
        let* r := markNode (heap st) isMarked lFound succs nodeToDelete topLayer in
        match r with
        | inl h2 => Ret (set_heap st h2)
        | inr (h2, nodeToDelete, topLayer) =>
            let* '(h3, highestLocked, valid) :=
              lockPreds validDelete (Z.to_nat (topLayer + 1)) h2 preds succs
                        0 None (-1)%Z true in
            if negb valid then
              let* h4 := unlockString h3 preds highestLocked in
              Delete_loop retries' fuel (set_heap st h4) k
                          nodeToDelete true topLayer preds succs
            else
              let* p := nonnil nodeToDelete in
              let* h4 := unlinkLoop (Z.to_nat (topLayer + 1)) h3 preds p in
              let* h5 := Unlock h4 p in
              let* h6 := unlockString h5 preds highestLocked in
              Ret (mkState h6 (mkStringMap (header (smap st))
                                           (AddInt64 (length (smap st)) (-1))))
        end
      else Ret st
  end.

Definition Delete (fuel : nat) (st : state) (k : string) : outcome state :=
  Delete_loop fuel fuel st k None false (-1)%Z
              (replicate maxLevel None) (replicate maxLevel None).

(** ** LoadOrStore *)

Definition LoadOrStore (fuel : nat) (st : state) (k : string) (v : iface) (level : nat)
    : outcome (iface * bool * state) :=
  let* '(loadedval, ok) := Load fuel st k in
  if negb ok then
    let* st' := Store fuel st k v level in Ret (inil, false, st')
  else Ret (loadedval, true, st).

(** ** Range and Len *)

(** The visitor [f] is a closure: it gets the key and the value and its own
    state of type [A], and answers whether to go on.  The result lists the
    calls made to [f], in order, next to the visitor's last state. *)
Fixpoint Range_loop {A : Type} (fuel : nat) (h : Heap) (x : option ptr)
    (f : string → iface → A → bool * A) (a : A) (calls : list (string * iface))
    : outcome (list (string * iface) * A) :=
  match x with
  | None => Ret (calls, a)
  | Some p =>
      match fuel with
      | 0 => Err OutOfFuel
      | S fuel' =>
          let* visible := MGet h p (Z.lor fullyLinked marked) fullyLinked in
          if negb visible then
            let* x' := loadNext h p 0 in Range_loop fuel' h x' f a calls
          else
            let* nd := get h p in
            let* v := loadVal h p in
            let '(continue, a') := f (key nd) v a in
            if negb continue then Ret (calls ++ [(key nd, v)], a')
            else let* x' := loadNext h p 0 in
                 Range_loop fuel' h x' f a' (calls ++ [(key nd, v)])
      end
  end.

Definition Range {A : Type} (fuel : nat) (st : state)
    (f : string → iface → A → bool * A) (a : A)
    : outcome (list (string * iface) * A) :=
  let* x := loadNext (heap st) (header (smap st)) 0 in
  Range_loop fuel (heap st) x f a [].

Definition Len (st : state) : Z := length (smap st).

End Code.

(** ** The order of the list, and what a well-formed list is *)

Section Model.
Context {O : Oracle}.

(** [cmp] on two keys: the order of the pairs (score, key). *)
Definition keycmp (a b : string) : Z :=
  if (hash a >? hash b)%Z then 1%Z
  else if (hash a =? hash b)%Z then cmpstring a b
  else (-1)%Z.

Definition klt (a b : string) : Prop := (keycmp a b < 0)%Z.

(** What no method changes: key, score and height. *)
Definition static (nd : stringNode) : string * Z * nat :=
  (key nd, score nd, List.length (next nd)).

(** A linked node, as the list sees it: its address, key and height. *)
Record item : Type := mkItem {
  iptr : ptr;
  ikey : string;
  iheight : nat
}.

(** The addresses of the nodes that reach level [i]. *)
Definition lvl (i : nat) (its : list item) : list ptr :=
  iptr <$> filter (λ it, i < iheight it) its.

(** [n.next[i]], when [n] is allocated and has a level [i]. *)
Definition nextAt (h : Heap) (i : nat) (p : ptr) : option (option ptr) :=
  h !! p ≫= λ nd, next nd !! i.

(** From [x], the level-[i] links visit exactly [l] and end in nil. *)
Fixpoint chain (h : Heap) (i : nat) (x : ptr) (l : list ptr) : Prop :=
  match l with
  | [] => nextAt h i x = Some None
  | y :: l' => nextAt h i x = Some (Some y) ∧ chain h i y l'
  end.

Definition item_ok (h : Heap) (hd : ptr) (it : item) : Prop :=
  ∃ nd, h !! iptr it = Some nd ∧ key nd = ikey it ∧ score nd = hash (ikey it) ∧
        List.length (next nd) = iheight it ∧ 1 ≤ iheight it ≤ maxLevel ∧
        iptr it ≠ hd.

(** The structure of the list: the nodes [its] in ascending order, linked at
    every level they reach.  Flags, locks and values are left free. *)
Record Linked (st : state) (its : list item) : Prop := mkLinked {
  lk_header : ∃ hn, heap st !! header (smap st) = Some hn ∧
                    static hn = (EmptyString, hash EmptyString, maxLevel);
  lk_items : Forall (item_ok (heap st) (header (smap st))) its;
  lk_sorted : StronglySorted klt (ikey <$> its);
  lk_chain : ∀ i, i < maxLevel → chain (heap st) i (header (smap st)) (lvl i its)
}.

Definition at_rest (h : Heap) (p : ptr) : Prop :=
  ∃ nd, h !! p = Some nd ∧ flags nd = fullyLinked ∧ mu nd = false.

(** The list with no operation in flight: every linked node is fully linked,
    unmarked and unlocked, and the counter is the number of nodes. *)
Record Inv (st : state) (its : list item) : Prop := mkInv {
  inv_linked : Linked st its;
  inv_rest : Forall (at_rest (heap st)) (header (smap st) :: (iptr <$> its));
  inv_length : length (smap st) = wrap64 (Z.of_nat (List.length its))
}.

(** The fuel that is enough for any one call on [st]. *)
Definition enough (st : state) (fuel : nat) : Prop := List.length (heap st) + 2 ≤ fuel.

(** One call that writes, on key [k], run with enough fuel. *)
Inductive step_on (k : string) (st st' : state) : Prop :=
  | on_Store fuel v level :
      1 ≤ level ≤ maxLevel → enough st fuel →
      Store fuel st k v level = Ret st' → step_on k st st'
  | on_Delete fuel :
      enough st fuel → Delete fuel st k = Ret st' → step_on k st st'
  | on_LoadAndDelete fuel r :
      enough st fuel → LoadAndDelete fuel st k = Ret (r, st') → step_on k st st'
  | on_LoadOrStore fuel v level r :
      1 ≤ level ≤ maxLevel → enough st fuel →
      LoadOrStore fuel st k v level = Ret (r, st') → step_on k st st'.

(** The states a sequential client can reach. *)
Inductive reachable : state → Prop :=
  | reach_new : reachable NewString
  | reach_step k st st' : reachable st → step_on k st st' → reachable st'.

(** One call that writes, on a key other than [k]. *)
Definition step_off (k : string) (st st' : state) : Prop :=
  ∃ k', k' ≠ k ∧ step_on k' st st'.


(** The list around key [k]: the nodes before it, its node if it has one,
    the nodes after it. *)
Definition key_split (k : string) (its A : list item) (ok : option item)
    (C : list item) : Prop :=
  its = A ++ option_list ok ++ C ∧
  Forall (λ it, klt (ikey it) k) A ∧
  (∀ it, ok = Some it → ikey it = k) ∧
  Forall (λ it, klt k (ikey it)) C.

(** The number of levels on which the node of [k] is linked. *)
Definition hk (ok : option item) : nat := from_option iheight 0 ok.

(** The last node before [k] and the first node not before [k], on level [i]. *)
Definition predAt (hd : ptr) (i : nat) (A : list item) : ptr :=
  default hd (last (lvl i A)).
Definition succAt (i : nat) (ok : option item) (C : list item) : option ptr :=
  head (lvl i (option_list ok ++ C)).

Definition plt (h : Heap) (k : string) (p : ptr) : Prop :=
  ∃ nd, h !! p = Some nd ∧ (cmp nd (hash k) k < 0)%Z.
Definition pge (h : Heap) (k : string) (p : ptr) : Prop :=
  ∃ nd, h !! p = Some nd ∧ (0 ≤ cmp nd (hash k) k)%Z.

(** [l'] is [l] with the entries below [n] set to [f]. *)
Definition filled {A : Type} (n : nat) (l l' : list A) (f : nat → A) : Prop :=
  List.length l' = List.length l ∧
  ∀ j, (j < n → j < List.length l → l' !! j = Some (f j)) ∧
       (n ≤ j → l' !! j = l !! j).

(** A field of the node at an address. *)
Definition fld {X : Type} (π : stringNode → X) (h : Heap) (q : ptr) : option X :=
  π <$> h !! q.


Definition hgt (h : Heap) (q : ptr) : nat :=
  default 0 (fld (λ nd, List.length (next nd)) h q).

(** The heaps agree on a field, at every address. *)
Definition eqv {X : Type} (π : stringNode → X) (h h' : Heap) : Prop :=
  ∀ q, fld π h' q = fld π h q.

(** Only locks differ / only links differ. *)
Definition frame_mu (h h' : Heap) : Prop :=
  eqv static h h' ∧ eqv flags h h' ∧ eqv value h h' ∧ eqv next h h'.
Definition frame_next (h h' : Heap) : Prop :=
  eqv static h h' ∧ eqv flags h h' ∧ eqv value h h' ∧ eqv mu h h'.

(** Equal entries of the list are next to each other. *)
Definition contig (g : list ptr) : Prop :=
  ∀ i m j p, i ≤ m ≤ j → g !! i = Some p → g !! j = Some p → g !! m = Some p.

(** [hl] is the level [highestLocked] the locking loop ends with on [g]. *)
Definition hl_ok (g : list ptr) (m : nat) (hl : Z) : Prop :=
  (m = 0 ∧ hl = (-1)%Z) ∨
  (∃ t : nat, hl = Z.of_nat t ∧ t < m ∧ ∀ j, t ≤ j < m → g !! j = g !! t).

(** The predecessors of [k] on the levels below [n]. *)
Definition predsOf (hd : ptr) (A : list item) (n : nat) : list ptr :=
  (λ j, predAt hd j A) <$> seq 0 n.

(** What [Range] does with the visitor on the entries [es]: the calls made,
    in order, and the visitor's last state. *)
Fixpoint visit {A : Type} (f : string → iface → A → bool * A) (a : A)
    (calls es : list (string * iface)) : list (string * iface) * A :=
  match es with
  | [] => (calls, a)
  | (k, v) :: es' =>
      let '(continue, a') := f k v a in
      if negb continue then (calls ++ [(k, v)], a')
      else visit f a' (calls ++ [(k, v)]) es'
  end.

(** The key and the value of a linked node. *)
Definition entry (h : Heap) (it : item) : string * iface :=
  (ikey it, default inil (fld value h (iptr it))).

(** The map as a client sees it: keys and values, in the order of the list. *)
Definition contents (st : state) (its : list item) : list (string * iface) :=
  entry (heap st) <$> its.

(** Key [k] is in the list at rest, with value [v] / is not in it. *)
Definition holds (st : state) (k : string) (v : iface) : Prop :=
  ∃ its it, Inv st its ∧ it ∈ its ∧ ikey it = k ∧
            fld value (heap st) (iptr it) = Some v.
Definition lacks (st : state) (k : string) : Prop :=
  ∃ its, Inv st its ∧ k ∉ ikey <$> its.

(** What [Load] and [Range] test of a linked node: fully linked and not
    marked. *)
Definition shown (h : Heap) (it : item) : bool :=
  match h !! iptr it with
  | Some nd => bitflag_MGet (flags nd) (Z.lor fullyLinked marked) fullyLinked
  | None => false
  end.

(** The header as the specification has it: before every key in the order
    of [cmp], and with links on all levels. *)
Definition header_sorts_first (st : state) : Prop :=
  ∃ hn, heap st !! header (smap st) = Some hn ∧
        List.length (next hn) = maxLevel ∧
        ∀ k, (cmp hn (hash k) k < 0)%Z.

(** The result of [findNodeDelete] as the specification has it: the lowest
    level on which the recorded successor compares equal to [k]. *)
Definition returns_lowest_match (fuel : nat) (st : state) (k : string) : Prop :=
  ∃ lFound preds succs,
    findNodeDelete fuel st k (replicate maxLevel None) (replicate maxLevel None)
      = Ret (lFound, preds, succs) ∧
    (0 ≤ lFound)%Z ∧
    (∃ s, succs !! Z.to_nat lFound = Some s ∧
          is_match (heap st) s (hash k) k = Ret true) ∧
    ∀ j s, j < Z.to_nat lFound → succs !! j = Some s →
           is_match (heap st) s (hash k) k = Ret false.
End Model.

(** ** States to run the code on, with FNV-1a for the hash *)

Section Demo.
#[local] Existing Instance fnv_oracle.

Definition demo_run (m : outcome state) : state :=
  match m with
  | Ret st => st
  | Err _ => NewString
  end.

(** The map after [Store(a, 1)] with a node of height 2. *)
Definition demo_a : state :=
  Eval vm_compute in demo_run (Store 8 NewString "a"%string (iint 1) 2).

(** Then [Store(b, 2)] with a node of height 1. *)
Definition demo_ab : state :=
  Eval vm_compute in demo_run (Store 8 demo_a "b"%string (iint 2) 1).

(** The node of [a] in [demo_a], and the list it makes. *)
Definition demo_node_a : stringNode :=
  Eval vm_compute in default (newStringNode "a"%string inil 0) (heap demo_a !! 1).
Definition demo_items_a : list item := [mkItem 1 "a"%string 2].

(** [demo_a] when another deleter has marked the node of [a] and has not
    unlinked it yet. *)
Definition demo_marked : state :=
  Eval vm_compute in
    set_heap demo_a (<[1 := with_flags (bitflag_SetTrue (flags demo_node_a) marked)
                                       demo_node_a]> (heap demo_a)).

(** The same two keys stored in the other order. *)
Definition demo_b : state :=
  Eval vm_compute in demo_run (Store 8 NewString "b"%string (iint 2) 1).
Definition demo_ba : state :=
  Eval vm_compute in demo_run (Store 8 demo_b "a"%string (iint 1) 2).

(** The node of [a] in [demo_marked]. *)
Definition demo_node_marked : stringNode :=
  Eval vm_compute in default demo_node_a (heap demo_marked !! 1).

(** A visitor that never stops. *)
Definition visit_all_keys (k : string) (v : iface) (u : unit) : bool * unit := (true, u).
End Demo.

(** Case analysis on every [decide] of the goal, arithmetic cases closed. *)
Ltac cases_decide :=
  repeat (match goal with |- context [decide ?P] => destruct (decide P) end; try lia).

(** * Proofs *)

(** ** The order on keys *)

Section Order.
Context {O : Oracle}.

Lemma compare_refl (a : string) : String.compare a a = Eq.
Proof.
  pose proof (String.compare_antisym a a) as H.
  destruct (String.compare a a); simpl in H; congruence.
Qed.

Lemma compare_Lt_trans (a b c : string) :
  String.compare a b = Lt → String.compare b c = Lt → String.compare a c = Lt.
Proof.
  intros H1 H2.
  assert (String.le a b) as L1 by (unfold String.le, String.leb; by rewrite H1).
  assert (String.le b c) as L2 by (unfold String.le, String.leb; by rewrite H2).
  assert (String.le a c) as L3 by (by etrans).
  unfold String.le, String.leb in L3.
  destruct (String.compare a c) eqn:E; [|done|done].
  apply String.compare_eq_iff in E. subst c.
  rewrite String.compare_antisym, H1 in H2. done.
Qed.

Lemma cmpstring_0 (a b : string) : cmpstring a b = 0%Z ↔ a = b.
Proof.
  unfold cmpstring. split.
  - destruct (String.compare a b) eqn:E; try done.
    intros _. by apply String.compare_eq_iff.
  - intros ->. by rewrite compare_refl.
Qed.

Lemma cmpstring_neg_trans (a b c : string) :
  (cmpstring a b < 0)%Z → (cmpstring b c < 0)%Z → (cmpstring a c < 0)%Z.
Proof.
  unfold cmpstring.
  destruct (String.compare a b) eqn:E1; try lia.
  destruct (String.compare b c) eqn:E2; try lia.
  by rewrite (compare_Lt_trans a b c).
Qed.

Lemma cmpstring_flip (a b : string) : (cmpstring a b < 0)%Z ↔ (0 < cmpstring b a)%Z.
Proof.
  unfold cmpstring. rewrite (String.compare_antisym b a).
  destruct (String.compare a b); simpl; lia.
Qed.

Lemma keycmp_0 (a b : string) : keycmp a b = 0%Z ↔ a = b.
Proof.
  unfold keycmp. split.
  - destruct (hash a >? hash b)%Z; [lia|].
    destruct (hash a =? hash b)%Z; [|lia]. by intros ?%cmpstring_0.
  - intros ->. rewrite Z.gtb_ltb, Z.ltb_irrefl, Z.eqb_refl. by apply cmpstring_0.
Qed.

Lemma klt_trans (a b c : string) : klt a b → klt b c → klt a c.
Proof.
  unfold klt, keycmp. rewrite !Z.gtb_ltb.
  destruct (Z.ltb_spec (hash b) (hash a)); [lia|].
  destruct (Z.eqb_spec (hash a) (hash b)) as [E1|N1];
    (destruct (Z.ltb_spec (hash c) (hash b)); [lia|]);
    (destruct (Z.eqb_spec (hash b) (hash c)) as [E2|N2]);
    (destruct (Z.ltb_spec (hash c) (hash a)); [lia|]);
    (destruct (Z.eqb_spec (hash a) (hash c)); try lia).
  apply cmpstring_neg_trans.
Qed.

Lemma klt_irrefl (a : string) : ¬ klt a a.
Proof. unfold klt. by rewrite (proj2 (keycmp_0 a a) eq_refl). Qed.

Lemma klt_flip (a b : string) : klt a b ↔ (0 < keycmp b a)%Z.
Proof.
  unfold klt, keycmp. rewrite !Z.gtb_ltb.
  destruct (Z.ltb_spec (hash b) (hash a)); destruct (Z.ltb_spec (hash a) (hash b));
    try lia;
    destruct (Z.eqb_spec (hash a) (hash b)); destruct (Z.eqb_spec (hash b) (hash a));
    try lia.
  apply cmpstring_flip.
Qed.

Lemma klt_total (a b : string) : klt a b ∨ a = b ∨ klt b a.
Proof.
  destruct (Z.lt_trichotomy (keycmp a b) 0) as [?|[?|?]].
  - by left.
  - right; left. by apply keycmp_0.
  - right; right. by apply klt_flip.
Qed.

Lemma klt_asym (a b : string) : klt a b → ¬ klt b a.
Proof. intros H1 H2. apply (klt_irrefl a). by eapply klt_trans. Qed.

(** On a node whose score is the hash of its key, [cmp] is [keycmp]. *)
Lemma cmp_keycmp (nd : stringNode) (k : string) :
  score nd = hash (key nd) → cmp nd (hash k) k = keycmp (key nd) k.
Proof. intros E. unfold cmp, keycmp. by rewrite E. Qed.

End Order.

(** ** Chains of links *)

Section Chains.
Context {O : Oracle}.
Implicit Types (h : Heap) (p x : ptr) (l : list ptr) (its A C : list item).

Lemma loadNext_nextAt h p i v : loadNext h p i = Ret v ↔ nextAt h i p = Some v.
Proof.
  unfold loadNext, get, index, nextAt.
  destruct (h !! p) as [nd|]; simpl; [destruct (next nd !! i)|]; naive_solver.
Qed.

Lemma get_Ret h p nd : get h p = Ret nd ↔ h !! p = Some nd.
Proof. unfold get. destruct (h !! p); naive_solver. Qed.

Lemma chain_head h i x l : chain h i x l → nextAt h i x = Some (head l).
Proof. destruct l; simpl; naive_solver. Qed.

Lemma chain_suffix h i l1 : ∀ y l x l',
  y :: l = l1 ++ x :: l' → chain h i y l → chain h i x l'.
Proof.
  induction l1 as [|z l1 IH]; intros y l x l' E Hc; simplify_eq/=; [done|].
  destruct l1 as [|w l1]; simplify_eq/=.
  - by destruct Hc.
  - destruct Hc as [_ Hc]. by eapply (IH w).
Qed.

Lemma chain_frame h h' i l : ∀ x,
  (∀ q, q ∈ x :: l → nextAt h' i q = nextAt h i q) → chain h i x l → chain h' i x l.
Proof.
  induction l as [|y l IH]; intros x Hq; simpl.
  - intros <-. apply Hq. by left.
  - intros [H1 H2]. split.
    + rewrite <- H1. apply Hq. by left.
    + apply IH; [|done]. intros q Hin. apply Hq. by right.
Qed.

Lemma default_last_cons (x a : ptr) l : default x (last (a :: l)) = default a (last l).
Proof. rewrite last_cons. by destruct (last l). Qed.

Lemma chain_insert h h' i nn l2 l1 : ∀ x,
  chain h i x (l1 ++ l2) → NoDup (x :: l1 ++ l2) →
  nextAt h' i (default x (last l1)) = Some (Some nn) →
  nextAt h' i nn = Some (head l2) →
  (∀ q, q ∈ x :: l1 ++ l2 → q ≠ default x (last l1) → nextAt h' i q = nextAt h i q) →
  chain h' i x (l1 ++ nn :: l2).
Proof.
  induction l1 as [|a l1 IH]; intros x Hc Hnd Hp Hn Hq; simpl in *.
  - split; [done|]. destruct l2 as [|y l2]; simpl in *; [done|].
    split; [done|]. destruct Hc as [_ Hc]. eapply chain_frame; [|done].
    intros q Hin. apply Hq; [by right|].
    apply NoDup_cons in Hnd as [Hx _]. intros ->. done.
  - destruct Hc as [Hx Hc]. rewrite default_last_cons in Hp, Hq.
    apply NoDup_cons in Hnd as [Hx' Hnd].
    assert (default a (last l1) ∈ a :: l1) as Hin.
    { destruct (last l1) eqn:E; simpl; [|by left].
      right. by apply last_Some_elem_of. }
    split.
    + rewrite <- Hx. apply Hq; [by left|]. intros ->. apply Hx'.
      rewrite app_comm_cons. apply elem_of_app. by left.
    + apply IH; try done. intros q Hq1 Hq2. apply Hq; [by right|done].
Qed.

Lemma chain_remove h h' i d l2 l1 : ∀ x,
  chain h i x (l1 ++ d :: l2) → NoDup (x :: l1 ++ d :: l2) →
  nextAt h' i (default x (last l1)) = nextAt h i d →
  (∀ q, q ∈ x :: l1 ++ l2 → q ≠ default x (last l1) → nextAt h' i q = nextAt h i q) →
  chain h' i x (l1 ++ l2).
Proof.
  induction l1 as [|a l1 IH]; intros x Hc Hnd Hp Hq; simpl in *.
  - destruct Hc as [_ Hc]. apply NoDup_cons in Hnd as [Hx Hnd].
    destruct l2 as [|y l2]; simpl in *.
    + by rewrite Hp.
    + destruct Hc as [Hd Hc]. split; [by rewrite Hp|].
      eapply chain_frame; [|done]. intros q Hin. apply Hq; [by right|].
      intros ->. apply Hx. by right.
  - destruct Hc as [Hx Hc]. rewrite default_last_cons in Hp, Hq.
    apply NoDup_cons in Hnd as [Hx' Hnd].
    assert (default a (last l1) ∈ a :: l1) as Hin.
    { destruct (last l1) eqn:E; simpl; [|by left].
      right. by apply last_Some_elem_of. }
    split.
    + rewrite <- Hx. apply Hq; [by left|]. intros ->. apply Hx'.
      rewrite app_comm_cons. apply elem_of_app. by left.
    + apply IH; try done. intros q Hq1 Hq2. apply Hq; [by right|done].
Qed.

(** The inner loop walks over the nodes before [k] and stops. *)
Lemma advance_chain h k i r l : ∀ fuel x,
  chain h i x (l ++ r) → Forall (plt h k) l →
  (∀ s, head r = Some s → pge h k s) → List.length l ≤ fuel →
  advance fuel h (hash k) k i x (head (l ++ r)) = Ret (default x (last l), head r).
Proof.
  induction l as [|a l IH]; intros fuel x Hc Hl Hr Hf; simpl in *.
  - destruct (head r) as [s|] eqn:E.
    + destruct (Hr s eq_refl) as (nd & Hnd & Hcmp).
      destruct fuel; simpl; unfold get; rewrite Hnd; simpl;
        destruct (Z.ltb_spec (cmp nd (hash k) k) 0); done || lia.
    + by destruct fuel.
  - apply Forall_cons in Hl as [(nd & Hnd & Hcmp) Hl]. destruct Hc as [_ Hc].
    destruct fuel as [|fuel]; [lia|]. simpl. unfold get at 1. rewrite Hnd. simpl.
    destruct (Z.ltb_spec (cmp nd (hash k) k) 0); [|lia].
    rewrite (proj2 (loadNext_nextAt h a i _) (chain_head _ _ _ _ Hc)). simpl.
    rewrite IH; try done; [|lia]. by rewrite default_last_cons.
Qed.

End Chains.

(** ** The search at one level *)

Section Searching.
Context {O : Oracle}.
Implicit Types (h : Heap) (p x : ptr) (l : list ptr) (its A C : list item).

Lemma key_split_exists k its :
  StronglySorted klt (ikey <$> its) → ∃ A ok C, key_split k its A ok C.
Proof.
  induction its as [|it its IH]; intros Hs.
  - exists [], None, []. unfold key_split. by split_and!.
  - rewrite fmap_cons in Hs. apply StronglySorted_inv in Hs as [Hs Hall].
    rewrite Forall_fmap in Hall.
    destruct (klt_total (ikey it) k) as [Hlt|[Heq|Hgt]].
    + destruct (IH Hs) as (A & ok & C & -> & HA & Hok & HC).
      exists (it :: A), ok, C. unfold key_split. split_and!; try done.
      by constructor.
    + exists [], (Some it), its. unfold key_split. split_and!; try done.
      * by intros ? [= <-].
      * subst k. exact Hall.
    + exists [], None, (it :: its). unfold key_split. split_and!; try done.
      constructor; [done|]. eapply Forall_impl; [exact Hall|].
      intros x Hx. by eapply klt_trans.
Qed.

Lemma lvl_app i A C : lvl i (A ++ C) = lvl i A ++ lvl i C.
Proof. unfold lvl. by rewrite filter_app, fmap_app. Qed.

Lemma elem_of_lvl i its p :
  p ∈ lvl i its ↔ ∃ it, it ∈ its ∧ iptr it = p ∧ i < iheight it.
Proof.
  unfold lvl. rewrite list_elem_of_fmap. split.
  - intros (it & -> & [? ?]%list_elem_of_filter). eauto.
  - intros (it & ? & <- & ?). exists it. split; [done|].
    by apply list_elem_of_filter.
Qed.

Lemma lvl_mono i its p : p ∈ lvl (S i) its → p ∈ lvl i its.
Proof. rewrite !elem_of_lvl. intros (it & ? & ? & ?). exists it. repeat split; try done. lia. Qed.

Lemma length_lvl i its : List.length (lvl i its) ≤ List.length its.
Proof. unfold lvl. rewrite length_fmap. apply length_filter. Qed.

Lemma lvl_top i its h hd :
  Forall (item_ok h hd) its → maxLevel ≤ i → lvl i its = [].
Proof.
  intros Hok Hi. apply elem_of_nil_inv. intros p (it & Hin & _ & Hlt)%elem_of_lvl.
  rewrite Forall_forall in Hok. destruct (Hok it Hin) as (nd & _ & _ & _ & _ & ? & _). lia.
Qed.

Lemma lvl_sublist i its : lvl i its `sublist_of` iptr <$> its.
Proof. unfold lvl. apply fmap_sublist, sublist_filter. Qed.

Lemma predAt_elem hd i A : predAt hd i A ∈ hd :: lvl i A.
Proof.
  unfold predAt. destruct (last (lvl i A)) eqn:E; simpl; [|by left].
  right. by apply last_Some_elem_of.
Qed.

Lemma NoDup_fmap_inj_on {X Y : Type} (f : X → Y) (l : list X) (a b : X) :
  NoDup (f <$> l) → a ∈ l → b ∈ l → f a = f b → a = b.
Proof.
  induction l as [|c l IH]; intros Hnd Ha Hb E; [by apply elem_of_nil in Ha|].
  rewrite fmap_cons in Hnd. apply NoDup_cons in Hnd as [Hc Hnd].
  apply elem_of_cons in Ha as [->|Ha]; apply elem_of_cons in Hb as [->|Hb]; try done.
  - exfalso. apply Hc. rewrite E. by apply list_elem_of_fmap_2.
  - exfalso. apply Hc. rewrite <- E. by apply list_elem_of_fmap_2.
  - by apply IH.
Qed.

Lemma sorted_keys_NoDup its : StronglySorted klt (ikey <$> its) → NoDup (ikey <$> its).
Proof.
  induction (ikey <$> its) as [|a l IH]; intros Hs; [constructor|].
  apply StronglySorted_inv in Hs as [Hs Hall]. constructor; [|by apply IH].
  intros Hin. rewrite Forall_forall in Hall. by apply (klt_irrefl a), Hall.
Qed.

(** What the first node not before [k] is, on level [i]. *)
Lemma succAt_cases (C : list item) (ok : option item) (i : nat) :
  (∃ it, ok = Some it ∧ i < iheight it ∧ succAt i ok C = Some (iptr it)) ∨
  (¬ i < hk ok ∧ succAt i ok C = head (lvl i C)).
Proof.
  unfold succAt, hk. destruct ok as [it|]; simpl.
  - destruct (decide (i < iheight it)) as [Hlt|Hge].
    + left. exists it. repeat split; try done.
      unfold lvl. simpl. by rewrite filter_cons_True.
    + right. split; [done|]. unfold lvl. simpl. by rewrite filter_cons_False.
  - right. split; [lia|done].
Qed.

Section WithLinked.
#[local] Set Default Proof Using "All".
Context (st : state) (its : list item) (HL : Linked st its).
#[local] Abbreviation h := (heap st).
#[local] Abbreviation hd := (header (smap st)).

Lemma linked_item it : it ∈ its → item_ok h hd it.
Proof. intros Hin. destruct HL as [_ Hok _ _]. rewrite Forall_forall in Hok. by apply Hok. Qed.

Lemma linked_ptrs_NoDup : NoDup (hd :: (iptr <$> its)).
Proof.
  apply NoDup_cons. split.
  - intros (it & E & Hin)%list_elem_of_fmap.
    destruct (linked_item it Hin) as (nd & _ & _ & _ & _ & _ & Hne). by rewrite E in Hne.
  - pose proof (sorted_keys_NoDup its (lk_sorted _ _ HL)) as Hk.
    apply NoDup_fmap_2_strong; [|by eapply NoDup_fmap_1].
    intros a b Ha Hb E. apply (NoDup_fmap_inj_on ikey its); try done.
    destruct (linked_item a Ha) as (na & Hna & Hka & _).
    destruct (linked_item b Hb) as (nb & Hnb & Hkb & _).
    rewrite E in Hna. rewrite Hna in Hnb. simplify_eq. congruence.
Qed.

Lemma linked_lvl_NoDup i : NoDup (hd :: lvl i its).
Proof.
  pose proof linked_ptrs_NoDup as [H1 H2]%NoDup_cons.
  apply NoDup_cons. split.
  - intros Hin. apply H1. eapply elem_of_sublist; [done|apply lvl_sublist].
  - eapply sublist_NoDup; [exact H2|apply lvl_sublist].
Qed.

Lemma linked_length : S (List.length its) ≤ List.length h.
Proof.
  pose proof linked_ptrs_NoDup as Hnd.
  assert (hd :: (iptr <$> its) ⊆+ seq 0 (List.length h)) as Hs.
  { apply NoDup_submseteq; [done|]. intros p Hp. apply elem_of_seq. split; [lia|]. simpl.
    apply elem_of_cons in Hp as [->|(it & -> & Hin)%list_elem_of_fmap].
    - destruct (lk_header _ _ HL) as (hn & Hhn & _). by eapply lookup_lt_Some.
    - destruct (linked_item it Hin) as (nd & Hnd' & _). by eapply lookup_lt_Some. }
  apply submseteq_length in Hs. rewrite length_seq in Hs. simpl in Hs.
  by rewrite length_fmap in Hs.
Qed.

Context (k : string) (A C : list item) (ok : option item) (HS : key_split k its A ok C).

Lemma split_in_A it : it ∈ A → it ∈ its.
Proof. destruct HS as (-> & _). intros. apply elem_of_app. by left. Qed.
Lemma split_in_C it : it ∈ C → it ∈ its.
Proof. destruct HS as (-> & _). intros. rewrite !elem_of_app. by right; right. Qed.
Lemma split_in_ok it : ok = Some it → it ∈ its.
Proof. destruct HS as (-> & _). intros ->. rewrite !elem_of_app. right; left. by left. Qed.

Lemma split_A_plt p i : p ∈ lvl i A → plt h k p.
Proof.
  intros (it & Hin & <- & _)%elem_of_lvl.
  destruct (linked_item it (split_in_A it Hin)) as (nd & Hnd & Hk & Hsc & _).
  exists nd. split; [done|]. rewrite cmp_keycmp by congruence. rewrite Hk.
  destruct HS as (_ & HA & _). rewrite Forall_forall in HA. by apply HA.
Qed.

Lemma ok_node it : ok = Some it →
  ∃ nd, h !! iptr it = Some nd ∧ key nd = k ∧ cmp nd (hash k) k = 0%Z ∧
        List.length (next nd) = iheight it ∧ 1 ≤ iheight it ≤ maxLevel ∧ iptr it ≠ hd.
Proof.
  intros E. destruct (linked_item it (split_in_ok it E)) as (nd & Hnd & Hk & Hsc & Hh & ? & ?).
  destruct HS as (_ & _ & Hok & _). specialize (Hok it E).
  exists nd. repeat split; try done; try lia; [congruence|].
  rewrite cmp_keycmp by congruence. apply keycmp_0. congruence.
Qed.

Lemma C_node it : it ∈ C →
  ∃ nd, h !! iptr it = Some nd ∧ (0 < cmp nd (hash k) k)%Z.
Proof.
  intros Hin. destruct (linked_item it (split_in_C it Hin)) as (nd & Hnd & Hk & Hsc & _).
  exists nd. split; [done|]. rewrite cmp_keycmp by congruence. rewrite Hk.
  apply klt_flip. destruct HS as (_ & _ & _ & HC). rewrite Forall_forall in HC. by apply HC.
Qed.

Lemma succAt_pge i s : succAt i ok C = Some s → pge h k s.
Proof.
  destruct (succAt_cases C ok i) as [(it & E & Hlt & ->)|[_ ->]].
  - intros [= <-]. destruct (ok_node it E) as (nd & ? & _ & ? & _). exists nd. split; [done|lia].
  - intros Hs%head_Some_elem_of. apply elem_of_lvl in Hs as (it & Hin & <- & _).
    destruct (C_node it Hin) as (nd & ? & ?). exists nd. split; [done|lia].
Qed.

Lemma is_match_succAt i :
  is_match h (succAt i ok C) (hash k) k = Ret (bool_decide (i < hk ok)).
Proof.
  destruct (succAt_cases C ok i) as [(it & E & Hlt & ->)|[Hn ->]].
  - destruct (ok_node it E) as (nd & Hnd & _ & Hc & _). simpl. unfold get. rewrite Hnd. simpl.
    rewrite Hc. simpl. rewrite bool_decide_eq_true_2; [done|]. by rewrite E.
  - rewrite bool_decide_eq_false_2 by done.
    destruct (head (lvl i C)) as [s|] eqn:Es; [|done].
    apply head_Some_elem_of, elem_of_lvl in Es as (it & Hin & <- & _).
    destruct (C_node it Hin) as (nd & Hnd & Hc). simpl. unfold get. rewrite Hnd. simpl.
    destruct (Z.eqb_spec (cmp nd (hash k) k) 0); [lia|done].
Qed.

Lemma chain_level i : i < maxLevel →
  chain h i hd (lvl i A ++ lvl i (option_list ok ++ C)).
Proof.
  intros Hi. rewrite <- lvl_app. destruct HS as (<- & _). by apply (lk_chain _ _ HL).
Qed.

(** One level of the search: from any node of the level that is before [k],
    the walk ends between the last node before [k] and its successor. *)
Lemma level_step fuel i x :
  i < maxLevel → x ∈ hd :: lvl i A → List.length A ≤ fuel →
  ∃ s0, loadNext h x i = Ret s0 ∧
        advance fuel h (hash k) k i x s0 = Ret (predAt hd i A, succAt i ok C).
Proof.
  intros Hi Hx Hf. pose proof (chain_level i Hi) as Hc.
  apply list_elem_of_split in Hx as (l1 & l2 & E).
  assert (chain h i x (l2 ++ lvl i (option_list ok ++ C))) as Hc'.
  { eapply (chain_suffix _ _ l1); [|exact Hc].
    rewrite app_comm_cons, E. by rewrite <- app_assoc. }
  exists (head (l2 ++ lvl i (option_list ok ++ C))). split.
  { apply loadNext_nextAt. by apply chain_head. }
  assert (predAt hd i A = default x (last l2)) as ->.
  { unfold predAt. assert (last (hd :: lvl i A) = last (x :: l2)) as E2.
    { rewrite E. by rewrite last_app_cons. }
    rewrite !last_cons in E2. destruct (last (lvl i A)), (last l2); by simplify_eq/=. }
  apply advance_chain; try done.
  - apply Forall_forall. intros p Hp. apply (split_A_plt p i).
    assert (p ∈ hd :: lvl i A) as Hp' by (rewrite E; rewrite elem_of_app; right; by right).
    apply elem_of_cons in Hp' as [->|?]; [|done].
    exfalso. pose proof (linked_lvl_NoDup i) as Hnd.
    destruct HS as (Eits & _). rewrite Eits, lvl_app, app_comm_cons, E in Hnd.
    rewrite <- app_assoc in Hnd. simpl in Hnd.
    destruct l1 as [|z l1]; simplify_eq/=.
    + apply NoDup_cons in Hnd as [Hnd _]. apply Hnd. apply elem_of_app. by left.
    + apply NoDup_cons in Hnd as [Hnd _]. apply Hnd. rewrite !elem_of_app. right. right. apply elem_of_app. by left.
  - intros s. apply succAt_pge.
  - assert (List.length (hd :: lvl i A) = List.length (l1 ++ x :: l2)) as E3 by by rewrite E.
    rewrite length_app in E3. simpl in E3. pose proof (length_lvl i A). lia.
Qed.

End WithLinked.
End Searching.

(** ** The search down the levels *)

Section Descent.
Context {O : Oracle}.
Context (st : state) (its : list item) (HL : Linked st its).
Context (k : string) (A C : list item) (ok : option item) (HS : key_split k its A ok C).
#[local] Abbreviation h := (heap st).
#[local] Abbreviation hd := (header (smap st)).
#[local] Set Default Proof Using "All".

Lemma filled_0 {X : Type} (l : list X) f : filled 0 l l f.
Proof. split; [done|]. intros j. split; [lia|done]. Qed.

Lemma filled_step {X : Type} (i : nat) (l l' : list X) f :
  filled i (<[i := f i]> l) l' f → filled (S i) l l' f.
Proof.
  intros [Hlen Hj]. rewrite length_insert in Hlen. split; [done|].
  intros j. split.
  - intros Hlt Hjl. destruct (decide (j = i)) as [->|Hne].
    + rewrite (proj2 (Hj i)) by lia. by apply list_lookup_insert_eq.
    + apply (proj1 (Hj j)); [lia|]. by rewrite length_insert.
  - intros Hge. rewrite (proj2 (Hj j)) by lia. apply list_lookup_insert_ne. lia.
Qed.

Lemma descend_elem i x : x ∈ hd :: lvl (S i) A → x ∈ hd :: lvl i A.
Proof. intros [->|Hx]%elem_of_cons; [by left|right; by apply lvl_mono]. Qed.

Lemma findNodeDelete_from_spec fuel : List.length A ≤ fuel →
  ∀ n lF x preds succs, n ≤ maxLevel → x ∈ hd :: lvl n A →
  ∃ lF' preds' succs',
    findNodeDelete_from fuel h (hash k) k n lF x preds succs = Ret (lF', preds', succs') ∧
    lF' = (if (lF =? -1)%Z then (Z.of_nat (n `min` hk ok) - 1)%Z else lF) ∧
    filled n preds preds' (λ j, Some (predAt hd j A)) ∧
    filled n succs succs' (λ j, succAt j ok C).
Proof.
  intros Hf n. induction n as [|i IH]; intros lF x preds succs Hn Hx.
  - exists lF, preds, succs. simpl. split_and!; try apply filled_0; try done.
    destruct (Z.eqb_spec lF (-1)); by subst.
  - apply descend_elem in Hx.
    destruct (level_step st its HL k A C ok HS fuel i x) as (s0 & E1 & E2); [lia|done|done|].
    destruct (Z.eqb_spec lF (-1)) as [->|Hne].
    + destruct (IH (if bool_decide (i < hk ok) then Z.of_nat i else (-1)%Z)
                   (predAt hd i A) (<[i:=Some (predAt hd i A)]> preds)
                   (<[i:=succAt i ok C]> succs))
        as (lF' & preds' & succs' & E3 & -> & F1 & F2); [lia|apply predAt_elem|].
      eexists _, preds', succs'. split_and!; try by apply filled_step.
      * simpl. rewrite E1. simpl. rewrite E2. simpl.
        rewrite (is_match_succAt st its HL k A C ok HS). simpl. exact E3.
      * case_bool_decide.
        -- destruct (Z.eqb_spec (Z.of_nat i) (-1)); lia.
        -- rewrite Z.eqb_refl. lia.
    + destruct (IH lF (predAt hd i A) (<[i:=Some (predAt hd i A)]> preds)
                   (<[i:=succAt i ok C]> succs))
        as (lF' & preds' & succs' & E3 & -> & F1 & F2); [lia|apply predAt_elem|].
      eexists _, preds', succs'. split_and!; try by apply filled_step.
      * simpl. rewrite E1. simpl. rewrite E2. simpl.
        destruct (Z.eqb_spec lF (-1)); [done|]. simpl. exact E3.
      * done.
Qed.

Lemma findNode_from_absent fuel : List.length A ≤ fuel → hk ok = 0 →
  ∀ n x preds succs, n ≤ maxLevel → x ∈ hd :: lvl n A →
  ∃ preds' succs',
    findNode_from fuel h (hash k) k n x preds succs = Ret (None, preds', succs') ∧
    filled n preds preds' (λ j, Some (predAt hd j A)) ∧
    filled n succs succs' (λ j, succAt j ok C).
Proof.
  intros Hf H0 n. induction n as [|i IH]; intros x preds succs Hn Hx.
  - exists preds, succs. simpl. split_and!; try apply filled_0. done.
  - apply descend_elem in Hx.
    destruct (level_step st its HL k A C ok HS fuel i x) as (s0 & E1 & E2); [lia|done|done|].
    simpl. rewrite E1. simpl. rewrite E2. simpl.
    rewrite (is_match_succAt st its HL k A C ok HS). simpl.
    rewrite bool_decide_eq_false_2 by lia.
    destruct (IH (predAt hd i A) (<[i:=Some (predAt hd i A)]> preds)
                 (<[i:=succAt i ok C]> succs))
      as (preds' & succs' & E3 & F1 & F2); [lia|apply predAt_elem|].
    exists preds', succs'. rewrite E3. split_and!; try by apply filled_step. done.
Qed.

Lemma findNode_from_present fuel it : List.length A ≤ fuel → ok = Some it →
  ∀ n x preds succs, iheight it ≤ n ≤ maxLevel → x ∈ hd :: lvl n A →
  ∃ preds' succs',
    findNode_from fuel h (hash k) k n x preds succs = Ret (Some (iptr it), preds', succs').
Proof.
  intros Hf Hok n.
  destruct (ok_node st its HL k A C ok HS it Hok) as (nd & _ & _ & _ & _ & Hh & _).
  induction n as [|i IH]; intros x preds succs Hn Hx; [lia|].
  apply descend_elem in Hx.
  destruct (level_step st its HL k A C ok HS fuel i x) as (s0 & E1 & E2); [lia|done|done|].
  simpl. rewrite E1. simpl. rewrite E2. simpl.
  rewrite (is_match_succAt st its HL k A C ok HS). simpl.
  case_bool_decide as Hlt.
  - destruct (succAt_cases C ok i) as [(it' & E & _ & ->)|[Hn' _]]; [|done].
    simplify_eq. eauto.
  - rewrite Hok in Hlt. simpl in Hlt. apply IH; [lia|apply predAt_elem].
Qed.

Lemma Load_from_absent fuel : List.length A ≤ fuel → hk ok = 0 →
  ∀ n x, n ≤ maxLevel → x ∈ hd :: lvl n A →
  Load_from fuel h (hash k) k n x = Ret (inil, false).
Proof.
  intros Hf H0 n. induction n as [|i IH]; intros x Hn Hx; [done|].
  apply descend_elem in Hx.
  destruct (level_step st its HL k A C ok HS fuel i x) as (s0 & E1 & E2); [lia|done|done|].
  simpl. rewrite E1. simpl. rewrite E2. simpl.
  rewrite (is_match_succAt st its HL k A C ok HS). simpl.
  rewrite bool_decide_eq_false_2 by lia. apply IH; [lia|apply predAt_elem].
Qed.

Lemma Load_from_present fuel it nd : List.length A ≤ fuel → ok = Some it →
  h !! iptr it = Some nd →
  ∀ n x, iheight it ≤ n ≤ maxLevel → x ∈ hd :: lvl n A →
  Load_from fuel h (hash k) k n x =
    Ret (if bitflag_MGet (flags nd) (Z.lor fullyLinked marked) fullyLinked
         then (value nd, true) else (inil, false)).
Proof.
  intros Hf Hok Hnd n.
  destruct (ok_node st its HL k A C ok HS it Hok) as (nd' & _ & _ & _ & _ & Hh & _).
  induction n as [|i IH]; intros x Hn Hx; [lia|].
  apply descend_elem in Hx.
  destruct (level_step st its HL k A C ok HS fuel i x) as (s0 & E1 & E2); [lia|done|done|].
  simpl. rewrite E1. simpl. rewrite E2. simpl.
  rewrite (is_match_succAt st its HL k A C ok HS). simpl.
  case_bool_decide as Hlt.
  - destruct (succAt_cases C ok i) as [(it' & E & _ & ->)|[Hn' _]]; [|done].
    simplify_eq. simpl. unfold MGet, loadVal, get. rewrite Hnd. simpl.
    by destruct (bitflag_MGet _ _ _).
  - rewrite Hok in Hlt. simpl in Hlt. apply IH; [lia|apply predAt_elem].
Qed.

Lemma top_elem : hd ∈ hd :: lvl maxLevel A.
Proof. by left. Qed.

End Descent.

(** ** Fields of nodes, and what a write leaves alone *)

Section Views.
Context {O : Oracle}.
Implicit Types (h : Heap) (p q n : ptr) (nd : stringNode).

Lemma fld_Some {X : Type} (π : stringNode → X) h q x :
  fld π h q = Some x ↔ ∃ nd, h !! q = Some nd ∧ π nd = x.
Proof. unfold fld. destruct (h !! q); naive_solver. Qed.

Lemma fld_insert {X : Type} (π : stringNode → X) h n nd' q :
  n < List.length h →
  fld π (<[n := nd']> h) q = if decide (q = n) then Some (π nd') else fld π h q.
Proof.
  intros Hn. unfold fld. case_decide as E.
  - subst q. by rewrite list_lookup_insert_eq.
  - by rewrite list_lookup_insert_ne.
Qed.

Lemma eqv_insert {X : Type} (π : stringNode → X) h n nd nd' :
  h !! n = Some nd → π nd' = π nd → eqv π h (<[n := nd']> h).
Proof.
  intros Hn E q. rewrite fld_insert by by eapply lookup_lt_Some.
  case_decide; [|done]. subst q. unfold fld. rewrite Hn. simpl. by rewrite E.
Qed.

Lemma eqv_refl {X : Type} (π : stringNode → X) h : eqv π h h.
Proof. done. Qed.

Lemma eqv_trans {X : Type} (π : stringNode → X) h1 h2 h3 :
  eqv π h1 h2 → eqv π h2 h3 → eqv π h1 h3.
Proof. intros H1 H2 q. by rewrite H2, H1. Qed.

Lemma frame_mu_refl h : frame_mu h h.
Proof. by repeat split. Qed.

Lemma frame_mu_trans h1 h2 h3 : frame_mu h1 h2 → frame_mu h2 h3 → frame_mu h1 h3.
Proof.
  intros (?&?&?&?) (?&?&?&?). split_and!; by eapply eqv_trans.
Qed.

Lemma frame_next_refl h : frame_next h h.
Proof. by repeat split. Qed.

Lemma frame_next_trans h1 h2 h3 : frame_next h1 h2 → frame_next h2 h3 → frame_next h1 h3.
Proof.
  intros (?&?&?&?) (?&?&?&?). split_and!; by eapply eqv_trans.
Qed.

Lemma nextAt_fld h i q : nextAt h i q = fld next h q ≫= λ l, l !! i.
Proof. unfold nextAt, fld. by destruct (h !! q). Qed.

Lemma eqv_next_nextAt h h' i q : eqv next h h' → nextAt h' i q = nextAt h i q.
Proof. intros E. by rewrite !nextAt_fld, E. Qed.

Lemma hgt_static h h' q : eqv static h h' → hgt h' q = hgt h q.
Proof.
  intros E. specialize (E q). unfold hgt, fld, static in *.
  destruct (h !! q), (h' !! q); simplify_eq/=; done.
Qed.

Lemma hgt_lookup h q nd : h !! q = Some nd → hgt h q = List.length (next nd).
Proof. intros E. unfold hgt, fld. by rewrite E. Qed.

Lemma hgt_pos_lookup h q i : i < hgt h q → ∃ nd, h !! q = Some nd ∧ i < List.length (next nd).
Proof. unfold hgt, fld. destruct (h !! q) as [nd|]; simpl; [eauto|lia]. Qed.

Lemma eqv_length {X : Type} (π : stringNode → X) h h' :
  eqv π h h' → List.length h' = List.length h.
Proof.
  intros E.
  assert (∀ q, q < List.length h' ↔ q < List.length h) as Hq.
  { intros q. specialize (E q). unfold fld in E. rewrite <- !lookup_lt_is_Some.
    destruct (h !! q) eqn:E1, (h' !! q) eqn:E2; simpl in E; try discriminate;
      split; intros [? ?]; try discriminate; by eexists. }
  pose proof (Hq (List.length h)). pose proof (Hq (List.length h')). lia.
Qed.

(** *** The node methods, on an allocated node *)

Lemma storeNext_spec h n i v : i < hgt h n →
  ∃ h', storeNext h n i v = Ret h' ∧ frame_next h h' ∧
        ∀ j q, nextAt h' j q = if decide (q = n ∧ j = i) then Some v else nextAt h j q.
Proof.
  intros Hi. apply hgt_pos_lookup in Hi as (nd & Hnd & Hi).
  unfold storeNext, get. rewrite Hnd. simpl. case_decide; [|lia].
  eexists. split; [done|]. split.
  - split_and!; eapply eqv_insert; try done.
    unfold static. simpl. by rewrite length_insert.
  - intros j q. unfold nextAt. case_decide as E.
    + destruct E as [-> ->]. rewrite list_lookup_insert_eq by by eapply lookup_lt_Some.
      simpl. by apply list_lookup_insert_eq.
    + destruct (decide (q = n)) as [->|Hne].
      * rewrite list_lookup_insert_eq by by eapply lookup_lt_Some. rewrite Hnd. simpl.
        apply list_lookup_insert_ne. naive_solver.
      * by rewrite list_lookup_insert_ne.
Qed.

Lemma Lock_spec h n : fld mu h n = Some false →
  ∃ h', Lock h n = Ret h' ∧ frame_mu h h' ∧
        ∀ q, fld mu h' q = if decide (q = n) then Some true else fld mu h q.
Proof.
  intros (nd & Hnd & Hmu)%fld_Some. unfold Lock, get. rewrite Hnd. simpl. rewrite Hmu.
  eexists. split; [done|]. split.
  - split_and!; by eapply eqv_insert.
  - intros q. apply fld_insert. by eapply lookup_lt_Some.
Qed.

Lemma Unlock_spec h n : fld mu h n = Some true →
  ∃ h', Unlock h n = Ret h' ∧ frame_mu h h' ∧
        ∀ q, fld mu h' q = if decide (q = n) then Some false else fld mu h q.
Proof.
  intros (nd & Hnd & Hmu)%fld_Some. unfold Unlock, get. rewrite Hnd. simpl. rewrite Hmu.
  eexists. split; [done|]. split.
  - split_and!; by eapply eqv_insert.
  - intros q. apply fld_insert. by eapply lookup_lt_Some.
Qed.

Lemma SetTrue_spec h n f0 f : fld flags h n = Some f0 →
  ∃ h', SetTrue h n f = Ret h' ∧
        eqv static h h' ∧ eqv value h h' ∧ eqv mu h h' ∧ eqv next h h' ∧
        ∀ q, fld flags h' q = if decide (q = n) then Some (bitflag_SetTrue f0 f)
                              else fld flags h q.
Proof.
  intros (nd & Hnd & Hf)%fld_Some. unfold SetTrue, get. rewrite Hnd. simpl.
  eexists. split; [done|]. split_and!; try by eapply eqv_insert.
  intros q. rewrite fld_insert by by eapply lookup_lt_Some. simpl. by rewrite Hf.
Qed.

Lemma Get_spec h n f0 f : fld flags h n = Some f0 → Get h n f = Ret (bitflag_Get f0 f).
Proof. intros (nd & Hnd & Hf)%fld_Some. unfold Get, get. rewrite Hnd. simpl. by rewrite Hf. Qed.

Lemma MGet_spec h n f0 c e : fld flags h n = Some f0 → MGet h n c e = Ret (bitflag_MGet f0 c e).
Proof. intros (nd & Hnd & Hf)%fld_Some. unfold MGet, get. rewrite Hnd. simpl. by rewrite Hf. Qed.

Lemma loadVal_spec h n v : fld value h n = Some v → loadVal h n = Ret v.
Proof. intros (nd & Hnd & Hf)%fld_Some. unfold loadVal, get. rewrite Hnd. simpl. by rewrite Hf. Qed.

(** Allocation leaves the old addresses alone. *)
Lemma fld_alloc_old {X : Type} (π : stringNode → X) h nd q :
  q < List.length h → fld π (h ++ [nd]) q = fld π h q.
Proof. intros Hq. unfold fld. by rewrite lookup_app_l. Qed.

Lemma fld_alloc_new {X : Type} (π : stringNode → X) h nd :
  fld π (h ++ [nd]) (List.length h) = Some (π nd).
Proof. unfold fld. by rewrite list_lookup_middle. Qed.

Lemma fld_None {X : Type} (π : stringNode → X) h q :
  List.length h ≤ q → fld π h q = None.
Proof. intros Hq. unfold fld. by rewrite lookup_ge_None_2. Qed.

Lemma fld_lt {X : Type} (π : stringNode → X) h q x :
  fld π h q = Some x → q < List.length h.
Proof. intros (nd & Hnd & _)%fld_Some. by eapply lookup_lt_Some. Qed.

End Views.

(** ** Locking and unlocking the predecessors *)

Section Locks.
Context {O : Oracle}.
Implicit Types (h : Heap) (p q : ptr) (g : list ptr).

Lemma contig_take g m : contig g → contig (take m g).
Proof.
  intros Hc i m' j p Hm Hi Hj.
  apply lookup_take_Some in Hi as [Hi ?]. apply lookup_take_Some in Hj as [Hj ?].
  apply lookup_take_Some. split; [by eapply Hc|lia].
Qed.

Lemma elem_of_take_S g m p q :
  g !! m = Some p → q ∈ take (S m) g ↔ q ∈ take m g ∨ q = p.
Proof.
  intros Hm. rewrite (take_S_r _ _ _ Hm), elem_of_app, list_elem_of_singleton. done.
Qed.

(** The locking loop on predecessors [g] that pass the validity test: every
    distinct predecessor is locked once and the loop ends valid. *)
Lemma lockPreds_spec validAt (preds succs : Links) g h0 :
  contig g →
  (∀ j p, g !! j = Some p → preds !! j = Some (Some p) ∧ is_Some (succs !! j)) →
  (∀ p, p ∈ g → fld mu h0 p = Some false) →
  (∀ h' j p s, frame_mu h0 h' → g !! j = Some p → succs !! j = Some s →
               validAt h' (Some p) s j = Ret true) →
  ∀ n layer h prev hl,
    layer + n = List.length g →
    frame_mu h0 h →
    (∀ q, fld mu h q = if decide (q ∈ take layer g) then Some true else fld mu h0 q) →
    prev = match layer with 0 => None | S l => g !! l end →
    hl_ok g layer hl →
    ∃ h1 hl1,
      lockPreds validAt n h preds succs layer prev hl true = Ret (h1, hl1, true) ∧
      frame_mu h0 h1 ∧
      (∀ q, fld mu h1 q = if decide (q ∈ g) then Some true else fld mu h0 q) ∧
      hl_ok g (List.length g) hl1.
Proof.
  intros Hc Hg Hmu0 Hvalid n.
  induction n as [|n IH]; intros layer h prev hl Hlen Hfr Hmu Hprev Hhl.
  - exists h, hl. simpl. assert (layer = List.length g) as El by lia. subst layer.
    split_and!; try done. intros q. rewrite Hmu. by rewrite take_ge.
  - destruct (lookup_lt_is_Some_2 g layer) as [p Hp]; [lia|].
    destruct (Hg layer p Hp) as [Hpl [s Hs]].
    simpl. unfold index. rewrite Hpl, Hs. simpl.
    destruct (decide (Some p = prev)) as [E|Hne].
    + simpl. rewrite (Hvalid h layer p s Hfr Hp Hs). simpl.
      destruct layer as [|l]; [by subst prev|]. subst prev.
      apply (IH (S (S l))); try done; try lia.
      * intros q. rewrite Hmu. apply decide_ext.
        rewrite (elem_of_take_S g (S l) p q Hp). split; [by left|].
        intros [?| ->]; [done|]. apply elem_of_take. exists l. split; [done|lia].
      * destruct Hhl as [[? _]|(t & -> & Ht & Hj)]; [lia|]. right.
        exists t. split_and!; [done|lia|]. intros j Hjr.
        destruct (decide (j = S l)) as [->|]; [|apply Hj; lia].
        rewrite Hp, E. apply Hj. lia.
    + assert (p ∉ take layer g) as Hnin.
      { intros (j & Hj & Hlt)%elem_of_take. apply Hne.
        destruct layer as [|l]; [lia|]. subst prev. symmetry.
        apply (Hc j l (S l) p); [lia|done|done]. }
      destruct (Lock_spec h p) as (h1 & E1 & Hfr1 & Hmu1).
      { rewrite Hmu, decide_False by done. apply Hmu0. by eapply list_elem_of_lookup_2. }
      rewrite E1. simpl.
      assert (frame_mu h0 h1) as Hfr' by by eapply frame_mu_trans.
      rewrite (Hvalid h1 layer p s Hfr' Hp Hs). simpl.
      apply (IH (S layer)); try done; try lia.
      * intros q. rewrite Hmu1, Hmu. rewrite (decide_ext _ _ _ _ (elem_of_take_S g layer p q Hp)).
        repeat case_decide; naive_solver.
      * right. exists layer. split_and!; [done|lia|]. intros j Hjr.
        assert (j = layer) as Ej by lia. by subst j.
Qed.

(** The unlocking loop, downwards from level [n - 1]. *)
Lemma unlock_from_spec (preds : Links) g h0 :
  contig g →
  (∀ j p, g !! j = Some p → preds !! j = Some (Some p)) →
  (∀ p, p ∈ g → fld mu h0 p = Some true) →
  ∀ n h prev,
    n ≤ List.length g →
    frame_mu h0 h →
    (∀ q, fld mu h q = if decide (q ∈ drop n g) then Some false else fld mu h0 q) →
    prev = g !! n →
    ∃ h1, unlock_from n h preds prev = Ret h1 ∧ frame_mu h0 h1 ∧
          ∀ q, fld mu h1 q = if decide (q ∈ g) then Some false else fld mu h0 q.
Proof.
  intros Hc Hg Hmu0 n.
  induction n as [|n IH]; intros h prev Hlen Hfr Hmu Hprev.
  - exists h. simpl. split_and!; try done.
  - destruct (lookup_lt_is_Some_2 g n) as [p Hp]; [lia|].
    assert (∀ q, q ∈ drop n g ↔ q = p ∨ q ∈ drop (S n) g) as Hdrop.
    { intros q. rewrite (drop_S _ _ _ Hp). apply elem_of_cons. }
    simpl. unfold index. rewrite (Hg n p Hp). simpl.
    destruct (decide (Some p = prev)) as [E|Hne].
    + apply IH; try done; try lia; [|congruence].
      intros q. rewrite Hmu. apply decide_ext. rewrite Hdrop. split; [by right|].
      intros [-> |?]; [|done]. subst prev. apply list_elem_of_lookup. exists 0.
      rewrite lookup_drop. by rewrite Nat.add_0_r.
    + assert (p ∉ drop (S n) g) as Hnin.
      { intros (j & Hj)%list_elem_of_lookup. rewrite lookup_drop in Hj. apply Hne.
        subst prev. symmetry. apply (Hc n (S n) (S n + j) p); [lia|done|done]. }
      destruct (Unlock_spec h p) as (h1 & E1 & Hfr1 & Hmu1).
      { rewrite Hmu, decide_False by done. apply Hmu0. by eapply list_elem_of_lookup_2. }
      simpl. rewrite E1. simpl.
      apply IH; try done; try lia; [by eapply frame_mu_trans|].
      intros q. rewrite Hmu1, Hmu. rewrite (decide_ext _ _ _ _ (Hdrop q)).
      repeat case_decide; naive_solver.
Qed.

(** [unlockString] undoes what the locking loop did. *)
Lemma unlockString_spec (preds : Links) g h hl :
  contig g →
  (∀ j p, g !! j = Some p → preds !! j = Some (Some p)) →
  (∀ p, p ∈ g → fld mu h p = Some true) →
  hl_ok g (List.length g) hl →
  ∃ h1, unlockString h preds hl = Ret h1 ∧ frame_mu h h1 ∧
        ∀ q, fld mu h1 q = if decide (q ∈ g) then Some false else fld mu h q.
Proof.
  intros Hc Hg Hmu [[Hlen ->]|(t & -> & Ht & Hj)].
  - exists h. destruct g; [|done]. split_and!; try done; apply frame_mu_refl.
  - unfold unlockString. replace (Z.to_nat (Z.of_nat t + 1)) with (S t) by lia.
    assert (∀ q, q ∈ take (S t) g ↔ q ∈ g) as Hel.
    { intros q. split.
      - intros (j & ? & _)%elem_of_take. by eapply list_elem_of_lookup_2.
      - intros (j & Hq)%list_elem_of_lookup. apply elem_of_take.
        destruct (decide (j ≤ t)); [exists j; split; [done|lia]|].
        exists t. split; [|lia]. rewrite <- Hq. symmetry. apply Hj.
        apply lookup_lt_Some in Hq. lia. }
    destruct (unlock_from_spec preds (take (S t) g) h) with (n := S t) (h := h) (prev := @None ptr)
      as (h1 & E & Hfr & Hmu1).
    + by apply contig_take.
    + intros j p [? _]%lookup_take_Some. by apply Hg.
    + intros p Hp. apply Hmu. by apply Hel.
    + rewrite length_take. lia.
    + apply frame_mu_refl.
    + intros q. rewrite drop_ge by (rewrite length_take; lia).
      rewrite decide_False; [done|]. apply not_elem_of_nil.
    + symmetry. apply lookup_ge_None_2. rewrite length_take. lia.
    + exists h1. split_and!; try done. intros q. rewrite Hmu1. apply decide_ext, Hel.
Qed.

End Locks.

(** ** Linking and unlinking a node *)

Section Links.
Context {O : Oracle}.
Implicit Types (h : Heap) (p q : ptr) (g : list ptr) (A : list item).

Lemma predAt_snoc hd i A it :
  predAt hd i (A ++ [it]) = if decide (i < iheight it) then iptr it else predAt hd i A.
Proof.
  unfold predAt. rewrite lvl_app. unfold lvl at 2. simpl.
  case_decide.
  - rewrite filter_cons_True by done. simpl. by rewrite last_snoc.
  - rewrite filter_cons_False by done. simpl. by rewrite app_nil_r.
Qed.

Lemma predAt_elem_ptrs hd i A : predAt hd i A ∈ hd :: (iptr <$> A).
Proof.
  pose proof (predAt_elem hd i A) as [->|H]%elem_of_cons; [by left|right].
  eapply elem_of_sublist; [done|apply lvl_sublist].
Qed.

Lemma predAt_contig hd A i m j :
  NoDup (hd :: (iptr <$> A)) → i ≤ m ≤ j →
  predAt hd i A = predAt hd j A → predAt hd m A = predAt hd i A.
Proof.
  induction A as [|it A IH] using rev_ind; intros Hnd Hm; [done|].
  rewrite fmap_app, app_comm_cons in Hnd. apply NoDup_app in Hnd as (Hnd & Hnin & _).
  assert (iptr it ∉ hd :: (iptr <$> A)) as Hit.
  { intros Hin. apply (Hnin _ Hin). simpl. by left. }
  rewrite !predAt_snoc. repeat case_decide; try lia; try done.
  - intros E. exfalso. apply Hit. rewrite E. apply predAt_elem_ptrs.
  - by apply IH.
Qed.

Lemma predsOf_lookup hd A n j p :
  predsOf hd A n !! j = Some p ↔ j < n ∧ p = predAt hd j A.
Proof.
  unfold predsOf. rewrite list_lookup_fmap. split.
  - intros Hj. destruct (seq 0 n !! j) as [x|] eqn:E; simplify_eq/=.
    apply lookup_seq in E as [-> ?]. done.
  - intros [Hj ->]. by rewrite lookup_seq_lt.
Qed.

Lemma length_predsOf hd A n : List.length (predsOf hd A n) = n.
Proof. unfold predsOf. by rewrite length_fmap, length_seq. Qed.

Lemma contig_predsOf hd A n : NoDup (hd :: (iptr <$> A)) → contig (predsOf hd A n).
Proof.
  intros Hnd i m j p Hm [Hi ->]%predsOf_lookup [Hj E]%predsOf_lookup.
  apply predsOf_lookup. split; [lia|]. symmetry. by apply predAt_contig with j.
Qed.

Lemma elem_of_predsOf hd A n p : p ∈ predsOf hd A n → p ∈ hd :: (iptr <$> A).
Proof.
  intros (j & [_ ->]%predsOf_lookup)%list_elem_of_lookup. apply predAt_elem_ptrs.
Qed.

(** The loop that links the new node [nn] in, level by level. *)
Lemma linkLoop_spec (preds succs : Links) nn (P : nat → ptr) (Sc : nat → option ptr) :
  ∀ n h layer,
  (∀ j, layer ≤ j < layer + n →
        preds !! j = Some (Some (P j)) ∧ succs !! j = Some (Sc j) ∧
        P j ≠ nn ∧ j < hgt h (P j)) →
  layer + n ≤ hgt h nn →
  ∃ h', linkLoop n h preds succs nn layer = Ret h' ∧ frame_next h h' ∧
    ∀ i q, nextAt h' i q =
      if decide (layer ≤ i < layer + n)
      then (if decide (q = P i) then Some (Some nn)
            else if decide (q = nn) then Some (Sc i) else nextAt h i q)
      else nextAt h i q.
Proof.
  induction n as [|n IH]; intros h layer Hj Hnn.
  - exists h. simpl. split_and!; [done|apply frame_next_refl|].
    intros i q. rewrite decide_False; [done|lia].
  - destruct (Hj layer) as (Hp & Hs & Hne & Hh); [lia|].
    destruct (storeNext_spec h nn layer (Sc layer)) as (h1 & E1 & F1 & N1); [lia|].
    destruct (storeNext_spec h1 (P layer) layer (Some nn)) as (h2 & E2 & F2 & N2).
    { rewrite (hgt_static h h1); [done|apply F1]. }
    assert (frame_next h h2) as F12 by by eapply frame_next_trans.
    destruct (IH h2 (S layer)) as (h' & E3 & F3 & N3).
    { intros j Hjr. destruct (Hj j) as (? & ? & ? & ?); [lia|]. split_and!; try done.
      rewrite (hgt_static h h2); [done|apply F12]. }
    { rewrite (hgt_static h h2); [lia|apply F12]. }
    exists h'. simpl. unfold index. rewrite Hs. simpl. rewrite E1. simpl.
    rewrite Hp. simpl. rewrite E2. simpl. split_and!; [done|by eapply frame_next_trans|].
    intros i q. rewrite N3, N2, N1.
    destruct (decide (i = layer)) as [->|Hil].
    + cases_decide; try done; exfalso; intuition congruence.
    + cases_decide; try done; exfalso; intuition congruence.
Qed.

(** The loop that takes the node [d] out, from its top level down. *)
Lemma unlinkLoop_spec (preds : Links) d (P : nat → ptr) :
  ∀ n h,
  (∀ j, j < n → preds !! j = Some (Some (P j)) ∧ P j ≠ d ∧ j < hgt h (P j)) →
  n ≤ hgt h d →
  ∃ h', unlinkLoop n h preds d = Ret h' ∧ frame_next h h' ∧
    ∀ i q, nextAt h' i q =
      if decide (i < n ∧ q = P i) then nextAt h i d else nextAt h i q.
Proof.
  induction n as [|n IH]; intros h Hj Hd.
  - exists h. split_and!; [done|apply frame_next_refl|].
    intros i q. destruct (decide (i < 0 ∧ q = P i)) as [[? _]|]; [lia|done].
  - destruct (Hj n) as (Hp & Hne & Hh); [lia|].
    destruct (hgt_pos_lookup h d n) as (nd & Hnd & Hlt); [lia|].
    destruct (lookup_lt_is_Some_2 (next nd) n Hlt) as [nx Hnx].
    destruct (storeNext_spec h (P n) n nx) as (h1 & E1 & F1 & N1); [done|].
    destruct (IH h1) as (h' & E3 & F3 & N3).
    { intros j Hjr. destruct (Hj j) as (? & ? & ?); [lia|]. split_and!; try done.
      rewrite (hgt_static h h1); [done|apply F1]. }
    { rewrite (hgt_static h h1); [lia|apply F1]. }
    exists h'. simpl. unfold get, index. rewrite Hnd. simpl. rewrite Hnx. simpl.
    rewrite Hp. simpl. rewrite E1. simpl. split_and!; [done|by eapply frame_next_trans|].
    intros i q. rewrite N3, !N1.
    assert (nextAt h n d = Some nx) as Hnext by (unfold nextAt; by rewrite Hnd).
    destruct (decide (i = n)) as [->|Hin].
    + cases_decide; try done; try congruence; exfalso; intuition congruence.
    + cases_decide; try done; try congruence; exfalso; intuition (congruence || lia).
Qed.

End Links.

(** ** The write phases of insertion and deletion *)

Section Phases.
Context {O : Oracle}.
Implicit Types (h : Heap) (p q : ptr) (g : list ptr) (A : list item).

Lemma seq_fmap_lookup (P : nat → ptr) n j p :
  (P <$> seq 0 n) !! j = Some p ↔ j < n ∧ p = P j.
Proof.
  rewrite list_lookup_fmap. split.
  - intros Hj. destruct (seq 0 n !! j) as [x|] eqn:E; simplify_eq/=.
    apply lookup_seq in E as [-> ?]. done.
  - intros [Hj ->]. by rewrite lookup_seq_lt.
Qed.

Lemma seq_fmap_elem (P : nat → ptr) n p :
  p ∈ P <$> seq 0 n ↔ ∃ j, j < n ∧ p = P j.
Proof.
  rewrite list_elem_of_lookup. split.
  - intros (j & Hj%seq_fmap_lookup). eauto.
  - intros (j & Hj). exists j. by apply seq_fmap_lookup.
Qed.

Lemma validStore_ok h (P : nat → ptr) (Sc : nat → option ptr) j :
  fld flags h (P j) = Some fullyLinked →
  (∀ s, Sc j = Some s → fld flags h s = Some fullyLinked) →
  nextAt h j (P j) = Some (Sc j) →
  validStore h (Some (P j)) (Sc j) j = Ret true.
Proof.
  intros Hp Hs Hn. unfold validStore. simpl. rewrite (Get_spec _ _ _ _ Hp). simpl.
  destruct (Sc j) as [s|] eqn:E.
  - rewrite (Get_spec _ _ _ _ (Hs s eq_refl)). simpl.
    rewrite (proj2 (loadNext_nextAt _ _ _ _) Hn). simpl. by rewrite bool_decide_eq_true_2.
  - simpl. by rewrite (proj2 (loadNext_nextAt _ _ _ _) Hn).
Qed.

Lemma validDelete_ok h (P : nat → ptr) (s : option ptr) j :
  fld flags h (P j) = Some fullyLinked →
  nextAt h j (P j) = Some s →
  validDelete h (Some (P j)) s j = Ret true.
Proof.
  intros Hp Hn. unfold validDelete. simpl. rewrite (Get_spec _ _ _ _ Hp). simpl.
  rewrite (proj2 (loadNext_nextAt _ _ _ _) Hn). simpl. by rewrite bool_decide_eq_true_2.
Qed.

(** The structural path of [Store] on the heap: lock the predecessors,
    allocate, link, publish, unlock. *)
Lemma insert_phase h0 (preds succs : Links) (P : nat → ptr) (Sc : nat → option ptr)
    k v level :
  contig (P <$> seq 0 level) →
  (∀ j, j < level → preds !! j = Some (Some (P j)) ∧ succs !! j = Some (Sc j)) →
  (∀ j, j < level →
        fld mu h0 (P j) = Some false ∧ fld flags h0 (P j) = Some fullyLinked ∧
        j < hgt h0 (P j) ∧ nextAt h0 j (P j) = Some (Sc j)) →
  (∀ j s, j < level → Sc j = Some s → fld flags h0 s = Some fullyLinked) →
  ∃ h1 hl h3 h4 h5,
    lockPreds validStore level h0 preds succs 0 None (-1)%Z true = Ret (h1, hl, true) ∧
    List.length h1 = List.length h0 ∧
    linkLoop level (h1 ++ [newStringNode k v level]) preds succs (List.length h0) 0
      = Ret h3 ∧
    SetTrue h3 (List.length h0) fullyLinked = Ret h4 ∧
    unlockString h4 preds hl = Ret h5 ∧
    List.length h5 = S (List.length h0) ∧
    (∀ q, q < List.length h0 →
          fld static h5 q = fld static h0 q ∧ fld flags h5 q = fld flags h0 q ∧
          fld value h5 q = fld value h0 q ∧ fld mu h5 q = fld mu h0 q ∧
          ∀ i, nextAt h5 i q = if decide (i < level ∧ q = P i) then Some (Some (List.length h0))
                               else nextAt h0 i q) ∧
    fld static h5 (List.length h0) = Some (k, hash k, level) ∧
    fld flags h5 (List.length h0) = Some fullyLinked ∧
    fld mu h5 (List.length h0) = Some false ∧
    fld value h5 (List.length h0) = Some v ∧
    (∀ i, i < level → nextAt h5 i (List.length h0) = Some (Sc i)).
Proof.
  intros Hc Hps Hp Hs.
  set (g := P <$> seq 0 level). set (nn := List.length h0).
  assert (∀ j, j < level → P j < nn) as Hlt.
  { intros j Hj. destruct (Hp j Hj) as (Hmu & _). by apply fld_lt in Hmu. }
  (* lock *)
  destruct (lockPreds_spec validStore preds succs g h0) with
    (n := level) (layer := 0) (h := h0) (prev := @None ptr) (hl := (-1)%Z)
    as (h1 & hl & E1 & F1 & M1 & Hhl).
  { exact Hc. }
  { intros j p [Hj ->]%seq_fmap_lookup. destruct (Hps j Hj) as [-> ->]. eauto. }
  { intros p (j & Hj & ->)%seq_fmap_elem. by destruct (Hp j Hj). }
  { intros h' j p s (Fs & Ff & Fv & Fn) [Hj ->]%seq_fmap_lookup Hsj.
    destruct (Hps j Hj) as [_ Hsc]. rewrite Hsc in Hsj. injection Hsj as <-.
    destruct (Hp j Hj) as (_ & Hfl & _ & Hnx).
    apply validStore_ok.
    - by rewrite Ff.
    - intros s Es. rewrite Ff. by eapply Hs.
    - by rewrite (eqv_next_nextAt h0 h'). }
  { unfold g. by rewrite length_fmap, length_seq. }
  { apply frame_mu_refl. }
  { intros q. destruct (decide (q ∈ take 0 g)) as [Hin|]; [|done].
    simpl in Hin. by apply elem_of_nil in Hin. }
  { done. }
  { by left. }
  destruct F1 as (Fs1 & Ff1 & Fv1 & Fn1).
  assert (List.length h1 = nn) as Hl1 by by eapply eqv_length.
  (* allocate *)
  set (h2 := h1 ++ [newStringNode k v level]).
  assert (∀ {X} (π : stringNode → X) q, q < nn → fld π h2 q = fld π h1 q) as Hold.
  { intros X π q Hq. apply fld_alloc_old. lia. }
  assert (∀ {X} (π : stringNode → X), fld π h2 nn = Some (π (newStringNode k v level))) as Hnew.
  { intros X π. rewrite <- Hl1. apply fld_alloc_new. }
  (* link *)
  destruct (linkLoop_spec preds succs nn P Sc level h2 0) as (h3 & E3 & F3 & N3).
  { intros j Hj. destruct (Hps j) as [? ?]; [lia|]. destruct (Hp j) as (_ & _ & Hh & _); [lia|].
    specialize (Hlt j ltac:(lia)). split_and!; try done; [lia|].
    unfold hgt in *. rewrite Hold by done.
    assert (fld (λ nd, List.length (next nd)) h1 (P j) = fld (λ nd, List.length (next nd)) h0 (P j)) as ->; [|done].
    specialize (Fn1 (P j)). unfold fld in *. destruct (h1 !! P j), (h0 !! P j); simplify_eq/=; congruence. }
  { unfold hgt. rewrite Hnew. simpl. by rewrite length_replicate. }
  destruct F3 as (Fs3 & Ff3 & Fv3 & Fm3).
  (* publish *)
  destruct (SetTrue_spec h3 nn 0 fullyLinked) as (h4 & E4 & Fs4 & Fv4 & Fm4 & Fn4 & Ff4).
  { by rewrite Ff3, Hnew. }
  (* unlock *)
  destruct (unlockString_spec preds g h4 hl) as (h5 & E5 & (Fs5 & Ff5 & Fv5 & Fn5) & M5).
  { exact Hc. }
  { intros j p [Hj ->]%seq_fmap_lookup. by destruct (Hps j Hj). }
  { intros p Hpg. rewrite Fm4, Fm3. pose proof Hpg as (j & Hj & ->)%seq_fmap_elem.
    rewrite Hold by by apply Hlt. rewrite M1. by rewrite decide_True. }
  { unfold g in Hhl |- *. by rewrite length_fmap, length_seq in Hhl |- *. }
  exists h1, hl, h3, h4, h5. split_and!; try done.
  - erewrite (eqv_length static h4 h5), (eqv_length static h3 h4), (eqv_length static h2 h3) by done.
    unfold h2. rewrite length_app. simpl. lia.
  - intros q Hq. split_and!.
    + by rewrite Fs5, Fs4, Fs3, Hold, Fs1.
    + rewrite Ff5, Ff4, decide_False by lia. by rewrite Ff3, Hold, Ff1.
    + by rewrite Fv5, Fv4, Fv3, Hold, Fv1.
    + rewrite M5, Fm4, Fm3, Hold, M1 by done.
      destruct (decide (q ∈ g)) as [(j & Hj & ->)%seq_fmap_elem|]; [|done].
      symmetry. by destruct (Hp j Hj).
    + intros i. rewrite (eqv_next_nextAt h4 h5), (eqv_next_nextAt h3 h4), N3 by done.
      assert (nextAt h2 i q = nextAt h0 i q) as ->.
      { rewrite !nextAt_fld, Hold by done. by rewrite Fn1. }
      destruct (decide (i < level ∧ q = P i)) as [[? ->]|Hn].
      * rewrite decide_True by lia. by rewrite decide_True.
      * destruct (decide (0 ≤ i < 0 + level)); [|done].
        rewrite decide_False by (intros ->; apply Hn; split; [lia|done]).
        rewrite decide_False by lia. done.
  - rewrite Fs5, Fs4, Fs3, Hnew. unfold static. simpl. by rewrite length_replicate.
  - rewrite Ff5, Ff4. by rewrite decide_True.
  - rewrite M5, Fm4, Fm3, Hnew.
    rewrite decide_False; [done|]. intros (j & Hj & E)%seq_fmap_elem.
    specialize (Hlt j Hj). lia.
  - by rewrite Fv5, Fv4, Fv3, Hnew.
  - intros i Hi. rewrite (eqv_next_nextAt h4 h5), (eqv_next_nextAt h3 h4), N3 by done.
    rewrite decide_True by lia. rewrite decide_False by (specialize (Hlt i Hi); lia).
    by rewrite decide_True.
Qed.


(** The deletion of the node [d] on the heap: lock and mark it, lock its
    predecessors, unlink it, unlock. *)
Lemma delete_phase h0 (preds succs : Links) (P : nat → ptr) d n v0 :
  contig (P <$> seq 0 n) →
  (∀ j, j < n → preds !! j = Some (Some (P j)) ∧ succs !! j = Some (Some d)) →
  (∀ j, j < n →
        P j ≠ d ∧ fld mu h0 (P j) = Some false ∧ fld flags h0 (P j) = Some fullyLinked ∧
        j < hgt h0 (P j) ∧ nextAt h0 j (P j) = Some (Some d)) →
  fld mu h0 d = Some false → fld flags h0 d = Some fullyLinked →
  hgt h0 d = n → fld value h0 d = Some v0 →
  ∃ h1 h2 h3 hl h4 h5 h6,
    Lock h0 d = Ret h1 ∧ Get h1 d marked = Ret false ∧ SetTrue h1 d marked = Ret h2 ∧
    lockPreds validDelete n h2 preds succs 0 None (-1)%Z true = Ret (h3, hl, true) ∧
    unlinkLoop n h3 preds d = Ret h4 ∧
    Unlock h4 d = Ret h5 ∧
    unlockString h5 preds hl = Ret h6 ∧
    loadVal h6 d = Ret v0 ∧
    List.length h6 = List.length h0 ∧
    (∀ q, fld static h6 q = fld static h0 q ∧ fld value h6 q = fld value h0 q ∧
          fld mu h6 q = fld mu h0 q ∧
          fld flags h6 q = (if decide (q = d)
                            then Some (bitflag_SetTrue fullyLinked marked)
                            else fld flags h0 q) ∧
          ∀ i, nextAt h6 i q = if decide (i < n ∧ q = P i) then nextAt h0 i d
                               else nextAt h0 i q).
Proof.
  intros Hc Hps Hp Hmud Hfld Hhd Hvd.
  set (g := P <$> seq 0 n).
  assert (d ∉ g) as Hdg.
  { intros (j & Hj & ->)%seq_fmap_elem. by destruct (Hp j Hj). }
  destruct (Lock_spec h0 d Hmud) as (h1 & E1 & (Fs1 & Ff1 & Fv1 & Fn1) & M1).
  destruct (SetTrue_spec h1 d fullyLinked marked) as (h2 & E2 & Fs2 & Fv2 & Fm2 & Fn2 & Ff2).
  { by rewrite Ff1. }
  (* lock the predecessors *)
  destruct (lockPreds_spec validDelete preds succs g h2) with
    (n := n) (layer := 0) (h := h2) (prev := @None ptr) (hl := (-1)%Z)
    as (h3 & hl & E3 & F3 & M3 & Hhl).
  { exact Hc. }
  { intros j p [Hj ->]%seq_fmap_lookup. destruct (Hps j Hj) as [-> ->]. eauto. }
  { intros p (j & Hj & ->)%seq_fmap_elem. destruct (Hp j Hj) as (Hne & Hmu & _).
    rewrite Fm2, M1. by rewrite decide_False. }
  { intros h' j p s (Fs & Ff & Fv & Fn) [Hj ->]%seq_fmap_lookup Hsj.
    destruct (Hps j Hj) as [_ Hsc]. rewrite Hsc in Hsj. injection Hsj as <-.
    destruct (Hp j Hj) as (Hne & _ & Hfl & _ & Hnx).
    apply validDelete_ok.
    - rewrite Ff, Ff2, decide_False by done. by rewrite Ff1.
    - by rewrite (eqv_next_nextAt h2 h'), (eqv_next_nextAt h1 h2), (eqv_next_nextAt h0 h1). }
  { unfold g. by rewrite length_fmap, length_seq. }
  { apply frame_mu_refl. }
  { intros q. destruct (decide (q ∈ take 0 g)) as [Hin|]; [|done].
    simpl in Hin. by apply elem_of_nil in Hin. }
  { done. }
  { by left. }
  destruct F3 as (Fs3 & Ff3 & Fv3 & Fn3).
  assert (∀ q, hgt h3 q = hgt h0 q) as Hh3.
  { intros q. by rewrite (hgt_static h2 h3), (hgt_static h1 h2), (hgt_static h0 h1). }
  (* unlink *)
  destruct (unlinkLoop_spec preds d P n h3) as (h4 & E4 & (Fs4 & Ff4 & Fv4 & Fm4) & N4).
  { intros j Hj. destruct (Hps j Hj) as [? _]. destruct (Hp j Hj) as (? & _ & _ & ? & _).
    split_and!; try done. by rewrite Hh3. }
  { rewrite Hh3. lia. }
  (* unlock the node, then its predecessors *)
  destruct (Unlock_spec h4 d) as (h5 & E5 & (Fs5 & Ff5 & Fv5 & Fn5) & M5).
  { rewrite Fm4, M3, decide_False by done. rewrite Fm2, M1. by rewrite decide_True. }
  destruct (unlockString_spec preds g h5 hl) as (h6 & E6 & (Fs6 & Ff6 & Fv6 & Fn6) & M6).
  { exact Hc. }
  { intros j p [Hj ->]%seq_fmap_lookup. by destruct (Hps j Hj). }
  { intros p Hpg. rewrite M5, decide_False by (by intros ->).
    rewrite Fm4, M3. by rewrite decide_True. }
  { unfold g in Hhl |- *. by rewrite length_fmap, length_seq in Hhl |- *. }
  exists h1, h2, h3, hl, h4, h5, h6. split_and!; try done.
  - erewrite Get_spec by (by rewrite Ff1). done.
  - apply loadVal_spec. by rewrite Fv6, Fv5, Fv4, Fv3, Fv2, Fv1.
  - by rewrite (eqv_length static h5 h6), (eqv_length static h4 h5),
      (eqv_length static h3 h4), (eqv_length static h2 h3), (eqv_length static h1 h2),
      (eqv_length static h0 h1).
  - intros q. split_and!.
    + by rewrite Fs6, Fs5, Fs4, Fs3, Fs2, Fs1.
    + by rewrite Fv6, Fv5, Fv4, Fv3, Fv2, Fv1.
    + rewrite M6, M5, Fm4, M3, Fm2, M1.
      destruct (decide (q ∈ g)) as [(j & Hj & ->)%seq_fmap_elem|].
      * symmetry. by destruct (Hp j Hj) as (_ & ? & _).
      * destruct (decide (q = d)) as [->|]; done.
    + rewrite Ff6, Ff5, Ff4, Ff3, Ff2. by rewrite Ff1.
    + intros i.
      rewrite (eqv_next_nextAt h5 h6), (eqv_next_nextAt h4 h5), N4 by done.
      rewrite !(eqv_next_nextAt h2 h3), !(eqv_next_nextAt h1 h2), !(eqv_next_nextAt h0 h1) by done.
      done.
Qed.

End Phases.

(** ** Load, and Store on a key in the list *)

Section Ops.
Context {O : Oracle}.
Implicit Types (h : Heap) (p q : ptr) (g : list ptr) (A C its : list item).

Lemma wrap64_add a b : wrap64 (wrap64 a + b) = wrap64 (a + b).
Proof.
  unfold wrap64.
  replace ((a + 2 ^ 63) mod 2 ^ 64 - 2 ^ 63 + b + 2 ^ 63)%Z
    with ((a + 2 ^ 63) mod 2 ^ 64 + b)%Z by lia.
  rewrite Zplus_mod_idemp_l. do 2 f_equal. lia.
Qed.

Lemma wrap64_small a : (- 2 ^ 63 ≤ a < 2 ^ 63)%Z → wrap64 a = a.
Proof. intros Ha. unfold wrap64. rewrite Z.mod_small; lia. Qed.

Lemma bitflag_Get_rest : bitflag_Get fullyLinked marked = false.
Proof. done. Qed.

Lemma bitflag_MGet_rest :
  bitflag_MGet fullyLinked (Z.lor fullyLinked marked) fullyLinked = true.
Proof. done. Qed.

(** A marked node is never visible. *)
Lemma bitflag_marked_hidden f :
  bitflag_Get f marked = true →
  bitflag_MGet f (Z.lor fullyLinked marked) fullyLinked = false.
Proof.
  unfold bitflag_Get, bitflag_MGet, fullyLinked, marked. intros H.
  apply negb_true_iff, Z.eqb_neq in H. apply Z.eqb_neq. intros E. apply H.
  change (Z.lor 1 2) with 3%Z in E.
  replace (Z.land f 2) with (Z.land (Z.land f 3) 2).
  - by rewrite E.
  - by rewrite <- Z.land_assoc.
Qed.

Lemma at_rest_fld h q :
  at_rest h q ↔ fld flags h q = Some fullyLinked ∧ fld mu h q = Some false.
Proof.
  unfold at_rest, fld. split.
  - intros (nd & -> & <- & <-). done.
  - destruct (h !! q) as [nd|]; simpl; [|by intros [? ?]].
    intros [[= ?] [= ?]]. eauto.
Qed.

Lemma item_ok_static h h' hd it :
  fld static h' (iptr it) = fld static h (iptr it) → item_ok h hd it → item_ok h' hd it.
Proof.
  intros E (nd & Hnd & ? & ? & ? & ? & ?). unfold fld in E. rewrite Hnd in E.
  destruct (h' !! iptr it) as [nd'|] eqn:E'; [|done]. simpl in E.
  unfold static in E. injection E as E1 E2 E3.
  exists nd'. split_and!; try done; try lia; congruence.
Qed.

Lemma chain_last_next h i l2 l1 : ∀ x,
  chain h i x (l1 ++ l2) → nextAt h i (default x (last l1)) = Some (head l2).
Proof.
  induction l1 as [|a l1 IH]; intros x Hc; simpl in *.
  - by apply chain_head.
  - destruct Hc as [_ Hc]. rewrite default_last_cons. by apply IH.
Qed.

Lemma lvl_all its h hd : Forall (item_ok h hd) its → lvl 0 its = iptr <$> its.
Proof.
  intros Hok. unfold lvl. f_equal. induction Hok as [|it its Hit _ IH]; [done|].
  rewrite filter_cons_True; [by rewrite IH|].
  destruct Hit as (_ & _ & _ & _ & _ & ? & _). lia.
Qed.

Lemma key_split_present k its A ok C :
  key_split k its A ok C → k ∈ ikey <$> its ↔ is_Some ok.
Proof.
  intros (-> & HA & Hok & HC). rewrite !fmap_app, !elem_of_app. split.
  - intros [Hin|[Hin|Hin]].
    + apply list_elem_of_fmap in Hin as (it & -> & Hin).
      rewrite Forall_forall in HA. by destruct (klt_irrefl _ (HA it Hin)).
    + destruct ok; [by eexists|]. by apply elem_of_nil in Hin.
    + apply list_elem_of_fmap in Hin as (it & -> & Hin).
      rewrite Forall_forall in HC. by destruct (klt_irrefl _ (HC it Hin)).
  - intros [it ->]. right. left. simpl. rewrite (Hok it eq_refl). by left.
Qed.

Section WithLinked.
Context (st : state) (its : list item) (HL : Linked st its).
Context (k : string) (A C : list item) (ok : option item) (HS : key_split k its A ok C).
#[local] Abbreviation h := (heap st).
#[local] Abbreviation hd := (header (smap st)).
#[local] Set Default Proof Using "All".

Lemma split_A_NoDup : NoDup (hd :: (iptr <$> A)).
Proof.
  pose proof (linked_ptrs_NoDup st its HL) as Hnd. destruct HS as (E & _).
  rewrite E, fmap_app, app_comm_cons in Hnd. by apply NoDup_app in Hnd as (? & _).
Qed.

Lemma pred_succ_link i : i < maxLevel →
  nextAt h i (predAt hd i A) = Some (succAt i ok C).
Proof.
  intros Hi. apply chain_last_next. by apply (chain_level st its HL k A C ok HS).
Qed.

Lemma predAt_its i : predAt hd i A ∈ hd :: (iptr <$> its).
Proof.
  pose proof (predAt_elem_ptrs hd i A) as [->|H]%elem_of_cons; [by left|right].
  destruct HS as (-> & _). rewrite fmap_app. apply elem_of_app. by left.
Qed.

Lemma predAt_hgt i : i < maxLevel → i < hgt h (predAt hd i A).
Proof.
  intros Hi. pose proof (predAt_elem hd i A) as [->|Hin]%elem_of_cons.
  - destruct (lk_header _ _ HL) as (hn & Hhn & Hlen).
    injection Hlen as _ _ Hlen. by rewrite (hgt_lookup _ _ _ Hhn), Hlen.
  - apply elem_of_lvl in Hin as (it & Hin & <- & Hlt).
    destruct (linked_item st its HL it (split_in_A st its HL k A C ok HS it Hin))
      as (nd & Hnd & _ & _ & Hlen & _).
    by rewrite (hgt_lookup _ _ _ Hnd), Hlen.
Qed.

Lemma predAt_ne_ok i it : ok = Some it → predAt hd i A ≠ iptr it.
Proof.
  intros -> E. pose proof (linked_ptrs_NoDup st its HL) as Hnd. destruct HS as (Eits & _).
  rewrite Eits, fmap_app, app_comm_cons in Hnd. apply NoDup_app in Hnd as (_ & Hnd & _).
  apply (Hnd (predAt hd i A)); [apply predAt_elem_ptrs|].
  rewrite E, fmap_app. apply elem_of_app. left. simpl. by left.
Qed.

Lemma succAt_its i s : succAt i ok C = Some s → s ∈ iptr <$> its.
Proof.
  intros Hs%head_Some_elem_of. destruct HS as (-> & _).
  rewrite fmap_app. apply elem_of_app. right.
  eapply elem_of_sublist; [done|apply lvl_sublist].
Qed.

(** *** Load *)

Lemma Load_linked fuel : List.length A ≤ fuel →
  Load fuel st k =
    Ret (match ok with
         | Some it =>
             match h !! iptr it with
             | Some nd =>
                 if bitflag_MGet (flags nd) (Z.lor fullyLinked marked) fullyLinked
                 then (value nd, true) else (inil, false)
             | None => (inil, false)
             end
         | None => (inil, false)
         end).
Proof.
  intros Hf. unfold Load. destruct ok as [it|] eqn:Eok.
  - destruct (ok_node st its HL k A C _ HS it eq_refl) as (nd & Hnd & _ & _ & _ & Hh & _).
    rewrite Hnd.
    apply (Load_from_present st its HL k A C _ HS fuel it nd); try done; [lia|by left].
  - apply (Load_from_absent st its HL k A C _ HS fuel); try done. by left.
Qed.

(** *** Store on a key that has a node *)

Lemma Store_loop_present fuel retries v level (preds succs : Links) it nd :
  List.length A ≤ fuel → ok = Some it → h !! iptr it = Some nd →
  bitflag_Get (flags nd) marked = false →
  Store_loop (S retries) fuel st k v level preds succs =
    Ret (set_heap st (<[iptr it := with_value v nd]> h)).
Proof.
  intros Hf Hok Hnd Hm.
  destruct (ok_node st its HL k A C _ HS it Hok) as (nd' & _ & _ & _ & _ & Hh & _).
  destruct (findNode_from_present st its HL k A C ok HS fuel it Hf Hok maxLevel hd preds succs)
    as (preds' & succs' & E); [lia|by left|].
  simpl. unfold findNode. rewrite E. simpl.
  unfold Get, get. rewrite Hnd. simpl. rewrite Hm. simpl.
  unfold storeVal, get. by rewrite Hnd.
Qed.

End WithLinked.
End Ops.

(** ** Store of a new key *)

Section StoreNew.
Context {O : Oracle}.
Implicit Types (h : Heap) (p q : ptr) (g : list ptr) (A C its : list item).

Lemma filled_lookup {X : Type} (n : nat) (l l' : list X) f j :
  filled n l l' f → j < n → n ≤ List.length l → l' !! j = Some (f j).
Proof. intros [_ H] ? ?. apply (proj1 (H j)); lia. Qed.

Lemma inv_at_rest st its q :
  Inv st its → q ∈ header (smap st) :: (iptr <$> its) →
  fld flags (heap st) q = Some fullyLinked ∧ fld mu (heap st) q = Some false.
Proof.
  intros [_ Hr _] Hq. rewrite Forall_forall in Hr. by apply at_rest_fld, Hr.
Qed.

Lemma linked_ptr_lt st its q :
  Linked st its → q ∈ header (smap st) :: (iptr <$> its) → q < List.length (heap st).
Proof.
  intros HL [->|(it & -> & Hin)%list_elem_of_fmap]%elem_of_cons.
  - destruct (lk_header _ _ HL) as (hn & Hhn & _). by eapply lookup_lt_Some.
  - destruct (linked_item st its HL it Hin) as (nd & Hnd & _). by eapply lookup_lt_Some.
Qed.

Lemma key_split_new k A C it :
  Forall (λ it', klt (ikey it') k) A → Forall (λ it', klt k (ikey it')) C → ikey it = k →
  key_split k (A ++ it :: C) A (Some it) C.
Proof. intros HA HC Hk. unfold key_split. split_and!; try done. by intros ? [= <-]. Qed.

Lemma sorted_insert k A C it :
  StronglySorted klt (ikey <$> (A ++ C)) →
  Forall (λ it', klt (ikey it') k) A → Forall (λ it', klt k (ikey it')) C → ikey it = k →
  StronglySorted klt (ikey <$> (A ++ it :: C)).
Proof.
  intros Hs HA HC Hk. rewrite fmap_app in Hs. apply StronglySorted_app in Hs as (HAC & HsA & HsC).
  rewrite fmap_app, fmap_cons. apply StronglySorted_app. split_and!; try done.
  - intros x1 x2 (a & -> & Ha)%list_elem_of_fmap [-> |Hx2]%elem_of_cons.
    + rewrite Hk. rewrite Forall_forall in HA. by apply HA.
    + apply HAC; [|done]. by apply list_elem_of_fmap_2.
  - constructor; [done|]. rewrite Hk. apply Forall_fmap. exact HC.
Qed.

Lemma sorted_remove A C it :
  StronglySorted klt (ikey <$> (A ++ it :: C)) → StronglySorted klt (ikey <$> (A ++ C)).
Proof.
  rewrite !fmap_app, fmap_cons. intros (HAC & HsA & HsC)%StronglySorted_app.
  apply StronglySorted_inv in HsC as [HsC _].
  apply StronglySorted_app. split_and!; try done.
  intros x1 x2 H1 H2. apply HAC; [done|]. by right.
Qed.

Lemma lvl_cons i it its :
  lvl i (it :: its) = if decide (i < iheight it) then iptr it :: lvl i its else lvl i its.
Proof.
  unfold lvl. case_decide.
  - by rewrite filter_cons_True.
  - by rewrite filter_cons_False.
Qed.

(** The first turn of the loop of [Store] on a key that has no node: the
    node is linked in, and the loop goes on in a list at rest. *)
Lemma Store_loop_insert st its k v level A C fuel retries (preds succs : Links) :
  Inv st its → key_split k its A None C → 1 ≤ level ≤ maxLevel →
  List.length A ≤ fuel → List.length preds = maxLevel → List.length succs = maxLevel →
  ∃ h' nd' preds' succs',
    let st' := mkState h' (mkStringMap (header (smap st)) (AddInt64 (length (smap st)) 1)) in
    let nn := List.length (heap st) in
    Store_loop (S retries) fuel st k v level preds succs
      = Store_loop retries fuel st' k v level preds' succs' ∧
    Inv st' (A ++ mkItem nn k level :: C) ∧
    h' !! nn = Some nd' ∧ value nd' = v ∧
    List.length h' = S (List.length (heap st)) ∧
    (∀ q, q < List.length (heap st) → fld value h' q = fld value (heap st) q).
Proof.
  intros HI HS Hlev Hf Hlp Hls. pose proof (inv_linked _ _ HI) as HL.
  set (h0 := heap st). set (hd := header (smap st)).
  set (P := λ j, predAt hd j A). set (Sc := λ j, succAt j None C).
  assert (its = A ++ C) as Eits by (by destruct HS as (-> & _)).
  destruct (findNode_from_absent st its HL k A C None HS fuel Hf eq_refl maxLevel hd preds succs)
    as (preds' & succs' & E0 & Fp & Fs); [lia|by left|].
  fold h0 in E0.
  assert (∀ q, q ∈ hd :: (iptr <$> its) → q < List.length h0) as Hlt.
  { intros q Hq. exact (linked_ptr_lt st its q HL Hq). }
  destruct (insert_phase h0 preds' succs' P Sc k v level)
    as (h1 & hl & h3 & h4 & h5 & E1 & Hl1 & E3 & E4 & E5 & Hl5 & Hold & Hns & Hnf & Hnm & Hnv & Hnn).
  { apply (contig_predsOf hd A level). apply (split_A_NoDup st its HL k A C None HS). }
  { intros j Hj. split.
    - apply (filled_lookup maxLevel preds preds' _ j Fp); lia.
    - apply (filled_lookup maxLevel succs succs' _ j Fs); lia. }
  { intros j Hj.
    destruct (inv_at_rest st its (P j) HI) as [Hfl Hmu];
      [apply (predAt_its st its HL k A C None HS)|].
    split_and!; try done.
    - apply (predAt_hgt st its HL k A C None HS). lia.
    - apply (pred_succ_link st its HL k A C None HS). lia. }
  { intros j s Hj Hs. apply (inv_at_rest st its s HI). right.
    by apply (succAt_its st its HL k A C None HS j). }
  set (nn := List.length h0) in *.
  assert (∃ nd', h5 !! nn = Some nd' ∧ value nd' = v) as (nd' & Hnd' & Hv').
  { by apply fld_Some in Hnv. }
  exists h5, nd', preds', succs'. split_and!; try done.
  - simpl. unfold findNode. fold h0 hd. rewrite E0. simpl. rewrite E1. simpl.
    unfold alloc. rewrite Hl1. fold nn. rewrite E3. simpl. rewrite E4. simpl. by rewrite E5.
  - assert (hd < nn) as Hhd by (apply Hlt; by left).
    split; simpl.
    + (* the structure *)
      split; simpl; fold hd.
      * destruct (lk_header _ _ HL) as (hn & Hhn & Hlen). fold h0 hd in Hhn.
        destruct (Hold hd Hhd) as (Hst & _). unfold fld in Hst. rewrite Hhn in Hst.
        destruct (h5 !! hd) as [hn'|]; [|done].
        change (Some (static hn') = Some (static hn)) in Hst.
        exists hn'. split; [done|congruence].
      * rewrite Forall_app, Forall_cons.
        pose proof (lk_items _ _ HL) as Hit. fold h0 hd in Hit.
        rewrite Eits, Forall_app in Hit. destruct Hit as [HA HC].
        assert (∀ l, Forall (item_ok h0 hd) l → (∀ it, it ∈ l → it ∈ its) →
                     Forall (item_ok h5 hd) l) as Htr.
        { intros l Hl Hin. apply Forall_forall. intros it Hi. rewrite Forall_forall in Hl.
          apply (item_ok_static h0); [|by apply Hl].
          apply Hold, Hlt. right. apply list_elem_of_fmap_2. by apply Hin. }
        split_and!.
        -- apply Htr; [done|]. intros it Hi. rewrite Eits. apply elem_of_app. by left.
        -- apply fld_Some in Hns as (nd & Hnd & Hst). unfold static in Hst.
           injection Hst as ? ? ?. exists nd. simpl. split_and!; try done; lia.
        -- apply Htr; [done|]. intros it Hi. rewrite Eits. apply elem_of_app. by right.
      * destruct HS as (_ & HA & _ & HC). apply (sorted_insert k); try done.
        rewrite <- Eits. apply (lk_sorted _ _ HL).
      * intros i Hi. rewrite lvl_app, lvl_cons. simpl.
        pose proof (chain_level st its HL k A C None HS i Hi) as Hc. simpl in Hc.
        fold h0 hd in Hc.
        pose proof (linked_lvl_NoDup st its HL i) as Hnd. fold hd in Hnd.
        rewrite Eits, lvl_app in Hnd.
        assert (∀ q, q ∈ hd :: lvl i A ++ lvl i C → q < nn) as Hq.
        { intros q Hq. apply Hlt. apply elem_of_cons in Hq as [->|Hq]; [by left|right].
          rewrite Eits, <- lvl_app in *. eapply elem_of_sublist; [done|apply lvl_sublist]. }
        case_decide as Hil.
        -- apply (chain_insert h0); try done;
             change (default hd (last (lvl i A))) with (P i).
           ++ destruct (Hold (P i)) as (_ & _ & _ & _ & Hnx).
              { apply Hlt. apply (predAt_its st its HL k A C None HS). }
              rewrite (Hnx i). by rewrite decide_True.
           ++ by apply Hnn.
           ++ intros q Hqin Hne. destruct (Hold q (Hq q Hqin)) as (_ & _ & _ & _ & Hnx).
              rewrite (Hnx i). rewrite decide_False; [done|]. by intros [_ ->].
        -- apply (chain_frame h0); [|done]. intros q Hqin.
           destruct (Hold q (Hq q Hqin)) as (_ & _ & _ & _ & Hnx).
           rewrite (Hnx i). rewrite decide_False; [done|]. by intros [? _].
    + (* at rest *)
      fold hd. rewrite fmap_app, fmap_cons. simpl.
      pose proof (inv_rest _ _ HI) as Hr. fold h0 hd in Hr. rewrite Eits, fmap_app in Hr.
      assert (∀ q, q ∈ hd :: (iptr <$> its) → at_rest h0 q → at_rest h5 q) as Htr.
      { intros q Hq [Hfl Hmu]%at_rest_fld. apply at_rest_fld.
        destruct (Hold q (Hlt q Hq)) as (_ & -> & _ & -> & _). done. }
      apply Forall_cons in Hr as [Hr1 Hr]. apply Forall_app in Hr as [HrA HrC].
      rewrite Forall_cons, Forall_app, Forall_cons. split_and!.
      * apply Htr; [by left|done].
      * apply Forall_forall. intros q Hq. rewrite Forall_forall in HrA.
        apply Htr; [|by apply HrA]. right.
        rewrite Eits, fmap_app. apply elem_of_app. by left.
      * by apply at_rest_fld.
      * apply Forall_forall. intros q Hq. rewrite Forall_forall in HrC.
        apply Htr; [|by apply HrC]. right.
        rewrite Eits, fmap_app. apply elem_of_app. by right.
    + (* the counter *)
      rewrite (inv_length _ _ HI). unfold AddInt64. rewrite wrap64_add. f_equal.
      rewrite Eits, !length_app. simpl. lia.
  - intros q Hq. by destruct (Hold q Hq) as (_ & _ & ? & _).
Qed.

End StoreNew.

(** ** LoadAndDelete and Delete *)

Section DeleteOps.
Context {O : Oracle}.
Implicit Types (h : Heap) (p q : ptr) (g : list ptr) (A C its : list item).

Lemma succAt_ok j it C : j < iheight it → succAt j (Some it) C = Some (iptr it).
Proof. intros Hj. unfold succAt. simpl. rewrite lvl_cons. by rewrite decide_True. Qed.

Lemma succAt_above j it C : ¬ j < iheight it → succAt j (Some it) C = head (lvl j C).
Proof. intros Hj. unfold succAt. simpl. rewrite lvl_cons. by rewrite decide_False. Qed.

(** The structure depends on keys, scores, heights and links only. *)
Lemma Linked_frame h h' sm its :
  eqv static h h' → eqv next h h' →
  Linked (mkState h sm) its → Linked (mkState h' sm) its.
Proof.
  intros Fs Fn [Hh Hit Hso Hch]. simpl in *. split; simpl; try done.
  - destruct Hh as (hn & Hhn & Hlen). specialize (Fs (header sm)). unfold fld in Fs.
    rewrite Hhn in Fs. destruct (h' !! header sm) as [hn'|]; [|done].
    change (Some (static hn') = Some (static hn)) in Fs.
    exists hn'. split; [done|congruence].
  - eapply Forall_impl; [exact Hit|]. intros it. apply item_ok_static. apply Fs.
  - intros i Hi. apply (chain_frame h); [|by apply Hch].
    intros q _. by apply eqv_next_nextAt.
Qed.

Lemma Inv_frame h h' sm its :
  eqv static h h' → eqv next h h' → eqv flags h h' → eqv mu h h' →
  Inv (mkState h sm) its → Inv (mkState h' sm) its.
Proof.
  intros Fs Fn Ff Fm [HL Hr Hlen]. split; simpl in *; try done.
  - by apply (Linked_frame h).
  - eapply Forall_impl; [exact Hr|]. intros q [? ?]%at_rest_fld. apply at_rest_fld.
    by rewrite Ff, Fm.
Qed.

(** [LoadAndDelete] on a key whose node is at rest. *)
Lemma LoadAndDelete_loop_present st its k A C it fuel retries (preds succs : Links) :
  Inv st its → key_split k its A (Some it) C →
  List.length A ≤ fuel → List.length preds = maxLevel → List.length succs = maxLevel →
  ∃ h' v0,
    let st' := mkState h' (mkStringMap (header (smap st)) (AddInt64 (length (smap st)) (-1))) in
    LoadAndDelete_loop (S retries) fuel st k None false (-1)%Z preds succs
      = Ret (v0, true, st') ∧
    Inv st' (A ++ C) ∧
    fld value (heap st) (iptr it) = Some v0 ∧
    List.length h' = List.length (heap st) ∧
    (∀ q, fld value h' q = fld value (heap st) q).
Proof.
  intros HI HS Hf Hlp Hls. pose proof (inv_linked _ _ HI) as HL.
  set (h0 := heap st). set (hd := header (smap st)).
  set (P := λ j, predAt hd j A). set (d := iptr it). set (n := iheight it).
  assert (its = A ++ it :: C) as Eits by (by destruct HS as (-> & _)).
  destruct (ok_node st its HL k A C _ HS it eq_refl) as (nd & Hnd & Hk & _ & Hlen & Hn & Hdh).
  fold h0 d n hd in Hnd, Hlen, Hn, Hdh.
  destruct (findNodeDelete_from_spec st its HL k A C _ HS fuel Hf maxLevel (-1)%Z hd preds succs)
    as (lF & preds' & succs' & E0 & ElF & Fp & Fs); [lia|by left|].
  fold h0 hd in E0. simpl in ElF. fold n in ElF.
  rewrite Nat.min_r in ElF by lia.
  assert (Z.to_nat lF = n - 1 ∧ Z.to_nat (lF + 1) = n ∧ (lF =? -1)%Z = false) as (El1 & El2 & El3).
  { subst lF. split_and!; try lia; apply Z.eqb_neq; lia. }
  assert (d ∈ hd :: (iptr <$> its)) as Hdin.
  { right. apply list_elem_of_fmap_2. rewrite Eits. apply elem_of_app. right. by left. }
  destruct (inv_at_rest st its d HI Hdin) as [Hdf Hdm]. fold h0 in Hdf, Hdm.
  destruct (delete_phase h0 preds' succs' P d n (value nd))
    as (h1 & h2 & h3 & hl & h4 & h5 & h6 & E1 & E2 & E3 & E4 & E5 & E6 & E7 & E8 & Hl6 & Hq).
  { apply (contig_predsOf hd A n). apply (split_A_NoDup st its HL k A C _ HS). }
  { intros j Hj. split.
    - apply (filled_lookup maxLevel preds preds' _ j Fp); lia.
    - rewrite (filled_lookup maxLevel succs succs' _ j Fs) by lia.
      by rewrite succAt_ok. }
  { intros j Hj.
    destruct (inv_at_rest st its (P j) HI) as [Hfl Hmu];
      [apply (predAt_its st its HL k A C _ HS)|].
    split_and!; try done.
    - by apply (predAt_ne_ok st its HL k A C _ HS).
    - apply (predAt_hgt st its HL k A C _ HS). lia.
    - unfold P. rewrite (pred_succ_link st its HL k A C _ HS) by lia.
      by rewrite succAt_ok. }
  { done. }
  { done. }
  { by rewrite (hgt_lookup _ _ _ Hnd). }
  { unfold fld. by rewrite Hnd. }
  exists h6, (value nd). split_and!; try done.
  - simpl. unfold findNodeDelete. fold h0 hd. rewrite E0. simpl.
    unfold deletable. simpl. rewrite El3. unfold index. rewrite El1.
    rewrite (filled_lookup maxLevel succs succs' _ (n - 1) Fs) by lia.
    rewrite succAt_ok by (fold n; lia). simpl. fold d.
    rewrite (MGet_spec _ _ _ _ _ Hdf). rewrite bitflag_MGet_rest. simpl.
    unfold get. rewrite Hnd. simpl. rewrite Hlen.
    replace (Z.of_nat n - 1 =? lF)%Z with true by (symmetry; apply Z.eqb_eq; lia).
    simpl. unfold markNode. simpl. unfold index. rewrite El1.
    rewrite (filled_lookup maxLevel succs succs' _ (n - 1) Fs) by lia.
    rewrite succAt_ok by (fold n; lia). simpl. fold d.
    rewrite E1. simpl. rewrite E2. simpl. rewrite E3. simpl.
    rewrite El2, E4. simpl. rewrite E5. simpl. rewrite E6. simpl. rewrite E7. simpl.
    by rewrite E8.
  - split; simpl.
    + (* the structure *)
      split; simpl; fold hd.
      * destruct (lk_header _ _ HL) as (hn & Hhn & Hlenh). fold h0 hd in Hhn.
        destruct (Hq hd) as (Hst & _). unfold fld in Hst. rewrite Hhn in Hst.
        destruct (h6 !! hd) as [hn'|]; [|done].
        change (Some (static hn') = Some (static hn)) in Hst.
        exists hn'. split; [done|congruence].
      * pose proof (lk_items _ _ HL) as Hit. fold h0 hd in Hit.
        rewrite Eits, Forall_app, Forall_cons in Hit. destruct Hit as (HA & _ & HC).
        rewrite Forall_app. split.
        -- eapply Forall_impl; [exact HA|]. intros x. apply item_ok_static. apply Hq.
        -- eapply Forall_impl; [exact HC|]. intros x. apply item_ok_static. apply Hq.
      * apply (sorted_remove A C it). rewrite <- Eits. apply (lk_sorted _ _ HL).
      * intros i Hi. rewrite lvl_app.
        pose proof (chain_level st its HL k A C _ HS i Hi) as Hc. simpl in Hc.
        fold h0 hd in Hc. rewrite lvl_cons in Hc.
        pose proof (linked_lvl_NoDup st its HL i) as Hnd'. fold hd in Hnd'.
        rewrite Eits, lvl_app, lvl_cons in Hnd'. fold n d in Hc, Hnd'.
        destruct (decide (i < n)) as [Hil|Hil].
        -- apply (chain_remove h0 h6 i d); try done;
             change (default hd (last (lvl i A))) with (P i).
           ++ destruct (Hq (P i)) as (_ & _ & _ & _ & Hnx). rewrite (Hnx i).
              by rewrite decide_True.
           ++ intros q Hqin Hne. destruct (Hq q) as (_ & _ & _ & _ & Hnx).
              rewrite (Hnx i). rewrite decide_False; [done|]. by intros [_ ->].
        -- apply (chain_frame h0); [|done]. intros q Hqin.
           destruct (Hq q) as (_ & _ & _ & _ & Hnx).
           rewrite (Hnx i). rewrite decide_False; [done|]. by intros [? _].
    + (* at rest *)
      fold hd. pose proof (inv_rest _ _ HI) as Hr. fold h0 hd in Hr.
      pose proof (linked_ptrs_NoDup st its HL) as Hnd'. fold hd in Hnd'.
      rewrite Eits, fmap_app, fmap_cons in Hr, Hnd'. fold d in Hr, Hnd'.
      apply Forall_forall. intros q Hqin. rewrite Forall_forall in Hr.
      assert (q ≠ d) as Hqd.
      { intros ->. rewrite app_comm_cons in Hnd'.
        apply NoDup_app in Hnd' as (_ & Hnd' & Hnd2).
        rewrite fmap_app, app_comm_cons in Hqin. apply elem_of_app in Hqin as [Hqin|Hqin].
        - apply (Hnd' d Hqin). by left.
        - apply NoDup_cons in Hnd2 as [Hnd2 _]. done. }
      assert (at_rest h0 q) as [Hfl Hmu]%at_rest_fld.
      { apply Hr. rewrite fmap_app, app_comm_cons in Hqin. rewrite app_comm_cons.
        apply elem_of_app in Hqin as [?|?]; apply elem_of_app; [by left|right; by right]. }
      apply at_rest_fld. destruct (Hq q) as (_ & _ & -> & -> & _).
      by rewrite decide_False.
    + (* the counter *)
      rewrite (inv_length _ _ HI). unfold AddInt64. rewrite wrap64_add. f_equal.
      rewrite Eits, !length_app. simpl. lia.
  - unfold fld. by rewrite Hnd.
  - intros q. by destruct (Hq q) as (_ & ? & _).
Qed.

(** [LoadAndDelete] on a key with no node, or whose node is not visible:
    nothing is written. *)
Lemma LoadAndDelete_loop_hidden st its k A C ok fuel retries (preds succs : Links) :
  Linked st its → key_split k its A ok C →
  (∀ it nd, ok = Some it → heap st !! iptr it = Some nd →
            bitflag_MGet (flags nd) (Z.lor fullyLinked marked) fullyLinked = false) →
  List.length A ≤ fuel → List.length preds = maxLevel → List.length succs = maxLevel →
  LoadAndDelete_loop (S retries) fuel st k None false (-1)%Z preds succs
    = Ret (inil, false, st).
Proof.
  intros HL HS Hhid Hf Hlp Hls.
  destruct (findNodeDelete_from_spec st its HL k A C _ HS fuel Hf maxLevel (-1)%Z
              (header (smap st)) preds succs)
    as (lF & preds' & succs' & E0 & ElF & Fp & Fs); [lia|by left|].
  simpl in ElF.
  simpl. unfold findNodeDelete. rewrite E0. simpl. unfold deletable. simpl.
  destruct ok as [it|]; simpl in ElF.
  - destruct (ok_node st its HL k A C _ HS it eq_refl) as (nd & Hnd & _ & _ & Hlen & Hn & _).
    rewrite Nat.min_r in ElF by lia.
    replace (lF =? -1)%Z with false by (symmetry; apply Z.eqb_neq; lia).
    unfold index. replace (Z.to_nat lF) with (iheight it - 1) by lia.
    rewrite (filled_lookup maxLevel succs succs' _ (iheight it - 1) Fs) by lia.
    rewrite succAt_ok by lia. simpl. unfold MGet, get. rewrite Hnd. simpl.
    by rewrite (Hhid it nd eq_refl Hnd).
  - rewrite Nat.min_0_r in ElF. simpl in ElF. by subst lF.
Qed.

(** [Delete] is [LoadAndDelete] without the results. *)
Lemma Delete_loop_LoadAndDelete retries : ∀ fuel st k ntd im tl (preds succs : Links) r st',
  LoadAndDelete_loop retries fuel st k ntd im tl preds succs = Ret (r, st') →
  Delete_loop retries fuel st k ntd im tl preds succs = Ret st'.
Proof.
  induction retries as [|retries IH]; intros fuel st k ntd im tl preds succs r st' H; [done|].
  simpl in *.
  destruct (findNodeDelete fuel st k preds succs) as [[[lF preds'] succs']|]; [|done].
  simpl in *. destruct (deletable _ _ _ _) as [go|]; [|done]. simpl in *.
  destruct go; [|by simplify_eq].
  destruct (markNode _ _ _ _ _ _) as [[h2|[[h2 ntd'] tl']]|]; simpl in *; [by simplify_eq| |done].
  destruct (lockPreds _ _ _ _ _ _ _ _ _) as [[[h3 hl] valid]|]; [|done]. simpl in *.
  destruct valid; simpl in *.
  - destruct (nonnil ntd') as [p|]; [|done]. simpl in *.
    destruct (unlinkLoop _ _ _ _) as [h4|]; [|done]. simpl in *.
    destruct (Unlock h4 p) as [h5|]; [|done]. simpl in *.
    destruct (unlockString h5 _ _) as [h6|]; [|done]. simpl in *.
    destruct (loadVal h6 p) as [v|]; [|done]. simpl in *. by simplify_eq.
  - destruct (unlockString h3 _ _) as [h4|]; [|done]. simpl in *. by eapply IH.
Qed.

End DeleteOps.

(** ** The operations on a list at rest *)

Section TopLevel.
Context {O : Oracle}.
Implicit Types (h : Heap) (p q : ptr) (g : list ptr) (A C its : list item).

Lemma NewString_Inv : Inv NewString [].
Proof.
  pose proof maxLevel_pos as Hpos.
  split; [split|..]; simpl.
  - eexists. split; [done|]. unfold static. simpl. by rewrite length_replicate.
  - constructor.
  - constructor.
  - intros i Hi. simpl. unfold nextAt. simpl. by rewrite lookup_replicate_2.
  - repeat constructor. eexists. by split_and!.
  - done.
Qed.

Lemma enough_split st its k A ok C fuel :
  Linked st its → key_split k its A ok C → enough st fuel →
  List.length A ≤ fuel ∧ List.length its ≤ fuel ∧ ∃ r, fuel = S (S r).
Proof.
  intros HL (-> & _) Hf. pose proof (linked_length st _ HL) as Hlen.
  unfold enough in Hf. rewrite length_app in Hlen. split_and!; try lia.
  - rewrite length_app. lia.
  - exists (fuel - 2). lia.
Qed.

Lemma Store_absent st its k v level A C fuel :
  Inv st its → key_split k its A None C → 1 ≤ level ≤ maxLevel → enough st fuel →
  ∃ st', Store fuel st k v level = Ret st' ∧
    Inv st' (A ++ mkItem (List.length (heap st)) k level :: C) ∧
    fld value (heap st') (List.length (heap st)) = Some v ∧
    length (smap st') = AddInt64 (length (smap st)) 1 ∧
    header (smap st') = header (smap st) ∧
    List.length (heap st') = S (List.length (heap st)) ∧
    (∀ q, q < List.length (heap st) → fld value (heap st') q = fld value (heap st) q).
Proof.
  intros HI HS Hlev Hf.
  destruct (enough_split st its k A None C fuel (inv_linked _ _ HI) HS Hf) as (HfA & _ & r & ->).
  destruct (Store_loop_insert st its k v level A C (S (S r)) (S r)
              (replicate maxLevel None) (replicate maxLevel None))
    as (h' & nd' & preds' & succs' & E & HI' & Hnd' & Hv & Hlen & Hold); try done;
    try apply length_replicate.
  set (st' := mkState h' (mkStringMap (header (smap st)) (AddInt64 (length (smap st)) 1))) in *.
  set (nn := List.length (heap st)) in *.
  exists st'. split_and!; try done.
  - unfold Store. rewrite E.
    destruct HS as (_ & HA & _ & HC).
    rewrite (Store_loop_present st' _ (inv_linked _ _ HI') k A C (Some (mkItem nn k level))
               (key_split_new k A C (mkItem nn k level) HA HC eq_refl) (S (S r)) r v level preds' succs'
               (mkItem nn k level) nd'); try done.
    + unfold set_heap. simpl. subst v. rewrite list_insert_id; [done|].
      rewrite Hnd'. by destruct nd'.
    + destruct (inv_at_rest st' _ nn HI') as [Hfl _].
      { right. rewrite fmap_app. apply elem_of_app. right. by left. }
      apply fld_Some in Hfl as (nd & Hnd & Hfl). simpl in Hnd. rewrite Hnd' in Hnd.
      injection Hnd as <-. by rewrite Hfl.
  - unfold fld. simpl. rewrite Hnd'. simpl. by rewrite Hv.
Qed.

Lemma Store_present st its k v level A C it nd fuel :
  Inv st its → key_split k its A (Some it) C → heap st !! iptr it = Some nd →
  enough st fuel →
  Store fuel st k v level = Ret (set_heap st (<[iptr it := with_value v nd]> (heap st))) ∧
  Inv (set_heap st (<[iptr it := with_value v nd]> (heap st))) its.
Proof.
  intros HI HS Hnd Hf. pose proof (inv_linked _ _ HI) as HL.
  destruct (enough_split st its k A _ C fuel HL HS Hf) as (HfA & _ & r & ->).
  split.
  - unfold Store. apply (Store_loop_present st its HL k A C _ HS); try done.
    destruct (inv_at_rest st its (iptr it) HI) as [Hfl _].
    { right. apply list_elem_of_fmap_2. by apply (split_in_ok st its HL k A C _ HS). }
    apply fld_Some in Hfl as (nd0 & Hnd0 & Hfl). rewrite Hnd in Hnd0.
    injection Hnd0 as <-. by rewrite Hfl.
  - destruct st as [h sm]. unfold set_heap. simpl in *.
    apply (Inv_frame h); try done; by eapply eqv_insert.
Qed.

Lemma LoadAndDelete_present st its k A C it fuel :
  Inv st its → key_split k its A (Some it) C → enough st fuel →
  ∃ st' v0,
    LoadAndDelete fuel st k = Ret (v0, true, st') ∧
    Delete fuel st k = Ret st' ∧
    Inv st' (A ++ C) ∧
    fld value (heap st) (iptr it) = Some v0 ∧
    length (smap st') = AddInt64 (length (smap st)) (-1) ∧
    header (smap st') = header (smap st) ∧
    (∀ q, fld value (heap st') q = fld value (heap st) q).
Proof.
  intros HI HS Hf.
  destruct (enough_split st its k A _ C fuel (inv_linked _ _ HI) HS Hf) as (HfA & _ & r & ->).
  destruct (LoadAndDelete_loop_present st its k A C it (S (S r)) (S r)
              (replicate maxLevel None) (replicate maxLevel None))
    as (h' & v0 & E & HI' & Hv & Hlen & Hold); try done; try apply length_replicate.
  eexists _, v0. split_and!; try done.
  unfold Delete. by apply Delete_loop_LoadAndDelete in E.
Qed.

Lemma LoadAndDelete_hidden st its k A C ok fuel :
  Linked st its → key_split k its A ok C →
  (∀ it nd, ok = Some it → heap st !! iptr it = Some nd →
            bitflag_MGet (flags nd) (Z.lor fullyLinked marked) fullyLinked = false) →
  enough st fuel →
  LoadAndDelete fuel st k = Ret (inil, false, st) ∧ Delete fuel st k = Ret st.
Proof.
  intros HL HS Hhid Hf.
  destruct (enough_split st its k A _ C fuel HL HS Hf) as (HfA & _ & r & ->).
  assert (LoadAndDelete (S (S r)) st k = Ret (inil, false, st)) as E.
  { unfold LoadAndDelete.
    apply (LoadAndDelete_loop_hidden st its k A C ok); try done; apply length_replicate. }
  split; [done|]. unfold Delete. by apply Delete_loop_LoadAndDelete in E.
Qed.

(** [Load] on a list at rest reads the contents. *)
Lemma Load_present st its it fuel :
  Inv st its → it ∈ its → enough st fuel →
  Load fuel st (ikey it) = Ret (snd (entry (heap st) it), true).
Proof.
  intros HI Hin Hf. pose proof (inv_linked _ _ HI) as HL.
  destruct (key_split_exists (ikey it) its (lk_sorted _ _ HL)) as (A & ok & C & HS).
  destruct (enough_split st its _ A _ C fuel HL HS Hf) as (HfA & _ & _).
  rewrite (Load_linked st its HL _ A C ok HS fuel HfA).
  assert (is_Some ok) as [it' ->].
  { apply (key_split_present _ _ _ _ _ HS). by apply list_elem_of_fmap_2. }
  assert (it' = it) as ->.
  { apply (NoDup_fmap_inj_on ikey its); try done.
    - apply sorted_keys_NoDup, (lk_sorted _ _ HL).
    - by apply (split_in_ok st its HL _ A C _ HS).
    - destruct HS as (_ & _ & Hok & _). by apply Hok. }
  destruct (inv_at_rest st its (iptr it) HI) as [Hfl _].
  { right. by apply list_elem_of_fmap_2. }
  apply fld_Some in Hfl as (nd & Hnd & Hfl). rewrite Hnd, Hfl.
  rewrite bitflag_MGet_rest. unfold entry, fld. by rewrite Hnd.
Qed.

Lemma Load_absent st its k fuel :
  Linked st its → k ∉ ikey <$> its → enough st fuel →
  Load fuel st k = Ret (inil, false).
Proof.
  intros HL Hk Hf.
  destruct (key_split_exists k its (lk_sorted _ _ HL)) as (A & ok & C & HS).
  destruct (enough_split st its _ A _ C fuel HL HS Hf) as (HfA & _ & _).
  rewrite (Load_linked st its HL _ A C ok HS fuel HfA).
  destruct ok as [it|]; [|done].
  exfalso. apply Hk. apply (key_split_present _ _ _ _ _ HS). by eexists.
Qed.

End TopLevel.

(** ** Range, and the states the operations reach *)

Section RangeReach.
Context {O : Oracle}.
Implicit Types (h : Heap) (p q : ptr) (g : list ptr) (A C its : list item).

Lemma Range_loop_chain {X : Type} (f : string → iface → X → bool * X) h hd l :
  ∀ x fuel a calls,
  chain h 0 x (iptr <$> l) → Forall (item_ok h hd) l →
  Forall (at_rest h) (iptr <$> l) → List.length l ≤ fuel →
  Range_loop fuel h (head (iptr <$> l)) f a calls = Ret (visit f a calls (entry h <$> l)).
Proof.
  induction l as [|it l IH]; intros x fuel a calls Hc Hok Hr Hf.
  - by destruct fuel.
  - rewrite fmap_cons in Hc, Hr. destruct Hc as [_ Hc].
    apply Forall_cons in Hok as [(nd & Hnd & Hk & _) Hok].
    apply Forall_cons in Hr as [[Hfl _]%at_rest_fld Hr].
    destruct fuel as [|fuel]; [simpl in Hf; lia|]. simpl.
    rewrite (MGet_spec _ _ _ _ _ Hfl), bitflag_MGet_rest. simpl.
    unfold get, loadVal, get. rewrite Hnd. simpl.
    unfold entry at 1. unfold fld. rewrite Hnd. simpl. rewrite Hk.
    destruct (f (ikey it) (value nd) a) as [c a']. destruct c; simpl; [|done].
    rewrite (proj2 (loadNext_nextAt _ _ _ _) (chain_head _ _ _ _ Hc)). simpl.
    apply (IH (iptr it)); try done. simpl in Hf. lia.
Qed.

Lemma Range_inv {X : Type} st its fuel (f : string → iface → X → bool * X) a :
  Inv st its → enough st fuel →
  Range fuel st f a = Ret (visit f a [] (contents st its)).
Proof.
  intros HI Hf. pose proof (inv_linked _ _ HI) as HL. pose proof maxLevel_pos as Hpos.
  pose proof (lk_chain _ _ HL 0 ltac:(lia)) as Hc.
  rewrite (lvl_all its _ _ (lk_items _ _ HL)) in Hc.
  unfold Range. rewrite (proj2 (loadNext_nextAt _ _ _ _) (chain_head _ _ _ _ Hc)). simpl.
  apply (Range_loop_chain f _ (header (smap st)) its (header (smap st))); try done.
  - apply (lk_items _ _ HL).
  - pose proof (inv_rest _ _ HI) as Hr. by apply Forall_cons in Hr as [_ Hr].
  - pose proof (linked_length st its HL). unfold enough in Hf. lia.
Qed.

(** The calls of a visit are a prefix of the entries; all of them when the
    visitor never stops. *)
Lemma visit_prefix {X : Type} (f : string → iface → X → bool * X) es :
  ∀ a calls, ∃ es1 es2, es = es1 ++ es2 ∧ fst (visit f a calls es) = calls ++ es1.
Proof.
  induction es as [|[k v] es IH]; intros a calls; simpl.
  - exists [], []. split; [done|]. simpl. by rewrite app_nil_r.
  - destruct (f k v a) as [c a']. destruct c; simpl.
    + destruct (IH a' (calls ++ [(k, v)])) as (es1 & es2 & -> & ->).
      exists ((k, v) :: es1), es2. by rewrite <- app_assoc.
    + by exists [(k, v)], es.
Qed.

Lemma visit_all {X : Type} (f : string → iface → X → bool * X) es :
  (∀ k v a, fst (f k v a) = true) →
  ∀ a calls, fst (visit f a calls es) = calls ++ es.
Proof.
  intros Hf. induction es as [|[k v] es IH]; intros a calls; simpl.
  - by rewrite app_nil_r.
  - specialize (Hf k v a). destruct (f k v a) as [c a']. simpl in Hf. subst c. simpl.
    rewrite IH. by rewrite <- app_assoc.
Qed.

Lemma contents_keys st its : (contents st its).*1 = ikey <$> its.
Proof. unfold contents. rewrite <- list_fmap_compose. done. Qed.

(** Every call leaves a list at rest. *)
Lemma step_Inv st its fuel :
  Inv st its → enough st fuel →
  (∀ k v level st', 1 ≤ level ≤ maxLevel →
     Store fuel st k v level = Ret st' → ∃ its', Inv st' its') ∧
  (∀ k r st', LoadAndDelete fuel st k = Ret (r, st') → ∃ its', Inv st' its') ∧
  (∀ k st', Delete fuel st k = Ret st' → ∃ its', Inv st' its').
Proof.
  intros HI Hf. pose proof (inv_linked _ _ HI) as HL.
  assert (∀ k, ∃ A ok C, key_split k its A ok C) as Hsp.
  { intros k. apply key_split_exists, (lk_sorted _ _ HL). }
  split_and!.
  - intros k v level st' Hlev E. destruct (Hsp k) as (A & [it|] & C & HS).
    + destruct (ok_node st its HL k A C _ HS it eq_refl) as (nd & Hnd & _).
      destruct (Store_present st its k v level A C it nd fuel HI HS Hnd Hf) as [E' HI'].
      rewrite E' in E. injection E as <-. eauto.
    + destruct (Store_absent st its k v level A C fuel HI HS Hlev Hf) as (st1 & E' & HI' & _).
      rewrite E' in E. injection E as <-. eauto.
  - intros k r st' E. destruct (Hsp k) as (A & [it|] & C & HS).
    + destruct (LoadAndDelete_present st its k A C it fuel HI HS Hf)
        as (st1 & v0 & E' & _ & HI' & _).
      rewrite E' in E. injection E as _ <-. eauto.
    + destruct (LoadAndDelete_hidden st its k A C None fuel HL HS) as [E' _]; try done.
      rewrite E' in E. injection E as _ <-. eauto.
  - intros k st' E. destruct (Hsp k) as (A & [it|] & C & HS).
    + destruct (LoadAndDelete_present st its k A C it fuel HI HS Hf)
        as (st1 & v0 & _ & E' & HI' & _).
      rewrite E' in E. injection E as <-. eauto.
    + destruct (LoadAndDelete_hidden st its k A C None fuel HL HS) as [_ E']; try done.
      rewrite E' in E. injection E as <-. eauto.
Qed.

Lemma step_on_Inv k st st' its :
  Inv st its → step_on k st st' → ∃ its', Inv st' its'.
Proof.
  intros HI [fuel v level Hlev Hf E|fuel Hf E|fuel r Hf E|fuel v level r Hlev Hf E].
  - by apply (step_Inv st its fuel HI Hf) in E.
  - by apply (step_Inv st its fuel HI Hf) in E.
  - by apply (step_Inv st its fuel HI Hf) in E.
  - unfold LoadOrStore in E. destruct (Load fuel st k) as [[lv ok]|]; [|done].
    simpl in E. destruct ok; simpl in E.
    + injection E as _ <-. eauto.
    + destruct (Store fuel st k v level) as [st1|] eqn:E1; [|done]. simpl in E.
      injection E as _ <-. by apply (step_Inv st its fuel HI Hf) in E1.
Qed.

Lemma reachable_Inv st : reachable st → ∃ its, Inv st its.
Proof.
  induction 1 as [|k st st' _ [its HI] Hstep].
  - exists []. apply NewString_Inv.
  - by eapply step_on_Inv.
Qed.

End RangeReach.

(** ** The map as its clients see it *)

Section Contents.
Context {O : Oracle}.
Implicit Types (h : Heap) (p q : ptr) (g : list ptr) (A C its : list item).

Lemma holds_Load st k v fuel :
  holds st k v → enough st fuel → Load fuel st k = Ret (v, true).
Proof.
  intros (its & it & HI & Hin & <- & Hv) Hf.
  rewrite (Load_present st its it fuel HI Hin Hf). unfold entry. by rewrite Hv.
Qed.

Lemma lacks_Load st k fuel :
  lacks st k → enough st fuel → Load fuel st k = Ret (inil, false).
Proof. intros (its & HI & Hk) Hf. apply (Load_absent st its); [apply HI|done..]. Qed.

Lemma Load_found_holds st its k v fuel :
  Inv st its → enough st fuel → Load fuel st k = Ret (v, true) → holds st k v.
Proof.
  intros HI Hf E. destruct (decide (k ∈ ikey <$> its)) as [Hin|Hnin].
  - apply list_elem_of_fmap in Hin as (it & -> & Hin).
    rewrite (Load_present st its it fuel HI Hin Hf) in E. injection E as E.
    exists its, it. split_and!; try done.
    destruct (inv_at_rest st its (iptr it) HI) as [Hfl _];
      [right; by apply list_elem_of_fmap_2|].
    apply fld_Some in Hfl as (nd & Hnd & _). unfold fld in *. rewrite Hnd in *.
    simpl in *. by subst v.
  - rewrite (Load_absent st its k fuel (inv_linked _ _ HI) Hnin Hf) in E. done.
Qed.

Lemma Load_missing_lacks st its k fuel :
  Inv st its → enough st fuel → Load fuel st k = Ret (inil, false) → lacks st k.
Proof.
  intros HI Hf E. exists its. split; [done|]. intros (it & -> & Hin)%list_elem_of_fmap.
  rewrite (Load_present st its it fuel HI Hin Hf) in E. done.
Qed.

Lemma linked_ptr_inj st its it1 it2 :
  Linked st its → it1 ∈ its → it2 ∈ its → iptr it1 = iptr it2 → it1 = it2.
Proof.
  intros HL H1 H2 E. apply (NoDup_fmap_inj_on iptr its); try done.
  by pose proof (linked_ptrs_NoDup st its HL) as [_ ?]%NoDup_cons.
Qed.

Lemma split_keys k its A ok C k' :
  key_split k its A ok C → k' ≠ k →
  k' ∈ ikey <$> its ↔ k' ∈ ikey <$> (A ++ C).
Proof.
  intros (-> & _ & Hok & _) Hne. rewrite !fmap_app, !elem_of_app.
  destruct ok as [it|]; simpl; [|by rewrite elem_of_nil; naive_solver].
  rewrite list_elem_of_singleton, (Hok it eq_refl). naive_solver.
Qed.

Lemma split_items k its A ok C it :
  key_split k its A ok C → ikey it ≠ k → it ∈ its ↔ it ∈ A ++ C.
Proof.
  intros (-> & _ & Hok & _) Hne. rewrite !elem_of_app.
  destruct ok as [it'|]; simpl; [|by rewrite elem_of_nil; naive_solver].
  rewrite list_elem_of_singleton. split; [|naive_solver].
  intros [?|[->|?]]; [by left| |by right]. by destruct Hne, (Hok it' eq_refl).
Qed.

(** What [Store] does to the contents. *)
Lemma Store_contents st its k v level fuel :
  Inv st its → 1 ≤ level ≤ maxLevel → enough st fuel →
  ∃ st', Store fuel st k v level = Ret st' ∧ holds st' k v ∧
    (∀ k' v', k' ≠ k → holds st k' v' → holds st' k' v') ∧
    (∀ k', k' ≠ k → lacks st k' → lacks st' k') ∧
    (k ∈ ikey <$> its → Len st' = Len st) ∧
    (k ∉ ikey <$> its → Len st' = AddInt64 (Len st) 1).
Proof.
  intros HI Hlev Hf. pose proof (inv_linked _ _ HI) as HL.
  destruct (key_split_exists k its (lk_sorted _ _ HL)) as (A & ok & C & HS).
  pose proof (key_split_present _ _ _ _ _ HS) as Hpres.
  destruct ok as [it|].
  - destruct (ok_node st its HL k A C _ HS it eq_refl) as (nd & Hnd & _).
    destruct (Store_present st its k v level A C it nd fuel HI HS Hnd Hf) as [E HI'].
    pose proof (split_in_ok st its HL k A C _ HS it eq_refl) as Hin.
    assert (ikey it = k) as Hk by (destruct HS as (_ & _ & Hok & _); by apply Hok).
    assert (iptr it < List.length (heap st)) as Hlt by by eapply lookup_lt_Some.
    eexists. split; [exact E|]. split_and!.
    + exists its, it. split_and!; try done. simpl. by rewrite fld_insert, decide_True.
    + intros k' v' Hne (its2 & it2 & HI2 & Hin2 & Hk2 & Hv2).
      exists its2, it2. split_and!; try done.
      * destruct st as [h sm]. unfold set_heap. simpl in *.
        apply (Inv_frame h); try done; by eapply eqv_insert.
      * simpl. rewrite fld_insert by done. rewrite decide_False; [done|].
        intros E2. destruct (inv_at_rest st its2 (iptr it2) HI2) as [_ _];
          [right; by apply list_elem_of_fmap_2|].
        destruct (linked_item st its2 (inv_linked _ _ HI2) it2 Hin2) as (nd2 & Hnd2 & Hk2' & _).
        destruct (linked_item st its HL it Hin) as (nd1 & Hnd1 & Hk1' & _).
        rewrite E2, Hnd1 in Hnd2. injection Hnd2 as <-. congruence.
    + intros k' Hne (its2 & HI2 & Hk2). exists its2. split; [|done].
      destruct st as [h sm]. unfold set_heap. simpl in *.
      apply (Inv_frame h); try done; by eapply eqv_insert.
    + done.
    + intros Hn. destruct Hn. apply Hpres. by eexists.
  - destruct (Store_absent st its k v level A C fuel HI HS Hlev Hf)
      as (st' & E & HI' & Hv & Hlen & Hhd & Hhl & Hold).
    assert (its = A ++ C) as Eits by (by destruct HS as (-> & _)).
    exists st'. split; [exact E|]. split_and!.
    + eexists _, (mkItem (List.length (heap st)) k level). split_and!; try done.
      apply elem_of_app. right. by left.
    + intros k' v' Hne (its2 & it2 & HI2 & Hin2 & Hk2 & Hv2).
      assert (iptr it2 < List.length (heap st)) as Hlt.
      { apply (linked_ptr_lt st its2 _ (inv_linked _ _ HI2)). right. by apply list_elem_of_fmap_2. }
      destruct (Load_found_holds st its k' v' fuel HI Hf) as (its3 & it3 & _ & _ & _ & _).
      { apply holds_Load; [|done]. by exists its2, it2. }
      assert (∃ it, it ∈ its ∧ ikey it = k' ∧ fld value (heap st) (iptr it) = Some v')
        as (it & Hin & Hk & Hvv).
      { pose proof (holds_Load st k' v' fuel ltac:(by exists its2, it2) Hf) as EL.
        destruct (decide (k' ∈ ikey <$> its)) as [Hin|Hnin].
        - apply list_elem_of_fmap in Hin as (it & -> & Hin).
          rewrite (Load_present st its it fuel HI Hin Hf) in EL. injection EL as EL.
          exists it. split_and!; try done.
          destruct (inv_at_rest st its (iptr it) HI) as [Hfl _];
            [right; by apply list_elem_of_fmap_2|].
          apply fld_Some in Hfl as (nd & Hnd & _). unfold entry, fld in *.
          rewrite Hnd in *. simpl in *. by subst v'.
        - by rewrite (Load_absent st its k' fuel HL Hnin Hf) in EL. }
      eexists _, it. split_and!; try done.
      * rewrite Eits in Hin. apply elem_of_app in Hin as [?|?]; apply elem_of_app;
          [by left|right; by right].
      * rewrite Hold; [done|]. apply (linked_ptr_lt st its _ HL). right.
        by apply list_elem_of_fmap_2.
    + intros k' Hne (its2 & HI2 & Hk2).
      eexists. split; [exact HI'|]. rewrite fmap_app, fmap_cons. simpl.
      intros [Hin|[->|Hin]%elem_of_cons]%elem_of_app; try done.
      * pose proof (Load_absent st its2 k' fuel (inv_linked _ _ HI2) Hk2 Hf) as EL.
        apply list_elem_of_fmap in Hin as (it & -> & Hin).
        rewrite (Load_present st its it fuel HI) in EL; [done| |done].
        rewrite Eits. apply elem_of_app. by left.
      * pose proof (Load_absent st its2 k' fuel (inv_linked _ _ HI2) Hk2 Hf) as EL.
        apply list_elem_of_fmap in Hin as (it & -> & Hin).
        rewrite (Load_present st its it fuel HI) in EL; [done| |done].
        rewrite Eits. apply elem_of_app. by right.
    + intros Hin. apply Hpres in Hin as [? ?]. done.
    + done.
Qed.


Lemma enough_refl st : enough st (List.length (heap st) + 2).
Proof. unfold enough. lia. Qed.

Lemma holds_in st its k v :
  Inv st its → holds st k v →
  ∃ it, it ∈ its ∧ ikey it = k ∧ fld value (heap st) (iptr it) = Some v.
Proof.
  intros HI Hh. pose proof (holds_Load st k v _ Hh (enough_refl st)) as EL.
  destruct (Load_found_holds st its k v _ HI (enough_refl st) EL)
    as (its2 & it2 & _ & _ & _ & _).
  destruct (decide (k ∈ ikey <$> its)) as [Hin|Hnin].
  - apply list_elem_of_fmap in Hin as (it & -> & Hin).
    rewrite (Load_present st its it _ HI Hin (enough_refl st)) in EL. injection EL as EL.
    exists it. split_and!; try done.
    destruct (inv_at_rest st its (iptr it) HI) as [Hfl _];
      [right; by apply list_elem_of_fmap_2|].
    apply fld_Some in Hfl as (nd & Hnd & _). unfold entry, fld in *.
    rewrite Hnd in *. simpl in *. by subst v.
  - by rewrite (Load_absent st its k _ (inv_linked _ _ HI) Hnin (enough_refl st)) in EL.
Qed.

Lemma lacks_in st its k : Inv st its → lacks st k → k ∉ ikey <$> its.
Proof.
  intros HI Hl (it & -> & Hin)%list_elem_of_fmap.
  pose proof (lacks_Load st _ _ Hl (enough_refl st)) as EL.
  by rewrite (Load_present st its it _ HI Hin (enough_refl st)) in EL.
Qed.

Lemma holds_lacks st k v : holds st k v → lacks st k → False.
Proof.
  intros Hh Hl. pose proof (holds_Load st k v _ Hh (enough_refl st)) as E1.
  by rewrite (lacks_Load st k _ Hl (enough_refl st)) in E1.
Qed.

Lemma holds_or_lacks st its k : Inv st its → (∃ v, holds st k v) ∨ lacks st k.
Proof.
  intros HI. destruct (decide (k ∈ ikey <$> its)) as [Hin|Hnin].
  - left. apply list_elem_of_fmap in Hin as (it & -> & Hin).
    destruct (inv_at_rest st its (iptr it) HI) as [Hfl _];
      [right; by apply list_elem_of_fmap_2|].
    apply fld_Some in Hfl as (nd & Hnd & _). exists (value nd), its, it.
    split_and!; try done. unfold fld. by rewrite Hnd.
  - right. by exists its.
Qed.

(** What [LoadAndDelete] and [Delete] do to the contents. *)
Lemma Delete_contents st its k fuel :
  Inv st its → enough st fuel →
  ∃ st' r, LoadAndDelete fuel st k = Ret (r, st') ∧ Delete fuel st k = Ret st' ∧
    lacks st' k ∧
    (∀ k' v', k' ≠ k → holds st k' v' → holds st' k' v') ∧
    (∀ k', k' ≠ k → lacks st k' → lacks st' k') ∧
    (∀ v0, holds st k v0 → r = (v0, true) ∧ Len st' = AddInt64 (Len st) (-1)) ∧
    (lacks st k → r = (inil, false) ∧ st' = st).
Proof.
  intros HI Hf. pose proof (inv_linked _ _ HI) as HL.
  destruct (key_split_exists k its (lk_sorted _ _ HL)) as (A & ok & C & HS).
  pose proof (key_split_present _ _ _ _ _ HS) as Hpres.
  destruct ok as [it|].
  - destruct (LoadAndDelete_present st its k A C it fuel HI HS Hf)
      as (st' & v0 & E1 & E2 & HI' & Hv0 & Hlen & Hhd & Hold).
    pose proof (split_in_ok st its HL k A C _ HS it eq_refl) as Hin.
    assert (ikey it = k) as Hk by (destruct HS as (_ & _ & Hok & _); by apply Hok).
    assert (k ∉ ikey <$> (A ++ C)) as Hgone.
    { destruct HS as (_ & HA & _ & HC). rewrite fmap_app.
      intros [(x & -> & Hx)%list_elem_of_fmap|(x & -> & Hx)%list_elem_of_fmap]%elem_of_app.
      - rewrite Forall_forall in HA. by destruct (klt_irrefl _ (HA x Hx)).
      - rewrite Forall_forall in HC. by destruct (klt_irrefl _ (HC x Hx)). }
    exists st', (v0, true). split_and!; try done.
    + by exists (A ++ C).
    + intros k' v' Hne Hh. destruct (holds_in st its k' v' HI Hh) as (it2 & Hin2 & Hk2 & Hv2).
      exists (A ++ C), it2. split_and!; try done.
      * apply (split_items k its A _ C it2 HS); [congruence|done].
      * by rewrite Hold.
    + intros k' Hne Hl. exists (A ++ C). split; [done|].
      rewrite <- (split_keys k its A _ C k' HS Hne). by apply (lacks_in st its).
    + intros v1 Hh. destruct (holds_in st its k v1 HI Hh) as (it2 & Hin2 & Hk2 & Hv2).
      assert (it2 = it) as ->.
      { apply (NoDup_fmap_inj_on ikey its); try done; [|congruence].
        apply sorted_keys_NoDup, (lk_sorted _ _ HL). }
      split; [congruence|done].
    + intros Hl. destruct (lacks_in st its k HI Hl). apply Hpres. by eexists.
  - destruct (LoadAndDelete_hidden st its k A C None fuel HL HS) as [E1 E2]; try done.
    assert (lacks st k) as Hl.
    { exists its. split; [done|]. intros Hin. by apply Hpres in Hin as [? ?]. }
    exists st, (inil, false). split_and!; try done.
    intros v0 Hh. by destruct (holds_lacks st k v0).
Qed.

(** A call on another key leaves [k] as it is. *)
Lemma step_on_contents k' st st' its :
  Inv st its → step_on k' st st' →
  (∀ k v, k ≠ k' → holds st k v → holds st' k v) ∧
  (∀ k, k ≠ k' → lacks st k → lacks st' k).
Proof.
  intros HI [fuel v level Hlev Hf E|fuel Hf E|fuel r Hf E|fuel v level r Hlev Hf E].
  - destruct (Store_contents st its k' v level fuel HI Hlev Hf) as (st1 & E1 & _ & H1 & H2 & _).
    rewrite E1 in E. injection E as <-. split; eauto.
  - destruct (Delete_contents st its k' fuel HI Hf) as (st1 & r & _ & E1 & _ & H1 & H2 & _).
    rewrite E1 in E. injection E as <-. split; eauto.
  - destruct (Delete_contents st its k' fuel HI Hf) as (st1 & r1 & E1 & _ & _ & H1 & H2 & _).
    rewrite E1 in E. injection E as _ <-. split; eauto.
  - unfold LoadOrStore in E. destruct (Load fuel st k') as [[lv ok]|]; [|done].
    simpl in E. destruct ok; simpl in E.
    + injection E as _ <-. split; eauto.
    + destruct (Store_contents st its k' v level fuel HI Hlev Hf) as (st1 & E1 & _ & H1 & H2 & _).
      rewrite E1 in E. simpl in E. injection E as _ <-. split; eauto.
Qed.

Lemma holds_Inv st k v : holds st k v → ∃ its, Inv st its.
Proof. intros (its & _ & HI & _). eauto. Qed.

Lemma lacks_Inv st k : lacks st k → ∃ its, Inv st its.
Proof. intros (its & HI & _). eauto. Qed.

Lemma step_off_holds k v st st' :
  rtc (step_off k) st st' → holds st k v → holds st' k v.
Proof.
  induction 1 as [|st st1 st2 (k' & Hne & Hstep) _ IH]; [done|].
  intros Hh. apply IH. destruct (holds_Inv _ _ _ Hh) as [its HI].
  by apply (step_on_contents k' st st1 its HI Hstep).
Qed.

Lemma step_off_lacks k st st' :
  rtc (step_off k) st st' → lacks st k → lacks st' k.
Proof.
  induction 1 as [|st st1 st2 (k' & Hne & Hstep) _ IH]; [done|].
  intros Hl. apply IH. destruct (lacks_Inv _ _ Hl) as [its HI].
  by apply (step_on_contents k' st st1 its HI Hstep).
Qed.

End Contents.

(** ** Further lemmas on the search, the walk and the contents *)

Section Observations.
Context {O : Oracle}.

(** The node of a key in a well-formed list is the [ok] of its split. *)
Lemma key_split_item st its it k A ok C :
  Linked st its → key_split k its A ok C → it ∈ its → ikey it = k → ok = Some it.
Proof.
  intros HL HS Hin Hk.
  destruct (proj1 (key_split_present _ _ _ _ _ HS)) as [it' ->].
  - rewrite <- Hk. by apply list_elem_of_fmap_2.
  - f_equal. apply (NoDup_fmap_inj_on ikey its); try done.
    + apply sorted_keys_NoDup, (lk_sorted _ _ HL).
    + by apply (split_in_ok st its HL k A C _ HS).
    + destruct HS as (_ & _ & Hok & _). rewrite (Hok it' eq_refl). done.
Qed.

Lemma AddInt64_back z : AddInt64 (AddInt64 (wrap64 z) 1) (-1) = wrap64 z.
Proof.
  unfold AddInt64. rewrite wrap64_add.
  replace (wrap64 z + 1 + -1)%Z with (wrap64 z + 0)%Z by lia.
  rewrite wrap64_add. f_equal. lia.
Qed.

Lemma klt_sorted_NoDup (l : list string) : StronglySorted klt l → NoDup l.
Proof.
  induction 1 as [|x l _ IH Hx]; constructor; [|done].
  intros Hin. rewrite Forall_forall in Hx. by apply (klt_irrefl x), Hx.
Qed.

(** Two strictly sorted lists with the same elements are the same list. *)
Lemma sorted_keys_unique (l1 l2 : list string) :
  StronglySorted klt l1 → StronglySorted klt l2 → (∀ k, k ∈ l1 ↔ k ∈ l2) → l1 = l2.
Proof.
  intros H1 H2 Hiff. apply (StronglySorted_unique_strong klt); try done.
  - intros x1 x2 _ _ Ha Hb. by destruct (klt_asym _ _ Ha).
  - apply NoDup_Permutation; [by apply klt_sorted_NoDup..|done].
Qed.

(** The entries of a list at rest, read through [Load]. *)
Lemma contents_Load st its fuel :
  Inv st its → enough st fuel →
  contents st its =
    (λ k, (k, match Load fuel st k with Ret r => r.1 | Err _ => inil end)) <$> (ikey <$> its).
Proof.
  intros HI Hf. unfold contents. rewrite <- list_fmap_compose.
  apply list_fmap_ext. intros i it Hit%list_elem_of_lookup_2. simpl.
  rewrite (Load_present st its it fuel HI Hit Hf). done.
Qed.

Lemma keys_Load st its fuel k :
  Inv st its → enough st fuel →
  k ∈ ikey <$> its ↔ ∃ v, Load fuel st k = Ret (v, true).
Proof.
  intros HI Hf. split.
  - intros (it & -> & Hin)%list_elem_of_fmap. eexists. by apply (Load_present st its).
  - intros [v EL]. destruct (decide (k ∈ ikey <$> its)) as [|Hn]; [done|].
    by rewrite (Load_absent st its k fuel (inv_linked _ _ HI) Hn Hf) in EL.
Qed.

Lemma keys_holds st its k : Inv st its → k ∈ ikey <$> its ↔ ∃ v, holds st k v.
Proof.
  intros HI. split.
  - intros Hin. destruct (holds_or_lacks st its k HI) as [|Hl]; [done|].
    by destruct (lacks_in st its k HI Hl).
  - intros [v Hh]. destruct (holds_in st its k v HI Hh) as (it & Hin & <- & _).
    by apply list_elem_of_fmap_2.
Qed.

(** A visit in which every call answers true goes through all the entries. *)
Lemma visit_complete {X : Type} (f : string → iface → X → bool * X) es :
  ∀ a calls,
    (∀ pre k v post, es = pre ++ (k, v) :: post →
                     (f k v (visit f a calls pre).2).1 = true) →
    (visit f a calls es).1 = calls ++ es.
Proof.
  induction es as [|[k v] es IH]; intros a calls Hgo; simpl.
  - by rewrite app_nil_r.
  - pose proof (Hgo [] k v es eq_refl) as H0. simpl in H0.
    destruct (f k v a) as [c a'] eqn:Ef. simpl in H0. subst c. simpl.
    rewrite IH; [by rewrite <- app_assoc|].
    intros pre k' v' post ->.
    specialize (Hgo ((k, v) :: pre) k' v' post eq_refl). simpl in Hgo.
    by rewrite Ef in Hgo.
Qed.

(** The entries of a list at rest are what [Load] finds. *)
Lemma contents_Load_iff st its fuel k v :
  Inv st its → enough st fuel →
  (k, v) ∈ contents st its ↔ Load fuel st k = Ret (v, true).
Proof.
  intros HI Hf. split.
  - intros (it & E & Hin)%list_elem_of_fmap.
    rewrite (surjective_pairing (entry (heap st) it)) in E. injection E as -> ->.
    by apply (Load_present st its).
  - intros EL. destruct (decide (k ∈ ikey <$> its)) as [Hin|Hn].
    + apply list_elem_of_fmap in Hin as (it & -> & Hin).
      rewrite (Load_present st its it fuel HI Hin Hf) in EL. injection EL as <-.
      apply list_elem_of_fmap. exists it. split; [|done].
      by rewrite (surjective_pairing (entry (heap st) it)).
    + by rewrite (Load_absent st its k fuel (inv_linked _ _ HI) Hn Hf) in EL.
Qed.

(** Heaps that agree on every field of every node are equal. *)
Lemma heap_ext (h h' : Heap) :
  eqv static h h' → eqv flags h h' → eqv value h h' → eqv next h h' → eqv mu h h' →
  h' = h.
Proof.
  intros Es Ef Ev En Em. apply list_eq. intros q.
  specialize (Es q). specialize (Ef q). specialize (Ev q).
  specialize (En q). specialize (Em q). unfold fld, static in *.
  destruct (h' !! q) as [[]|], (h !! q) as [[]|]; simplify_eq/=; done.
Qed.


(** [findNode] on a key of the list returns its node from the top level of
    the node, and writes [preds] and [succs] on no level below that one. *)
Lemma findNode_from_found st its k A C it fuel :
  Linked st its → key_split k its A (Some it) C → List.length A ≤ fuel →
  ∀ n x (preds succs : Links),
    iheight it ≤ n ≤ maxLevel → x ∈ header (smap st) :: lvl n A →
    n ≤ List.length preds → n ≤ List.length succs →
    ∃ preds' succs',
      findNode_from fuel (heap st) (hash k) k n x preds succs
        = Ret (Some (iptr it), preds', succs') ∧
      succs' !! (iheight it - 1) = Some (Some (iptr it)) ∧
      ∀ j, j < iheight it - 1 ∨ n ≤ j →
           preds' !! j = preds !! j ∧ succs' !! j = succs !! j.
Proof.
  intros HL HS Hf n.
  induction n as [|i IH]; intros x preds succs Hn Hx Hlp Hls.
  { destruct (ok_node st its HL k A C _ HS it eq_refl) as (_ & _ & _ & _ & _ & ? & _). lia. }
  apply (descend_elem st its HL k A C _ HS) in Hx.
  destruct (level_step st its HL k A C _ HS fuel i x) as (s0 & E1 & E2); [lia|done|done|].
  simpl. rewrite E1. simpl. rewrite E2. simpl.
  rewrite (is_match_succAt st its HL k A C _ HS). simpl.
  case_bool_decide as Hlt.
  - destruct (succAt_cases C (Some it) i) as [(it' & E & _ & Es)|[Hn' _]]; [|done].
    injection E as <-. rewrite Es. eexists _, _. split; [done|].
    assert (iheight it - 1 = i) as -> by lia. split.
    + apply list_lookup_insert_eq. lia.
    + intros j Hj. rewrite !list_lookup_insert_ne by lia. done.
  - simpl in Hlt.
    destruct (IH (predAt (header (smap st)) i A)
                 (<[i:=Some (predAt (header (smap st)) i A)]> preds)
                 (<[i:=succAt i (Some it) C]> succs))
      as (preds' & succs' & E & Hs & Hj).
    { lia. }
    { apply predAt_elem. }
    { rewrite length_insert. lia. }
    { rewrite length_insert. lia. }
    exists preds', succs'. split_and!; try done.
    intros j Hjj. destruct (Hj j ltac:(lia)) as [-> ->].
    rewrite !list_lookup_insert_ne by lia. done.
Qed.

(** The walk of [Range] over a level-0 chain, whatever the flags and the
    locks: the nodes that are not shown are stepped over. *)
Lemma Range_loop_shown {X : Type} (f : string → iface → X → bool * X) h hd l :
  ∀ x fuel a calls,
  chain h 0 x (iptr <$> l) → Forall (item_ok h hd) l → List.length l ≤ fuel →
  Range_loop fuel h (head (iptr <$> l)) f a calls
    = Ret (visit f a calls (entry h <$> filter (λ it, shown h it = true) l)).
Proof.
  induction l as [|it l IH]; intros x fuel a calls Hc Hok Hf.
  - by destruct fuel.
  - rewrite fmap_cons in Hc. destruct Hc as [_ Hc].
    apply Forall_cons in Hok as [(nd & Hnd & Hk & _) Hok].
    destruct fuel as [|fuel]; [simpl in Hf; lia|]. simpl in Hf. simpl.
    unfold MGet, get. rewrite Hnd. simpl.
    pose proof (proj2 (loadNext_nextAt _ _ _ _) (chain_head _ _ _ _ Hc)) as En.
    destruct (bitflag_MGet (flags nd) (Z.lor fullyLinked marked) fullyLinked) eqn:Ev; simpl.
    + rewrite filter_cons_True by (unfold shown; by rewrite Hnd).
      unfold loadVal, get. rewrite Hnd. simpl.
      unfold entry at 1. unfold fld. rewrite Hnd. simpl. rewrite Hk.
      destruct (f (ikey it) (value nd) a) as [c a']. destruct c; simpl; [|done].
      rewrite En. simpl. apply (IH (iptr it)); try done. lia.
    + rewrite filter_cons_False by (unfold shown; rewrite Hnd, Ev; done).
      rewrite En. simpl. apply (IH (iptr it)); try done. lia.
Qed.

(** Two [Store]s under different keys commute, as far as a client can see. *)
Lemma Store_commutes st k1 k2 v1 v2 l1 l2 fuel :
  reachable st → k1 ≠ k2 → 1 ≤ l1 ≤ maxLevel → 1 ≤ l2 ≤ maxLevel → enough st fuel →
  ∃ sa sb,
    Store fuel st k1 v1 l1 = Ret sa ∧ Store fuel st k2 v2 l2 = Ret sb ∧
    ∀ fa fb, enough sa fa → enough sb fb →
      ∃ sab sba,
        Store fa sa k2 v2 l2 = Ret sab ∧ Store fb sb k1 v1 l1 = Ret sba ∧
        Len sab = Len sba ∧
        ∀ k f1 f2, enough sab f1 → enough sba f2 → Load f1 sab k = Load f2 sba k.
Proof.
  intros [its HI]%reachable_Inv Hne Hl1 Hl2 Hf.
  destruct (Store_contents st its k1 v1 l1 fuel HI Hl1 Hf)
    as (sa & Ea & Hha & Hoa & Hla & Hina & Houta).
  destruct (Store_contents st its k2 v2 l2 fuel HI Hl2 Hf)
    as (sb & Eb & Hhb & Hob & Hlb & Hinb & Houtb).
  exists sa, sb. split_and!; try done. intros fa fb Hfa Hfb.
  destruct (holds_Inv _ _ _ Hha) as [itsa HIa].
  destruct (holds_Inv _ _ _ Hhb) as [itsb HIb].
  destruct (Store_contents sa itsa k2 v2 l2 fa HIa Hl2 Hfa)
    as (sab & Eab & Hhab & Hoab & Hlab & Hinab & Houtab).
  destruct (Store_contents sb itsb k1 v1 l1 fb HIb Hl1 Hfb)
    as (sba & Eba & Hhba & Hoba & Hlba & Hinba & Houtba).
  exists sab, sba. split_and!; try done.
  - destruct (holds_or_lacks st its k1 HI) as [[w1 H1]|H1];
      destruct (holds_or_lacks st its k2 HI) as [[w2 H2]|H2].
    + rewrite Hinab, Hinba, Hina, Hinb; try done.
      * apply (keys_holds st its k2 HI). eauto.
      * apply (keys_holds st its k1 HI). eauto.
      * apply (keys_holds sb itsb k1 HIb). eauto.
      * apply (keys_holds sa itsa k2 HIa). eauto.
    + rewrite Houtab, Hinba, Hina, Houtb; try done.
      * by apply (lacks_in st its).
      * apply (keys_holds st its k1 HI). eauto.
      * apply (keys_holds sb itsb k1 HIb). eauto.
      * apply (lacks_in sa itsa); [done|]. by apply Hla.
    + rewrite Hinab, Houtba, Houta, Hinb; try done.
      * apply (keys_holds st its k2 HI). eauto.
      * by apply (lacks_in st its).
      * apply (lacks_in sb itsb); [done|]. apply Hlb; [|done]. congruence.
      * apply (keys_holds sa itsa k2 HIa). exists w2. apply Hoa; [|done]. congruence.
    + rewrite Houtab, Houtba, Houta, Houtb; try done.
      * by apply (lacks_in st its).
      * by apply (lacks_in st its).
      * apply (lacks_in sb itsb); [done|]. apply Hlb; [|done]. congruence.
      * apply (lacks_in sa itsa); [done|]. by apply Hla.
  - intros k f1 f2 Hf1 Hf2.
    destruct (decide (k = k1)) as [->|Hk1]; [|destruct (decide (k = k2)) as [->|Hk2]].
    + rewrite (holds_Load sab k1 v1 f1), (holds_Load sba k1 v1 f2); auto.
    + rewrite (holds_Load sab k2 v2 f1), (holds_Load sba k2 v2 f2); auto.
    + destruct (holds_or_lacks st its k HI) as [[w Hk]|Hk].
      * rewrite (holds_Load sab k w f1), (holds_Load sba k w f2); auto.
      * rewrite (lacks_Load sab k f1), (lacks_Load sba k f2); auto.
Qed.

End Observations.

(** ** The specification *)

Section Specification.
Context {O : Oracle}.
Implicit Types (h : Heap) (p q : ptr) (g : list ptr) (A C its : list item).

(** C1. After [Store(k, v)] returns, and whatever is then stored or deleted
    under other keys, [Load(k)] returns [(v, true)]. *)
Theorem C1_store_then_load st k v level fuel :
  reachable st → 1 ≤ level ≤ maxLevel → enough st fuel →
  ∃ st', Store fuel st k v level = Ret st' ∧
    ∀ st'' fuel'', rtc (step_off k) st' st'' → enough st'' fuel'' →
      Load fuel'' st'' k = Ret (v, true).
Proof.
  intros [its HI]%reachable_Inv Hlev Hf.
  destruct (Store_contents st its k v level fuel HI Hlev Hf) as (st' & E & Hh & _).
  exists st'. split; [done|]. intros st'' fuel'' Hsteps Hf''.
  apply holds_Load; [|done]. by apply (step_off_holds k v st').
Qed.

(** C2, as amended. The header made by [NewString] has the empty key and the
    score of the empty key, so it compares with a key as the empty key does,
    and equal to the empty key itself; its links span [maxLevel] levels, all nil. *)
Theorem C2_header_node :
  ∃ hn, heap NewString !! header (smap NewString) = Some hn ∧
        key hn = EmptyString ∧ score hn = hash EmptyString ∧
        next hn = replicate maxLevel None ∧
        (∀ k, cmp hn (hash k) k = keycmp EmptyString k) ∧
        cmp hn (hash EmptyString) EmptyString = 0%Z.
Proof.
  eexists. split; [reflexivity|].
  split_and!; [reflexivity|reflexivity|reflexivity| |].
  - intros k. by apply cmp_keycmp.
  - rewrite cmp_keycmp by done. by apply keycmp_0.
Qed.

(** C3, as amended. For a key in the map, [findNodeDelete] fills in every
    level down to 0 and returns the highest level on which the node of the
    key is the recorded successor: the height of the node minus one. *)
Theorem C3_findNodeDelete_top_layer st k v fuel :
  reachable st → enough st fuel → Load fuel st k = Ret (v, true) →
  ∃ p nd preds succs,
    heap st !! p = Some nd ∧ key nd = k ∧
    findNodeDelete fuel st k (replicate maxLevel None) (replicate maxLevel None)
      = Ret ((Z.of_nat (List.length (next nd)) - 1)%Z, preds, succs) ∧
    ∀ j, j < maxLevel →
      (∃ x, preds !! j = Some (Some x)) ∧
      (∃ s, succs !! j = Some s ∧
            (s = Some p ↔ j < List.length (next nd)) ∧
            is_match (heap st) s (hash k) k = Ret (bool_decide (j < List.length (next nd)))).
Proof.
  intros [its HI]%reachable_Inv Hf EL. pose proof (inv_linked _ _ HI) as HL.
  destruct (holds_in st its k v HI (Load_found_holds st its k v fuel HI Hf EL))
    as (it & Hin & Hk & _).
  destruct (key_split_exists k its (lk_sorted _ _ HL)) as (A & ok & C & HS).
  assert (ok = Some it) as ->.
  { destruct (proj1 (key_split_present _ _ _ _ _ HS)) as [it' ->].
    - rewrite <- Hk. by apply list_elem_of_fmap_2.
    - f_equal. apply (NoDup_fmap_inj_on ikey its); try done.
      + apply sorted_keys_NoDup, (lk_sorted _ _ HL).
      + by apply (split_in_ok st its HL k A C _ HS).
      + destruct HS as (_ & _ & Hok & _). rewrite (Hok it' eq_refl). done. }
  destruct (ok_node st its HL k A C _ HS it eq_refl) as (nd & Hnd & Hknd & _ & Hlen & Hh & _).
  destruct (enough_split st its k A _ C fuel HL HS Hf) as (HfA & _ & _).
  destruct (findNodeDelete_from_spec st its HL k A C _ HS fuel HfA maxLevel (-1)%Z
              (header (smap st)) (replicate maxLevel None) (replicate maxLevel None))
    as (lF & preds' & succs' & E0 & ElF & Fp & Fs); [lia|by left|].
  simpl in ElF. rewrite Nat.min_r in ElF by lia.
  exists (iptr it), nd, preds', succs'. split_and!; try done.
  - unfold findNodeDelete. rewrite E0, ElF, Hlen. done.
  - intros j Hj. rewrite Hlen. split.
    + eexists. apply (filled_lookup maxLevel _ preds' _ j Fp); [done|].
      by rewrite length_replicate.
    + exists (succAt j (Some it) C). split_and!.
      * apply (filled_lookup maxLevel _ succs' _ j Fs); [done|].
        by rewrite length_replicate.
      * split.
        -- intros Es. destruct (decide (j < iheight it)) as [|Hn]; [done|exfalso].
           rewrite succAt_above in Es by done.
           apply head_Some_elem_of, elem_of_lvl in Es as (it' & Hin' & Ep & _).
           pose proof (linked_ptr_inj st its it' it HL
                         (split_in_C st its HL k A C _ HS it' Hin') Hin Ep) as ->.
           destruct HS as (_ & _ & _ & HC). rewrite Forall_forall in HC.
           specialize (HC it Hin'). rewrite Hk in HC. by apply klt_irrefl in HC.
        -- intros Hlt. by apply succAt_ok.
      * apply (is_match_succAt st its HL k A C _ HS).
Qed.

(** C4. On a reachable state [Range] returns.  The visitor is called on a
    prefix of the entries of the map, taken in strictly ascending (score, key)
    order: on no key twice, and only on keys that [Load] finds, with their
    values.  When the visitor answers true on every call of the walk, so that
    the walk is completed, it is called on every key of the map, once. *)
Theorem C4_range_order {X : Type} st fuel (f : string → iface → X → bool * X) a :
  reachable st → enough st fuel →
  ∃ es calls a',
    Range fuel st f a = Ret (calls, a') ∧
    StronglySorted klt es.*1 ∧
    (∀ k v, (k, v) ∈ es ↔ Load fuel st k = Ret (v, true)) ∧
    (calls, a') = visit f a [] es ∧
    (∃ rest, es = calls ++ rest) ∧
    ((∀ pre k v post, es = pre ++ (k, v) :: post →
                      (f k v (visit f a [] pre).2).1 = true) →
     calls = es) ∧
    StronglySorted klt calls.*1 ∧
    NoDup calls.*1 ∧
    (∀ k v, (k, v) ∈ calls → Load fuel st k = Ret (v, true)) ∧
    ((∀ k v x, (f k v x).1 = true) →
     ∀ k, k ∈ calls.*1 ↔ ∃ v, Load fuel st k = Ret (v, true)).
Proof.
  intros [its HI]%reachable_Inv Hf. pose proof (inv_linked _ _ HI) as HL.
  destruct (visit f a [] (contents st its)) as [calls a'] eqn:Ev.
  exists (contents st its), calls, a'.
  destruct (visit_prefix f (contents st its) a []) as (es1 & es2 & Ees & Ecalls).
  rewrite Ev in Ecalls. simpl in Ecalls. subst calls.
  pose proof (lk_sorted _ _ HL) as Hs. rewrite <- (contents_keys st) in Hs.
  pose proof Hs as Hs1. rewrite Ees, fmap_app in Hs1.
  apply StronglySorted_app in Hs1 as (_ & Hs1 & _).
  split_and!.
  - by rewrite (Range_inv st its fuel f a HI Hf), Ev.
  - done.
  - intros k v. by apply contents_Load_iff.
  - by rewrite Ev.
  - by exists es2.
  - intros Hgo. pose proof (visit_complete f (contents st its) a [] Hgo) as Eall.
    rewrite Ev in Eall. done.
  - done.
  - clear -Hs1. induction Hs1 as [|x l _ IH Hx]; constructor; [|done].
    intros Hin. rewrite Forall_forall in Hx. by apply (klt_irrefl x), Hx.
  - intros k v Hin. apply (contents_Load_iff st its fuel k v HI Hf).
    rewrite Ees. apply elem_of_app. by left.
  - intros Hgo k. pose proof (visit_all f (contents st its) Hgo a []) as Eall.
    rewrite Ev in Eall. simpl in Eall. rewrite Eall, contents_keys.
    apply (keys_Load st its fuel k HI Hf).
Qed.

(** C5. On a reachable state [Len] is the number of keys that [Load] finds,
    as a 64-bit counter; a [Store] of a key not in the map adds one to it, a
    [Store] of a key in the map leaves it, and a deletion that finds its key
    takes one from it. *)
Theorem C5_len_counts st fuel :
  reachable st → enough st fuel →
  (∃ ks, NoDup ks ∧
         (∀ k, k ∈ ks ↔ ∃ v, Load fuel st k = Ret (v, true)) ∧
         Len st = wrap64 (Z.of_nat (List.length ks)) ∧
         ((Z.of_nat (List.length ks) < 2 ^ 63)%Z → Len st = Z.of_nat (List.length ks))) ∧
  (∀ k v level, 1 ≤ level ≤ maxLevel →
     ∃ st', Store fuel st k v level = Ret st' ∧
       (Load fuel st k = Ret (inil, false) → Len st' = AddInt64 (Len st) 1) ∧
       (∀ v0, Load fuel st k = Ret (v0, true) → Len st' = Len st)) ∧
  (∀ k, ∃ st' r, LoadAndDelete fuel st k = Ret (r, st') ∧ Delete fuel st k = Ret st' ∧
       (r.2 = true → Len st' = AddInt64 (Len st) (-1)) ∧
       (r.2 = false → Len st' = Len st) ∧
       (r.2 = true ↔ ∃ v0, Load fuel st k = Ret (v0, true))).
Proof.
  intros [its HI]%reachable_Inv Hf. pose proof (inv_linked _ _ HI) as HL. split_and!.
  - exists (ikey <$> its). split_and!.
    + apply sorted_keys_NoDup, (lk_sorted _ _ HL).
    + intros k. split.
      * intros (it & -> & Hin)%list_elem_of_fmap. eexists. by apply (Load_present st its).
      * intros [v EL]. destruct (decide (k ∈ ikey <$> its)) as [|Hn]; [done|].
        by rewrite (Load_absent st its k fuel HL Hn Hf) in EL.
    + rewrite length_fmap. apply (inv_length _ _ HI).
    + rewrite length_fmap. intros Hlt. unfold Len. rewrite (inv_length _ _ HI).
      apply wrap64_small. lia.
  - intros k v level Hlev.
    destruct (Store_contents st its k v level fuel HI Hlev Hf) as (st' & E & _ & _ & _ & H1 & H2).
    exists st'. split_and!; try done.
    + intros EL. apply H2. by apply (lacks_in st its), (Load_missing_lacks st its k fuel).
    + intros v0 EL. apply H1.
      destruct (holds_in st its k v0 HI (Load_found_holds st its k v0 fuel HI Hf EL))
        as (it & Hin & <- & _). by apply list_elem_of_fmap_2.
  - intros k.
    destruct (Delete_contents st its k fuel HI Hf) as (st' & r & E1 & E2 & _ & _ & _ & H1 & H2).
    exists st', r. split_and!; try done.
    + intros Hr. destruct (holds_or_lacks st its k HI) as [[v0 Hh]|Hl].
      * by apply (H1 v0).
      * destruct (H2 Hl) as [-> _]. done.
    + intros Hr. destruct (holds_or_lacks st its k HI) as [[v0 Hh]|Hl].
      * destruct (H1 v0 Hh) as [-> _]. done.
      * by destruct (H2 Hl) as [_ ->].
    + split.
      * intros Hr. destruct (holds_or_lacks st its k HI) as [[v0 Hh]|Hl].
        -- exists v0. by apply holds_Load.
        -- destruct (H2 Hl) as [-> _]. done.
      * intros [v0 EL]. destruct (H1 v0 (Load_found_holds st its k v0 fuel HI Hf EL)) as [-> _].
        done.
Qed.

(** C6. After [Delete(k)] returns, and whatever is then stored or deleted
    under other keys, [Load(k)] returns [(nil, false)]; and [LoadAndDelete]
    leaves the same state. *)
Theorem C6_delete_then_load st k fuel :
  reachable st → enough st fuel →
  ∃ st' r, Delete fuel st k = Ret st' ∧ LoadAndDelete fuel st k = Ret (r, st') ∧
    ∀ st'' fuel'', rtc (step_off k) st' st'' → enough st'' fuel'' →
      Load fuel'' st'' k = Ret (inil, false).
Proof.
  intros [its HI]%reachable_Inv Hf.
  destruct (Delete_contents st its k fuel HI Hf) as (st' & r & E1 & E2 & Hl & _).
  exists st', r. split_and!; try done. intros st'' fuel'' Hsteps Hf''.
  apply lacks_Load; [|done]. by apply (step_off_lacks k st').
Qed.

(** C7. On a well-formed list, when no linked node has the key, or the node
    that has it is marked, [Delete] and [LoadAndDelete] write nothing, and
    [LoadAndDelete] returns [(nil, false)]. *)
Theorem C7_delete_not_found st its k fuel :
  Linked st its →
  (k ∉ ikey <$> its ∨
   ∃ it nd, it ∈ its ∧ ikey it = k ∧ heap st !! iptr it = Some nd ∧
            bitflag_Get (flags nd) marked = true) →
  enough st fuel →
  Delete fuel st k = Ret st ∧ LoadAndDelete fuel st k = Ret (inil, false, st).
Proof.
  intros HL Hk Hf.
  destruct (key_split_exists k its (lk_sorted _ _ HL)) as (A & ok & C & HS).
  destruct (LoadAndDelete_hidden st its k A C ok fuel HL HS) as [E1 E2]; try done.
  intros it' nd' -> Hnd'. destruct Hk as [Hk|(it & nd & Hin & Hkey & Hnd & Hm)].
  - destruct Hk. apply (key_split_present _ _ _ _ _ HS). by eexists.
  - assert (it' = it) as ->.
    { apply (NoDup_fmap_inj_on ikey its); try done.
      + apply sorted_keys_NoDup, (lk_sorted _ _ HL).
      + by apply (split_in_ok st its HL k A C _ HS).
      + destruct HS as (_ & _ & Hok & _). rewrite (Hok it' eq_refl). done. }
    rewrite Hnd in Hnd'. injection Hnd' as <-. by apply bitflag_marked_hidden.
Qed.

(** C8. On a well-formed list, [Store] on a key whose node is linked and not
    marked returns the state it was given with the value of that one node
    replaced: the links, heights, flags and locks of all nodes and the
    counter are as before. *)
Theorem C8_store_replaces_value st its it nd v level fuel :
  Linked st its → it ∈ its → heap st !! iptr it = Some nd →
  bitflag_Get (flags nd) marked = false → enough st fuel →
  ∃ st', Store fuel st (ikey it) v level = Ret st' ∧
    st' = set_heap st (<[iptr it := with_value v nd]> (heap st)) ∧
    (∀ q, fld next (heap st') q = fld next (heap st) q ∧
          fld static (heap st') q = fld static (heap st) q ∧
          fld flags (heap st') q = fld flags (heap st) q ∧
          fld mu (heap st') q = fld mu (heap st) q) ∧
    (∀ q, q ≠ iptr it → heap st' !! q = heap st !! q) ∧
    Len st' = Len st.
Proof.
  intros HL Hin Hnd Hm Hf.
  destruct (key_split_exists (ikey it) its (lk_sorted _ _ HL)) as (A & ok & C & HS).
  assert (ok = Some it) as ->.
  { destruct (proj1 (key_split_present _ _ _ _ _ HS)) as [it' ->].
    - by apply list_elem_of_fmap_2.
    - f_equal. apply (NoDup_fmap_inj_on ikey its); try done.
      + apply sorted_keys_NoDup, (lk_sorted _ _ HL).
      + by apply (split_in_ok st its HL _ A C _ HS).
      + destruct HS as (_ & _ & Hok & _). by rewrite (Hok it' eq_refl). }
  destruct (enough_split st its _ A _ C fuel HL HS Hf) as (HfA & _ & r & ->).
  eexists. split_and!; [|done|..].
  - unfold Store. by apply (Store_loop_present st its HL _ A C _ HS).
  - intros q. simpl. split_and!; by eapply eqv_insert.
  - intros q Hq. simpl. by rewrite list_lookup_insert_ne.
  - done.
Qed.

(** C9. [LoadOrStore] on a key that [Load] does not find stores the value
    and returns [(nil, false)]: not the value it stored. *)
Theorem C9_LoadOrStore_absent st k v level fuel :
  reachable st → 1 ≤ level ≤ maxLevel → enough st fuel →
  Load fuel st k = Ret (inil, false) →
  ∃ st', LoadOrStore fuel st k v level = Ret (inil, false, st') ∧
    ∀ fuel', enough st' fuel' → Load fuel' st' k = Ret (v, true).
Proof.
  intros [its HI]%reachable_Inv Hlev Hf EL.
  destruct (Store_contents st its k v level fuel HI Hlev Hf) as (st' & E & Hh & _).
  exists st'. split.
  - unfold LoadOrStore. rewrite EL. simpl. by rewrite E.
  - intros fuel' Hf'. by apply holds_Load.
Qed.

(** C10. The empty key is a key like any other: after [Store] of a value [v]
    under it, [Load] of it returns [(v, true)], while the header keeps the
    empty key and its score; on the new map, where only the header has the
    empty key, [Load] of it finds nothing. *)
Theorem C10_empty_key st v level fuel :
  reachable st → 1 ≤ level ≤ maxLevel → enough st fuel →
  ∃ st', Store fuel st EmptyString v level = Ret st' ∧
    (∀ fuel', enough st' fuel' → Load fuel' st' EmptyString = Ret (v, true)) ∧
    (∃ hn, heap st' !! header (smap st') = Some hn ∧
           key hn = EmptyString ∧ score hn = hash EmptyString) ∧
    Load fuel NewString EmptyString = Ret (inil, false).
Proof.
  intros [its HI]%reachable_Inv Hlev Hf.
  destruct (Store_contents st its EmptyString v level fuel HI Hlev Hf) as (st' & E & Hh & _).
  exists st'. split_and!; try done.
  - intros fuel' Hf'. by apply holds_Load.
  - destruct (holds_Inv _ _ _ Hh) as [its' HI'].
    destruct (lk_header _ _ (inv_linked _ _ HI')) as (hn & Hhn & Hst).
    injection Hst as ? ? ?. eauto.
  - pose proof maxLevel_pos. unfold Load.
    apply (Load_from_absent NewString [] (inv_linked _ _ NewString_Inv) EmptyString [] [] None);
      try done; [simpl; lia|by left].
Qed.

End Specification.

(** ** Further properties *)

Section Further.
Context {O : Oracle}.

(** Every state that the operations reach from the new map is a well-formed
    skip list at rest: sorted, every level a chain through the nodes at least
    that high, every node fully linked, unmarked and unlocked, and the counter
    equal to the number of nodes. *)
Theorem X1_reachable_well_formed st : reachable st → ∃ its, Inv st its.
Proof. intros Hr. by apply reachable_Inv. Qed.

(** [LoadAndDelete] on a key that [Load] finds returns the value [Load]
    returns, with [true], and takes one from the counter. *)
Theorem X2_LoadAndDelete_returns_value st k v fuel :
  reachable st → enough st fuel → Load fuel st k = Ret (v, true) →
  ∃ st', LoadAndDelete fuel st k = Ret (v, true, st') ∧
         Len st' = AddInt64 (Len st) (-1).
Proof.
  intros [its HI]%reachable_Inv Hf EL.
  destruct (Delete_contents st its k fuel HI Hf) as (st' & r & E1 & _ & _ & _ & _ & H1 & _).
  destruct (H1 v (Load_found_holds st its k v fuel HI Hf EL)) as [-> Hlen].
  by exists st'.
Qed.

(** [LoadOrStore] keeps the first value.  On a key in the map it returns the
    value found and leaves the map as it is; on a key not in the map it
    stores the given value and adds one to the counter.  Either way the key
    is in the map afterwards, and a second [LoadOrStore] under it, with any
    value, returns the value that is there and changes nothing. *)
Theorem X3_LoadOrStore_keeps_first st k v level fuel :
  reachable st → 1 ≤ level ≤ maxLevel → enough st fuel →
  ∃ r st' w,
    LoadOrStore fuel st k v level = Ret (r, st') ∧
    ((Load fuel st k = Ret (w, true) ∧ r = (w, true) ∧ st' = st) ∨
     (Load fuel st k = Ret (inil, false) ∧ r = (inil, false) ∧ w = v ∧
      Len st' = AddInt64 (Len st) 1)) ∧
    ∀ fuel', enough st' fuel' →
      Load fuel' st' k = Ret (w, true) ∧
      ∀ v' level', LoadOrStore fuel' st' k v' level' = Ret (w, true, st').
Proof.
  intros [its HI]%reachable_Inv Hlev Hf.
  destruct (Store_contents st its k v level fuel HI Hlev Hf) as (st1 & E & Hh & _ & _ & _ & Hlen).
  assert (∀ s w, holds s k w → ∀ fuel', enough s fuel' →
            Load fuel' s k = Ret (w, true) ∧
            ∀ v' level', LoadOrStore fuel' s k v' level' = Ret (w, true, s)) as Hsecond.
  { intros s w Hw fuel' Hf'. pose proof (holds_Load s k w fuel' Hw Hf') as EL.
    split; [done|]. intros v' level'. unfold LoadOrStore. by rewrite EL. }
  unfold LoadOrStore.
  destruct (holds_or_lacks st its k HI) as [[v0 Hk]|Hk].
  - rewrite (holds_Load st k v0 fuel Hk Hf). simpl. exists (v0, true), st, v0.
    split_and!; [done|by left|by apply Hsecond].
  - rewrite (lacks_Load st k fuel Hk Hf). simpl. rewrite E. simpl.
    exists (inil, false), st1, v. split_and!; [done| |by apply Hsecond].
    right. split_and!; try done. apply Hlen. by apply (lacks_in st its).
Qed.

(** [Store] under one key changes what [Load] returns under no other key. *)
Theorem X4_Store_other_keys st k v level fuel :
  reachable st → 1 ≤ level ≤ maxLevel → enough st fuel →
  ∃ st', Store fuel st k v level = Ret st' ∧
    ∀ k' fuel', k' ≠ k → enough st' fuel' → Load fuel' st' k' = Load fuel st k'.
Proof.
  intros [its HI]%reachable_Inv Hlev Hf.
  destruct (Store_contents st its k v level fuel HI Hlev Hf) as (st' & E & _ & Hh & Hl & _).
  exists st'. split; [done|]. intros k' fuel' Hne Hf'.
  destruct (holds_or_lacks st its k' HI) as [[v' Hk']|Hk'].
  - rewrite (holds_Load st k' v' fuel Hk' Hf). apply holds_Load; [|done]. by apply Hh.
  - rewrite (lacks_Load st k' fuel Hk' Hf). apply lacks_Load; [|done]. by apply Hl.
Qed.

(** [Delete] of one key changes what [Load] returns under no other key. *)
Theorem X5_Delete_other_keys st k fuel :
  reachable st → enough st fuel →
  ∃ st', Delete fuel st k = Ret st' ∧
    ∀ k' fuel', k' ≠ k → enough st' fuel' → Load fuel' st' k' = Load fuel st k'.
Proof.
  intros [its HI]%reachable_Inv Hf.
  destruct (Delete_contents st its k fuel HI Hf) as (st' & r & _ & E & _ & Hh & Hl & _).
  exists st'. split; [done|]. intros k' fuel' Hne Hf'.
  destruct (holds_or_lacks st its k' HI) as [[v' Hk']|Hk'].
  - rewrite (holds_Load st k' v' fuel Hk' Hf). apply holds_Load; [|done]. by apply Hh.
  - rewrite (lacks_Load st k' fuel Hk' Hf). apply lacks_Load; [|done]. by apply Hl.
Qed.

(** The new map is empty, for every key and every fuel. *)
Theorem X6_new_map_is_empty k fuel :
  Load fuel NewString k = Ret (inil, false) ∧
  LoadAndDelete (S fuel) NewString k = Ret (inil, false, NewString) ∧
  Delete (S fuel) NewString k = Ret NewString ∧
  Len NewString = 0%Z ∧
  ∀ (X : Type) (f : string → iface → X → bool * X) a,
    Range fuel NewString f a = Ret ([], a).
Proof.
  pose proof maxLevel_pos as Hpos.
  pose proof (inv_linked _ _ NewString_Inv) as HL.
  assert (key_split k [] [] None []) as HS.
  { unfold key_split. split_and!; by try constructor. }
  split_and!.
  - unfold Load.
    apply (Load_from_absent NewString [] HL k [] [] None HS); try done; [simpl; lia|by left].
  - unfold LoadAndDelete.
    apply (LoadAndDelete_loop_hidden NewString [] k [] [] None); try done;
      [simpl; lia|by rewrite length_replicate..].
  - unfold Delete. apply (Delete_loop_LoadAndDelete _ _ _ _ _ _ _ _ _ (inil, false)).
    apply (LoadAndDelete_loop_hidden NewString [] k [] [] None); try done;
      [simpl; lia|by rewrite length_replicate..].
  - done.
  - intros X f a. unfold Range.
    assert (loadNext (heap NewString) (header (smap NewString)) 0 = Ret None) as E.
    { apply loadNext_nextAt. exact (lk_chain _ _ HL 0 ltac:(lia)). }
    rewrite E. simpl. by destruct fuel.
Qed.

(** A second [Delete] of the same key does nothing. *)
Theorem X7_Delete_twice st k fuel :
  reachable st → enough st fuel →
  ∃ st', Delete fuel st k = Ret st' ∧
    ∀ fuel', enough st' fuel' →
      Delete fuel' st' k = Ret st' ∧
      LoadAndDelete fuel' st' k = Ret (inil, false, st').
Proof.
  intros [its HI]%reachable_Inv Hf.
  destruct (Delete_contents st its k fuel HI Hf) as (st' & r & _ & E & Hl & _).
  exists st'. split; [done|]. intros fuel' Hf'.
  destruct (lacks_Inv _ _ Hl) as [its' HI'].
  destruct (Delete_contents st' its' k fuel' HI' Hf') as (st2 & r2 & E1 & E2 & _ & _ & _ & _ & H).
  destruct (H Hl) as [-> ->]. done.
Qed.

(** A second [Store] of the same value under the same key does nothing,
    whatever level it draws. *)
Theorem X8_Store_twice st k v level fuel :
  reachable st → 1 ≤ level ≤ maxLevel → enough st fuel →
  ∃ st', Store fuel st k v level = Ret st' ∧
    ∀ fuel' level', enough st' fuel' → Store fuel' st' k v level' = Ret st'.
Proof.
  intros [its HI]%reachable_Inv Hlev Hf.
  destruct (Store_contents st its k v level fuel HI Hlev Hf) as (st' & E & Hh & _).
  exists st'. split; [done|]. intros fuel' level' Hf'.
  destruct Hh as (its' & it & HI' & Hin & Hk & Hv).
  pose proof (inv_linked _ _ HI') as HL'.
  destruct (key_split_exists k its' (lk_sorted _ _ HL')) as (A & ok & C & HS).
  assert (ok = Some it) as ->.
  { destruct (proj1 (key_split_present _ _ _ _ _ HS)) as [it' ->].
    - rewrite <- Hk. by apply list_elem_of_fmap_2.
    - f_equal. apply (NoDup_fmap_inj_on ikey its'); try done.
      + apply sorted_keys_NoDup, (lk_sorted _ _ HL').
      + by apply (split_in_ok st' its' HL' k A C _ HS).
      + destruct HS as (_ & _ & Hok & _). rewrite (Hok it' eq_refl). done. }
  apply fld_Some in Hv as (nd & Hnd & Hval).
  destruct (Store_present st' its' k v level' A C it nd fuel' HI' HS Hnd Hf') as [E' _].
  rewrite E'. f_equal. destruct st' as [h sm]. unfold set_heap. simpl in *. f_equal.
  apply list_insert_id. rewrite Hnd. f_equal. destruct nd. simpl in *. by subst.
Qed.

(** [Store] of a key that is not in the map, then [Delete] of it, gives back
    the map: the counter and the result of every [Load] are as before. *)
Theorem X9_Store_Delete_round_trip st k v level fuel :
  reachable st → 1 ≤ level ≤ maxLevel → enough st fuel →
  Load fuel st k = Ret (inil, false) →
  ∃ st1, Store fuel st k v level = Ret st1 ∧
    ∀ fuel1, enough st1 fuel1 →
      ∃ st2, Delete fuel1 st1 k = Ret st2 ∧
        LoadAndDelete fuel1 st1 k = Ret (v, true, st2) ∧
        Len st2 = Len st ∧
        ∀ k' fuel2, enough st2 fuel2 → Load fuel2 st2 k' = Load fuel st k'.
Proof.
  intros [its HI]%reachable_Inv Hlev Hf EL.
  pose proof (Load_missing_lacks st its k fuel HI Hf EL) as Hk.
  destruct (Store_contents st its k v level fuel HI Hlev Hf)
    as (st1 & E & Hh & Hh1 & Hl1 & _ & Hlen1).
  exists st1. split; [done|]. intros fuel1 Hf1.
  destruct (holds_Inv _ _ _ Hh) as [its1 HI1].
  destruct (Delete_contents st1 its1 k fuel1 HI1 Hf1)
    as (st2 & r & E1 & E2 & Hl & Hh2 & Hl2 & Hr & _).
  destruct (Hr v Hh) as [-> Hlen2].
  exists st2. split_and!; try done.
  - rewrite Hlen2, (Hlen1 (lacks_in st its k HI Hk)). unfold Len.
    rewrite (inv_length _ _ HI). apply AddInt64_back.
  - intros k' fuel2 Hf2. destruct (decide (k' = k)) as [->|Hne].
    + rewrite EL. by apply lacks_Load.
    + destruct (holds_or_lacks st its k' HI) as [[v' Hk']|Hk'].
      * rewrite (holds_Load st k' v' fuel Hk' Hf). apply holds_Load; [|done].
        by apply Hh2, Hh1.
      * rewrite (lacks_Load st k' fuel Hk' Hf). apply lacks_Load; [|done].
        by apply Hl2, Hl1.
Qed.

(** [Load] takes no lock and reads the flags only: it returns the value of
    the node of the key when the node is fully linked and not marked, and
    [(nil, false)] otherwise, whatever locks are held. *)
Theorem X10_Load_sees_visible_nodes_only st its it nd fuel :
  Linked st its → it ∈ its → heap st !! iptr it = Some nd → enough st fuel →
  Load fuel st (ikey it) =
    Ret (if bitflag_MGet (flags nd) (Z.lor fullyLinked marked) fullyLinked
         then (value nd, true) else (inil, false)).
Proof.
  intros HL Hin Hnd Hf.
  destruct (key_split_exists (ikey it) its (lk_sorted _ _ HL)) as (A & ok & C & HS).
  pose proof (key_split_item st its it _ A ok C HL HS Hin eq_refl) as ->.
  destruct (enough_split st its _ A _ C fuel HL HS Hf) as (HfA & _).
  rewrite (Load_linked st its HL _ A C _ HS fuel HfA). by rewrite Hnd.
Qed.


(** For a key that is not in the map [findNode] returns nil and brackets the
    key on every level: [preds[j]] is the header or a node that compares
    less, [succs[j]] is its successor on level [j], nil or a node that
    compares greater. *)
Theorem X12_findNode_brackets st k fuel (preds0 succs0 : Links) :
  reachable st → enough st fuel → Load fuel st k = Ret (inil, false) →
  List.length preds0 = maxLevel → List.length succs0 = maxLevel →
  ∃ preds succs,
    findNode fuel st k preds0 succs0 = Ret (None, preds, succs) ∧
    ∀ j, j < maxLevel →
      ∃ p s, preds !! j = Some (Some p) ∧ succs !! j = Some s ∧
        loadNext (heap st) p j = Ret s ∧
        (p = header (smap st) ∨
         ∃ nd, heap st !! p = Some nd ∧ (cmp nd (hash k) k < 0)%Z) ∧
        (∀ q, s = Some q → ∃ nd, heap st !! q = Some nd ∧ (0 < cmp nd (hash k) k)%Z).
Proof.
  intros [its HI]%reachable_Inv Hf EL Hlp Hls. pose proof (inv_linked _ _ HI) as HL.
  pose proof (lacks_in st its k HI (Load_missing_lacks st its k fuel HI Hf EL)) as Hk.
  destruct (key_split_exists k its (lk_sorted _ _ HL)) as (A & ok & C & HS).
  assert (ok = None) as ->.
  { destruct ok as [it|]; [|done]. destruct Hk.
    apply (key_split_present _ _ _ _ _ HS). by eexists. }
  destruct (enough_split st its _ A _ C fuel HL HS Hf) as (HfA & _).
  destruct (findNode_from_absent st its HL k A C None HS fuel HfA eq_refl maxLevel
              (header (smap st)) preds0 succs0) as (preds & succs & E & Fp & Fs);
    [lia|by left|].
  exists preds, succs. split; [done|]. intros j Hj.
  exists (predAt (header (smap st)) j A), (succAt j None C). split_and!.
  - apply (filled_lookup maxLevel preds0 preds _ j Fp); lia.
  - apply (filled_lookup maxLevel succs0 succs _ j Fs); lia.
  - apply loadNext_nextAt. by apply (pred_succ_link st its HL k A C None HS).
  - pose proof (predAt_elem (header (smap st)) j A) as [->|Hin]%elem_of_cons; [by left|right].
    by apply (split_A_plt st its HL k A C None HS _ j).
  - intros q Hq. unfold succAt in Hq. simpl in Hq.
    apply head_Some_elem_of, elem_of_lvl in Hq as (it & Hin & <- & _).
    by apply (C_node st its HL k A C None HS).
Qed.

(** For a key that is in the map [findNode] returns its node as soon as it
    meets it, on the top level of the node, and leaves the entries of
    [preds] and [succs] below that level as they were. *)
Theorem X13_findNode_returns_at_top st k v fuel (preds0 succs0 : Links) :
  reachable st → enough st fuel → Load fuel st k = Ret (v, true) →
  List.length preds0 = maxLevel → List.length succs0 = maxLevel →
  ∃ p nd preds succs,
    heap st !! p = Some nd ∧ key nd = k ∧ value nd = v ∧
    findNode fuel st k preds0 succs0 = Ret (Some p, preds, succs) ∧
    succs !! (List.length (next nd) - 1) = Some (Some p) ∧
    ∀ j, j < List.length (next nd) - 1 →
         preds !! j = preds0 !! j ∧ succs !! j = succs0 !! j.
Proof.
  intros [its HI]%reachable_Inv Hf EL Hlp Hls. pose proof (inv_linked _ _ HI) as HL.
  destruct (holds_in st its k v HI (Load_found_holds st its k v fuel HI Hf EL))
    as (it & Hin & Hk & Hv).
  destruct (key_split_exists k its (lk_sorted _ _ HL)) as (A & ok & C & HS).
  pose proof (key_split_item st its it k A ok C HL HS Hin Hk) as ->.
  destruct (ok_node st its HL k A C _ HS it eq_refl) as (nd & Hnd & Hknd & _ & Hlen & Hh & _).
  destruct (enough_split st its _ A _ C fuel HL HS Hf) as (HfA & _).
  destruct (findNode_from_found st its k A C it fuel HL HS HfA maxLevel
              (header (smap st)) preds0 succs0) as (preds & succs & E & Hs & Hj);
    [lia|by left|lia|lia|].
  exists (iptr it), nd, preds, succs. rewrite Hlen. split_and!; try done.
  - apply fld_Some in Hv as (nd' & Hnd' & Hv). congruence.
  - intros j Hjj. apply Hj. by left.
Qed.

(** The order of [cmp] on the nodes [newStringNode] makes is a strict total
    order on keys, whatever the hash: two keys compare equal only when they
    are the same key, also when their hashes collide. *)
Theorem X14_cmp_orders_keys (a b c : string) (va vb : iface) (la lb : nat) :
  (cmp (newStringNode a va la) (hash b) b = 0%Z ↔ a = b) ∧
  ((cmp (newStringNode a va la) (hash b) b < 0)%Z ↔
   (0 < cmp (newStringNode b vb lb) (hash a) a)%Z) ∧
  ((cmp (newStringNode a va la) (hash b) b < 0)%Z →
   (cmp (newStringNode b vb lb) (hash c) c < 0)%Z →
   (cmp (newStringNode a va la) (hash c) c < 0)%Z).
Proof.
  rewrite !cmp_keycmp by done. simpl. split_and!.
  - apply keycmp_0.
  - apply klt_flip.
  - apply klt_trans.
Qed.

(** The locking loop of [Store] locks every predecessor once, also one that
    stands on several levels, and [unlockString] releases exactly these
    locks: the heap is as it was before the loop. *)
Theorem X15_unlockString_undoes_locking st k level fuel :
  reachable st → 1 ≤ level ≤ maxLevel → enough st fuel →
  Load fuel st k = Ret (inil, false) →
  ∃ preds succs h1 highestLocked,
    findNode fuel st k (replicate maxLevel None) (replicate maxLevel None)
      = Ret (None, preds, succs) ∧
    lockPreds validStore level (heap st) preds succs 0 None (-1)%Z true
      = Ret (h1, highestLocked, true) ∧
    (∀ j, j < level → ∃ p, preds !! j = Some (Some p) ∧ fld mu h1 p = Some true) ∧
    unlockString h1 preds highestLocked = Ret (heap st).
Proof.
  intros [its HI]%reachable_Inv Hlev Hf EL. pose proof (inv_linked _ _ HI) as HL.
  pose proof (lacks_in st its k HI (Load_missing_lacks st its k fuel HI Hf EL)) as Hk.
  destruct (key_split_exists k its (lk_sorted _ _ HL)) as (A & ok & C & HS).
  assert (ok = None) as ->.
  { destruct ok as [it|]; [|done]. destruct Hk.
    apply (key_split_present _ _ _ _ _ HS). by eexists. }
  destruct (enough_split st its _ A _ C fuel HL HS Hf) as (HfA & _).
  set (h0 := heap st). set (hd := header (smap st)).
  set (P := λ j, predAt hd j A). set (Sc := λ j, succAt j None C).
  destruct (findNode_from_absent st its HL k A C None HS fuel HfA eq_refl maxLevel hd
              (replicate maxLevel None) (replicate maxLevel None))
    as (preds & succs & E0 & Fp & Fs); [lia|by left|].
  assert (∀ j, j < level → preds !! j = Some (Some (P j)) ∧ succs !! j = Some (Sc j)) as Hps.
  { intros j Hj. split.
    - apply (filled_lookup maxLevel _ preds _ j Fp); [lia|]. rewrite length_replicate. lia.
    - apply (filled_lookup maxLevel _ succs _ j Fs); [lia|]. rewrite length_replicate. lia. }
  assert (∀ j, j < level →
            fld flags h0 (P j) = Some fullyLinked ∧ fld mu h0 (P j) = Some false) as Hrest.
  { intros j Hj. apply (inv_at_rest st its (P j) HI).
    apply (predAt_its st its HL k A C None HS). }
  set (g := P <$> seq 0 level).
  assert (contig g) as Hc.
  { apply (contig_predsOf hd A level). apply (split_A_NoDup st its HL k A C None HS). }
  destruct (lockPreds_spec validStore preds succs g h0) with
    (n := level) (layer := 0) (h := h0) (prev := @None nat) (hl := (-1)%Z)
    as (h1 & hl & E1 & F1 & M1 & Hhl).
  { exact Hc. }
  { intros j p [Hj ->]%seq_fmap_lookup. destruct (Hps j Hj) as [-> ->]. eauto. }
  { intros p (j & Hj & ->)%seq_fmap_elem. by destruct (Hrest j Hj). }
  { intros h' j p s (Fs' & Ff & Fv & Fn) [Hj ->]%seq_fmap_lookup Hsj.
    destruct (Hps j Hj) as [_ Hsc]. rewrite Hsc in Hsj. injection Hsj as <-.
    destruct (Hrest j Hj) as (Hfl & _).
    apply validStore_ok.
    - by rewrite Ff.
    - intros s Es. rewrite Ff. apply (inv_at_rest st its s HI). right.
      by apply (succAt_its st its HL k A C None HS j).
    - rewrite (eqv_next_nextAt h0 h') by done.
      apply (pred_succ_link st its HL k A C None HS). lia. }
  { unfold g. by rewrite length_fmap, length_seq. }
  { apply frame_mu_refl. }
  { intros q. destruct (decide (q ∈ take 0 g)) as [Hin|]; [|done].
    simpl in Hin. by apply elem_of_nil in Hin. }
  { done. }
  { by left. }
  destruct (unlockString_spec preds g h1 hl) as (h5 & E5 & (Fs5 & Ff5 & Fv5 & Fn5) & M5).
  { exact Hc. }
  { intros j p [Hj ->]%seq_fmap_lookup. by destruct (Hps j Hj). }
  { intros p Hpg. rewrite M1. by rewrite decide_True. }
  { unfold g in Hhl |- *. by rewrite length_fmap, length_seq in Hhl |- *. }
  destruct F1 as (Fs1 & Ff1 & Fv1 & Fn1).
  exists preds, succs, h1, hl. split_and!; try done.
  - intros j Hj. exists (P j). split; [by apply Hps|].
    rewrite M1, decide_True; [done|]. apply seq_fmap_elem. eauto.
  - rewrite E5. f_equal. apply heap_ext.
    + intros q. by rewrite Fs5, Fs1.
    + intros q. by rewrite Ff5, Ff1.
    + intros q. by rewrite Fv5, Fv1.
    + intros q. by rewrite Fn5, Fn1.
    + intros q. rewrite M5. destruct (decide (q ∈ g)) as [(j & Hj & ->)%seq_fmap_elem|Hn].
      * symmetry. by apply Hrest.
      * rewrite M1. by rewrite decide_False.
Qed.

(** [Range] depends on what [Load] returns and on nothing else: two maps on
    which every [Load] agrees are walked alike, whatever the calls that
    built them and the levels their nodes drew. *)
Theorem X16_Range_depends_on_contents_only {X : Type} st1 st2 fuel1 fuel2
    (f : string → iface → X → bool * X) a :
  reachable st1 → reachable st2 → enough st1 fuel1 → enough st2 fuel2 →
  (∀ k, Load fuel1 st1 k = Load fuel2 st2 k) →
  Range fuel1 st1 f a = Range fuel2 st2 f a.
Proof.
  intros [its1 HI1]%reachable_Inv [its2 HI2]%reachable_Inv Hf1 Hf2 Heq.
  rewrite (Range_inv st1 its1 fuel1 f a HI1 Hf1), (Range_inv st2 its2 fuel2 f a HI2 Hf2).
  do 2 f_equal.
  rewrite (contents_Load st1 its1 fuel1 HI1 Hf1), (contents_Load st2 its2 fuel2 HI2 Hf2).
  assert (ikey <$> its1 = ikey <$> its2) as ->.
  { apply sorted_keys_unique.
    - apply (lk_sorted _ _ (inv_linked _ _ HI1)).
    - apply (lk_sorted _ _ (inv_linked _ _ HI2)).
    - intros k. rewrite (keys_Load st1 its1 fuel1 k HI1 Hf1),
        (keys_Load st2 its2 fuel2 k HI2 Hf2). by setoid_rewrite Heq. }
  apply list_fmap_ext. intros i k _. by rewrite Heq.
Qed.

(** [Range] on a well-formed list, whatever the flags and the locks: the
    visitor is called on the nodes that are fully linked and not marked, in
    ascending order, and on no other node. *)
Theorem X17_Range_skips_hidden_nodes {X : Type} st its fuel
    (f : string → iface → X → bool * X) a :
  Linked st its → enough st fuel →
  Range fuel st f a
    = Ret (visit f a [] (entry (heap st) <$> filter (λ it, shown (heap st) it = true) its)).
Proof.
  intros HL Hf. pose proof maxLevel_pos as Hpos.
  pose proof (lk_chain _ _ HL 0 ltac:(lia)) as Hc.
  rewrite (lvl_all its _ _ (lk_items _ _ HL)) in Hc.
  unfold Range. rewrite (proj2 (loadNext_nextAt _ _ _ _) (chain_head _ _ _ _ Hc)). simpl.
  apply (Range_loop_shown f _ (header (smap st)) its (header (smap st))); try done.
  - apply (lk_items _ _ HL).
  - pose proof (linked_length st its HL). unfold enough in Hf. lia.
Qed.

(** The level a [Store] draws shows in no result: with any two levels the
    counter and every [Load] come out the same. *)
Theorem X18_Store_level_is_invisible st k v level1 level2 fuel :
  reachable st → 1 ≤ level1 ≤ maxLevel → 1 ≤ level2 ≤ maxLevel → enough st fuel →
  ∃ st1 st2,
    Store fuel st k v level1 = Ret st1 ∧ Store fuel st k v level2 = Ret st2 ∧
    Len st1 = Len st2 ∧
    ∀ k' fuel1 fuel2, enough st1 fuel1 → enough st2 fuel2 →
      Load fuel1 st1 k' = Load fuel2 st2 k'.
Proof.
  intros [its HI]%reachable_Inv Hl1 Hl2 Hf.
  destruct (Store_contents st its k v level1 fuel HI Hl1 Hf)
    as (st1 & E1 & Hh1 & Hho1 & Hlo1 & Hp1 & Ha1).
  destruct (Store_contents st its k v level2 fuel HI Hl2 Hf)
    as (st2 & E2 & Hh2 & Hho2 & Hlo2 & Hp2 & Ha2).
  exists st1, st2. split_and!; try done.
  - destruct (decide (k ∈ ikey <$> its)) as [Hin|Hnin].
    + by rewrite Hp1, Hp2.
    + by rewrite Ha1, Ha2.
  - intros k' fuel1 fuel2 Hf1 Hf2. destruct (decide (k' = k)) as [->|Hne].
    + by rewrite (holds_Load st1 k v fuel1 Hh1 Hf1), (holds_Load st2 k v fuel2 Hh2 Hf2).
    + destruct (holds_or_lacks st its k' HI) as [[v' Hk']|Hk'].
      * rewrite (holds_Load st1 k' v' fuel1), (holds_Load st2 k' v' fuel2); auto.
      * rewrite (lacks_Load st1 k' fuel1), (lacks_Load st2 k' fuel2); auto.
Qed.

(** [Store]s under different keys commute: in either order the counter and
    every [Load] come out the same. *)
Theorem X19_Store_order_is_invisible st k1 k2 v1 v2 l1 l2 fuel :
  reachable st → k1 ≠ k2 → 1 ≤ l1 ≤ maxLevel → 1 ≤ l2 ≤ maxLevel → enough st fuel →
  ∃ sa sb,
    Store fuel st k1 v1 l1 = Ret sa ∧ Store fuel st k2 v2 l2 = Ret sb ∧
    ∀ fa fb, enough sa fa → enough sb fb →
      ∃ sab sba,
        Store fa sa k2 v2 l2 = Ret sab ∧ Store fb sb k1 v1 l1 = Ret sba ∧
        Len sab = Len sba ∧
        ∀ k f1 f2, enough sab f1 → enough sba f2 → Load f1 sab k = Load f2 sba k.
Proof. apply Store_commutes. Qed.

End Further.

(** ** The example states *)

Section DemoFacts.
#[local] Existing Instance fnv_oracle.

Lemma demo_levels : 1 ≤ 2 ≤ maxLevel.
Proof. simpl. lia. Qed.

Lemma demo_level_1 : 1 ≤ 1 ≤ maxLevel.
Proof. simpl. lia. Qed.

Lemma demo_new_enough : enough NewString 8.
Proof. unfold enough. simpl. lia. Qed.

Lemma demo_a_enough : enough demo_a 8.
Proof. unfold enough. simpl. lia. Qed.

Lemma demo_ab_enough : enough demo_ab 8.
Proof. unfold enough. simpl. lia. Qed.

Lemma demo_marked_enough : enough demo_marked 8.
Proof. unfold enough. simpl. lia. Qed.

Lemma demo_a_Store : Store 8 NewString "a"%string (iint 1) 2 = Ret demo_a.
Proof. vm_compute. reflexivity. Qed.

Lemma demo_ab_Store : Store 8 demo_a "b"%string (iint 2) 1 = Ret demo_ab.
Proof. vm_compute. reflexivity. Qed.

Lemma demo_a_reachable : reachable demo_a.
Proof.
  apply (reach_step "a"%string NewString); [apply reach_new|].
  exact (on_Store "a"%string NewString demo_a 8 (iint 1) 2 demo_levels demo_new_enough demo_a_Store).
Qed.

Lemma demo_ab_reachable : reachable demo_ab.
Proof.
  apply (reach_step "b"%string demo_a); [apply demo_a_reachable|].
  exact (on_Store "b"%string demo_a demo_ab 8 (iint 2) 1 demo_level_1 demo_a_enough demo_ab_Store).
Qed.

Lemma demo_a_Inv : Inv demo_a demo_items_a.
Proof.
  destruct (Store_absent NewString [] "a"%string (iint 1) 2 [] [] 8 NewString_Inv)
    as (st' & E & HI & _).
  - unfold key_split. split_and!; by try constructor.
  - exact demo_levels.
  - exact demo_new_enough.
  - rewrite demo_a_Store in E. injection E as <-. exact HI.
Qed.

Lemma demo_marked_Linked : Linked demo_marked demo_items_a.
Proof.
  pose proof (inv_linked _ _ demo_a_Inv) as HL.
  apply (Linked_frame (heap demo_a) _ (smap demo_a)); [..|exact HL].
  - by apply (eqv_insert static (heap demo_a) 1 demo_node_a).
  - by apply (eqv_insert next (heap demo_a) 1 demo_node_a).
Qed.

Lemma demo_level_3 : 1 ≤ 3 ≤ maxLevel.
Proof. simpl. lia. Qed.

Lemma demo_b_enough : enough demo_b 8.
Proof. unfold enough. simpl. lia. Qed.

Lemma demo_ba_enough : enough demo_ba 8.
Proof. unfold enough. simpl. lia. Qed.

Lemma demo_b_Store : Store 8 NewString "b"%string (iint 2) 1 = Ret demo_b.
Proof. vm_compute. reflexivity. Qed.

Lemma demo_ba_Store : Store 8 demo_b "a"%string (iint 1) 2 = Ret demo_ba.
Proof. vm_compute. reflexivity. Qed.

Lemma demo_b_reachable : reachable demo_b.
Proof.
  apply (reach_step "b"%string NewString); [apply reach_new|].
  exact (on_Store "b"%string NewString demo_b 8 (iint 2) 1 demo_level_1 demo_new_enough demo_b_Store).
Qed.

Lemma demo_ba_reachable : reachable demo_ba.
Proof.
  apply (reach_step "a"%string demo_b); [apply demo_b_reachable|].
  exact (on_Store "a"%string demo_b demo_ba 8 (iint 1) 2 demo_levels demo_b_enough demo_ba_Store).
Qed.

Lemma demo_a_ne_b : "a"%string ≠ "b"%string.
Proof. discriminate. Qed.

(** The two orders of storing [a] and [b] give maps on which every [Load]
    agrees. *)
Lemma demo_ab_ba_Load k : Load 8 demo_ab k = Load 8 demo_ba k.
Proof.
  destruct (Store_commutes NewString "a"%string "b"%string (iint 1) (iint 2) 2 1 8
              reach_new demo_a_ne_b demo_levels demo_level_1 demo_new_enough)
    as (sa & sb & Ea & Eb & H).
  rewrite demo_a_Store in Ea. injection Ea as <-.
  rewrite demo_b_Store in Eb. injection Eb as <-.
  destruct (H 8 8 demo_a_enough demo_b_enough) as (sab & sba & Eab & Eba & _ & HL).
  rewrite demo_ab_Store in Eab. injection Eab as <-.
  rewrite demo_ba_Store in Eba. injection Eba as <-.
  apply HL; [exact demo_ab_enough|exact demo_ba_enough].
Qed.

Lemma demo_marked_node : heap demo_marked !! 1 = Some demo_node_marked.
Proof. reflexivity. Qed.

End DemoFacts.

(** ** Instances on the example states *)

Section Examples.
#[local] Existing Instance fnv_oracle.

Lemma C1_witness :
  ∃ st', Store 8 NewString "a"%string (iint 1) 2 = Ret st' ∧
    ∀ st'' fuel'', rtc (step_off "a"%string) st' st'' → enough st'' fuel'' →
      Load fuel'' st'' "a"%string = Ret (iint 1, true).
Proof.
  exact (C1_store_then_load NewString "a"%string (iint 1) 2 8
           reach_new demo_levels demo_new_enough).
Defined.

(** C2 as the specification has it fails, whatever the hash function and
    the number of levels: the empty key is a key that can be stored, and the
    header of the new map compares equal to it, not strictly before it. *)
Lemma C2_counterexample : ¬ ∃ O : Oracle, @header_sorts_first O (@NewString O).
Proof.
  intros (O & hn & Hhn & _ & H). injection Hhn as <-.
  specialize (H EmptyString). rewrite cmp_keycmp in H by done.
  pose proof (proj2 (keycmp_0 EmptyString EmptyString) eq_refl) as E.
  simpl in H. lia.
Qed.

Lemma C3_witness :
  ∃ p nd preds succs,
    heap demo_a !! p = Some nd ∧ key nd = "a"%string ∧
    findNodeDelete 8 demo_a "a"%string (replicate maxLevel None) (replicate maxLevel None)
      = Ret ((Z.of_nat (List.length (next nd)) - 1)%Z, preds, succs) ∧
    ∀ j, j < maxLevel →
      (∃ x, preds !! j = Some (Some x)) ∧
      (∃ s, succs !! j = Some s ∧
            (s = Some p ↔ j < List.length (next nd)) ∧
            is_match (heap demo_a) s (hash "a"%string) "a"%string
              = Ret (bool_decide (j < List.length (next nd)))).
Proof.
  apply (C3_findNodeDelete_top_layer demo_a "a"%string (iint 1) 8
           demo_a_reachable demo_a_enough).
  vm_compute. reflexivity.
Defined.

(** In [demo_a] the node of ["a"] has two levels: [findNodeDelete] returns 1,
    and the successor recorded on level 0 compares equal too. *)
Lemma C3_counterexample : ¬ returns_lowest_match 8 demo_a "a"%string.
Proof.
  intros (lF & preds & succs & E & _ & _ & Hlow).
  vm_compute in E. injection E as <- <- <-.
  specialize (Hlow 0 (Some 1) ltac:(simpl; lia) eq_refl).
  vm_compute in Hlow. discriminate Hlow.
Qed.

Lemma C4_witness :
  ∃ es calls a',
    Range 8 demo_ab visit_all_keys tt = Ret (calls, a') ∧
    StronglySorted klt es.*1 ∧
    (∀ k v, (k, v) ∈ es ↔ Load 8 demo_ab k = Ret (v, true)) ∧
    (calls, a') = visit visit_all_keys tt [] es ∧
    (∃ rest, es = calls ++ rest) ∧
    ((∀ pre k v post, es = pre ++ (k, v) :: post →
                      (visit_all_keys k v (visit visit_all_keys tt [] pre).2).1 = true) →
     calls = es) ∧
    StronglySorted klt calls.*1 ∧
    NoDup calls.*1 ∧
    (∀ k v, (k, v) ∈ calls → Load 8 demo_ab k = Ret (v, true)) ∧
    ((∀ k v x, (visit_all_keys k v x).1 = true) →
     ∀ k, k ∈ calls.*1 ↔ ∃ v, Load 8 demo_ab k = Ret (v, true)).
Proof.
  exact (C4_range_order demo_ab 8 visit_all_keys tt demo_ab_reachable demo_ab_enough).
Defined.

Lemma C5_witness :
  (∃ ks, NoDup ks ∧
         (∀ k, k ∈ ks ↔ ∃ v, Load 8 demo_ab k = Ret (v, true)) ∧
         Len demo_ab = wrap64 (Z.of_nat (List.length ks)) ∧
         ((Z.of_nat (List.length ks) < 2 ^ 63)%Z → Len demo_ab = Z.of_nat (List.length ks))) ∧
  (∀ k v level, 1 ≤ level ≤ maxLevel →
     ∃ st', Store 8 demo_ab k v level = Ret st' ∧
       (Load 8 demo_ab k = Ret (inil, false) → Len st' = AddInt64 (Len demo_ab) 1) ∧
       (∀ v0, Load 8 demo_ab k = Ret (v0, true) → Len st' = Len demo_ab)) ∧
  (∀ k, ∃ st' r, LoadAndDelete 8 demo_ab k = Ret (r, st') ∧ Delete 8 demo_ab k = Ret st' ∧
       (r.2 = true → Len st' = AddInt64 (Len demo_ab) (-1)) ∧
       (r.2 = false → Len st' = Len demo_ab) ∧
       (r.2 = true ↔ ∃ v0, Load 8 demo_ab k = Ret (v0, true))).
Proof.
  exact (C5_len_counts demo_ab 8 demo_ab_reachable demo_ab_enough).
Defined.

Lemma C6_witness :
  ∃ st' r, Delete 8 demo_ab "a"%string = Ret st' ∧
    LoadAndDelete 8 demo_ab "a"%string = Ret (r, st') ∧
    ∀ st'' fuel'', rtc (step_off "a"%string) st' st'' → enough st'' fuel'' →
      Load fuel'' st'' "a"%string = Ret (inil, false).
Proof.
  exact (C6_delete_then_load demo_ab "a"%string 8 demo_ab_reachable demo_ab_enough).
Defined.

Lemma C7_witness :
  Delete 8 demo_marked "a"%string = Ret demo_marked ∧
  LoadAndDelete 8 demo_marked "a"%string = Ret (inil, false, demo_marked).
Proof.
  apply (C7_delete_not_found demo_marked demo_items_a "a"%string 8 demo_marked_Linked);
    [|exact demo_marked_enough].
  right. exists (mkItem 1 "a"%string 2). eexists. split_and!.
  - by left.
  - reflexivity.
  - reflexivity.
  - reflexivity.
Defined.

Lemma C8_witness :
  ∃ st', Store 8 demo_a "a"%string (iint 7) 3 = Ret st' ∧
    st' = set_heap demo_a (<[1 := with_value (iint 7) demo_node_a]> (heap demo_a)) ∧
    (∀ q, fld next (heap st') q = fld next (heap demo_a) q ∧
          fld static (heap st') q = fld static (heap demo_a) q ∧
          fld flags (heap st') q = fld flags (heap demo_a) q ∧
          fld mu (heap st') q = fld mu (heap demo_a) q) ∧
    (∀ q, q ≠ 1 → heap st' !! q = heap demo_a !! q) ∧
    Len st' = Len demo_a.
Proof.
  apply (C8_store_replaces_value demo_a demo_items_a (mkItem 1 "a"%string 2) demo_node_a
           (iint 7) 3 8 (inv_linked _ _ demo_a_Inv)).
  - by left.
  - reflexivity.
  - reflexivity.
  - exact demo_a_enough.
Defined.

Lemma C9_witness :
  ∃ st', LoadOrStore 8 demo_a "b"%string (iint 2) 1 = Ret (inil, false, st') ∧
    ∀ fuel', enough st' fuel' → Load fuel' st' "b"%string = Ret (iint 2, true).
Proof.
  apply (C9_LoadOrStore_absent demo_a "b"%string (iint 2) 1 8
           demo_a_reachable demo_level_1 demo_a_enough).
  vm_compute. reflexivity.
Defined.

Lemma C10_witness :
  ∃ st', Store 8 demo_a EmptyString (iint 5) 2 = Ret st' ∧
    (∀ fuel', enough st' fuel' → Load fuel' st' EmptyString = Ret (iint 5, true)) ∧
    (∃ hn, heap st' !! header (smap st') = Some hn ∧
           key hn = EmptyString ∧ score hn = hash EmptyString) ∧
    Load 8 NewString EmptyString = Ret (inil, false).
Proof.
  exact (C10_empty_key demo_a (iint 5) 2 8 demo_a_reachable demo_levels demo_a_enough).
Defined.

Lemma X1_witness : ∃ its, Inv demo_ab its.
Proof. exact (X1_reachable_well_formed demo_ab demo_ab_reachable). Defined.

Lemma X2_witness :
  ∃ st', LoadAndDelete 8 demo_ab "a"%string = Ret (iint 1, true, st') ∧
         Len st' = AddInt64 (Len demo_ab) (-1).
Proof.
  apply (X2_LoadAndDelete_returns_value demo_ab "a"%string (iint 1) 8
           demo_ab_reachable demo_ab_enough).
  vm_compute. reflexivity.
Defined.

Lemma X3_witness :
  ∃ r st' w,
    LoadOrStore 8 demo_a "b"%string (iint 2) 1 = Ret (r, st') ∧
    ((Load 8 demo_a "b"%string = Ret (w, true) ∧ r = (w, true) ∧ st' = demo_a) ∨
     (Load 8 demo_a "b"%string = Ret (inil, false) ∧ r = (inil, false) ∧ w = iint 2 ∧
      Len st' = AddInt64 (Len demo_a) 1)) ∧
    ∀ fuel', enough st' fuel' →
      Load fuel' st' "b"%string = Ret (w, true) ∧
      ∀ v' level', LoadOrStore fuel' st' "b"%string v' level' = Ret (w, true, st').
Proof.
  exact (X3_LoadOrStore_keeps_first demo_a "b"%string (iint 2) 1 8
           demo_a_reachable demo_level_1 demo_a_enough).
Defined.

Lemma X4_witness :
  ∃ st', Store 8 demo_a "b"%string (iint 2) 1 = Ret st' ∧
    ∀ k' fuel', k' ≠ "b"%string → enough st' fuel' →
      Load fuel' st' k' = Load 8 demo_a k'.
Proof.
  exact (X4_Store_other_keys demo_a "b"%string (iint 2) 1 8
           demo_a_reachable demo_level_1 demo_a_enough).
Defined.

Lemma X5_witness :
  ∃ st', Delete 8 demo_ab "b"%string = Ret st' ∧
    ∀ k' fuel', k' ≠ "b"%string → enough st' fuel' →
      Load fuel' st' k' = Load 8 demo_ab k'.
Proof.
  exact (X5_Delete_other_keys demo_ab "b"%string 8 demo_ab_reachable demo_ab_enough).
Defined.

Lemma X7_witness :
  ∃ st', Delete 8 demo_ab "a"%string = Ret st' ∧
    ∀ fuel', enough st' fuel' →
      Delete fuel' st' "a"%string = Ret st' ∧
      LoadAndDelete fuel' st' "a"%string = Ret (inil, false, st').
Proof.
  exact (X7_Delete_twice demo_ab "a"%string 8 demo_ab_reachable demo_ab_enough).
Defined.

Lemma X8_witness :
  ∃ st', Store 8 demo_a "b"%string (iint 2) 1 = Ret st' ∧
    ∀ fuel' level', enough st' fuel' → Store fuel' st' "b"%string (iint 2) level' = Ret st'.
Proof.
  exact (X8_Store_twice demo_a "b"%string (iint 2) 1 8
           demo_a_reachable demo_level_1 demo_a_enough).
Defined.

Lemma X9_witness :
  ∃ st1, Store 8 demo_a "b"%string (iint 2) 1 = Ret st1 ∧
    ∀ fuel1, enough st1 fuel1 →
      ∃ st2, Delete fuel1 st1 "b"%string = Ret st2 ∧
        LoadAndDelete fuel1 st1 "b"%string = Ret (iint 2, true, st2) ∧
        Len st2 = Len demo_a ∧
        ∀ k' fuel2, enough st2 fuel2 → Load fuel2 st2 k' = Load 8 demo_a k'.
Proof.
  apply (X9_Store_Delete_round_trip demo_a "b"%string (iint 2) 1 8
           demo_a_reachable demo_level_1 demo_a_enough).
  vm_compute. reflexivity.
Defined.

Lemma X10_witness : Load 8 demo_marked "a"%string = Ret (inil, false).
Proof.
  apply (X10_Load_sees_visible_nodes_only demo_marked demo_items_a (mkItem 1 "a"%string 2)
           demo_node_marked 8 demo_marked_Linked).
  - by left.
  - exact demo_marked_node.
  - exact demo_marked_enough.
Defined.


Lemma X12_witness :
  ∃ preds succs,
    findNode 8 demo_a "b"%string (replicate maxLevel None) (replicate maxLevel None)
      = Ret (None, preds, succs) ∧
    ∀ j, j < maxLevel →
      ∃ p s, preds !! j = Some (Some p) ∧ succs !! j = Some s ∧
        loadNext (heap demo_a) p j = Ret s ∧
        (p = header (smap demo_a) ∨
         ∃ nd, heap demo_a !! p = Some nd ∧ (cmp nd (hash "b"%string) "b"%string < 0)%Z) ∧
        (∀ q, s = Some q →
              ∃ nd, heap demo_a !! q = Some nd ∧ (0 < cmp nd (hash "b"%string) "b"%string)%Z).
Proof.
  apply (X12_findNode_brackets demo_a "b"%string 8 (replicate maxLevel None)
           (replicate maxLevel None) demo_a_reachable demo_a_enough).
  - vm_compute. reflexivity.
  - reflexivity.
  - reflexivity.
Defined.

Lemma X13_witness :
  ∃ p nd preds succs,
    heap demo_ab !! p = Some nd ∧ key nd = "a"%string ∧ value nd = iint 1 ∧
    findNode 8 demo_ab "a"%string (replicate maxLevel None) (replicate maxLevel None)
      = Ret (Some p, preds, succs) ∧
    succs !! (List.length (next nd) - 1) = Some (Some p) ∧
    ∀ j, j < List.length (next nd) - 1 →
         preds !! j = replicate maxLevel None !! j ∧
         succs !! j = replicate maxLevel None !! j.
Proof.
  apply (X13_findNode_returns_at_top demo_ab "a"%string (iint 1) 8 (replicate maxLevel None)
           (replicate maxLevel None) demo_ab_reachable demo_ab_enough).
  - vm_compute. reflexivity.
  - reflexivity.
  - reflexivity.
Defined.

Lemma X15_witness :
  ∃ preds succs h1 highestLocked,
    findNode 8 demo_a "b"%string (replicate maxLevel None) (replicate maxLevel None)
      = Ret (None, preds, succs) ∧
    lockPreds validStore 3 (heap demo_a) preds succs 0 None (-1)%Z true
      = Ret (h1, highestLocked, true) ∧
    (∀ j, j < 3 → ∃ p, preds !! j = Some (Some p) ∧ fld mu h1 p = Some true) ∧
    unlockString h1 preds highestLocked = Ret (heap demo_a).
Proof.
  apply (X15_unlockString_undoes_locking demo_a "b"%string 3 8
           demo_a_reachable demo_level_3 demo_a_enough).
  vm_compute. reflexivity.
Defined.

Lemma X16_witness :
  Range 8 demo_ab visit_all_keys tt = Range 8 demo_ba visit_all_keys tt.
Proof.
  exact (X16_Range_depends_on_contents_only demo_ab demo_ba 8 8 visit_all_keys tt
           demo_ab_reachable demo_ba_reachable demo_ab_enough demo_ba_enough
           demo_ab_ba_Load).
Defined.

Lemma X17_witness :
  Range 8 demo_marked visit_all_keys tt
    = Ret (visit visit_all_keys tt []
             (entry (heap demo_marked)
                <$> filter (λ it, shown (heap demo_marked) it = true) demo_items_a)).
Proof.
  exact (X17_Range_skips_hidden_nodes demo_marked demo_items_a 8 visit_all_keys tt
           demo_marked_Linked demo_marked_enough).
Defined.

Lemma X18_witness :
  ∃ st1 st2,
    Store 8 demo_a "b"%string (iint 2) 1 = Ret st1 ∧
    Store 8 demo_a "b"%string (iint 2) 3 = Ret st2 ∧
    Len st1 = Len st2 ∧
    ∀ k' fuel1 fuel2, enough st1 fuel1 → enough st2 fuel2 →
      Load fuel1 st1 k' = Load fuel2 st2 k'.
Proof.
  exact (X18_Store_level_is_invisible demo_a "b"%string (iint 2) 1 3 8
           demo_a_reachable demo_level_1 demo_level_3 demo_a_enough).
Defined.

Lemma X19_witness :
  ∃ sa sb,
    Store 8 NewString "a"%string (iint 1) 2 = Ret sa ∧
    Store 8 NewString "b"%string (iint 2) 1 = Ret sb ∧
    ∀ fa fb, enough sa fa → enough sb fb →
      ∃ sab sba,
        Store fa sa "b"%string (iint 2) 1 = Ret sab ∧
        Store fb sb "a"%string (iint 1) 2 = Ret sba ∧
        Len sab = Len sba ∧
        ∀ k f1 f2, enough sab f1 → enough sba f2 → Load f1 sab k = Load f2 sba k.
Proof.
  exact (X19_Store_order_is_invisible NewString "a"%string "b"%string (iint 1) (iint 2) 2 1 8
           reach_new demo_a_ne_b demo_levels demo_level_1 demo_new_enough).
Defined.

End Examples.

